(** * UQRC-LLM: a shallow embedding of the graph engine

    The engine of [src/lib/uqrc] (MemoryStore, SpectralWeightEngine,
    UQRCOperatorEngine, GeometricGraphEngine, StabilityFilter,
    ResponseSelector and the UQRC_LLM facade) as Rocq functions, followed by
    the properties of the specification that are settled on them.

    Conventions of the embedding.
    - A JavaScript string is a [string] of 8-bit code units; [toLowerCase]
      and the whitespace class are those of JavaScript on the code units
      0..255.
    - A JavaScript number is an exact rational ([Q]); rounding and overflow
      of IEEE doubles are not modelled.  [Math.tanh] is a variable of the
      development.
    - Node objects are shared and mutated in place, so a store holds a heap
      of node objects and the [Map] from identifiers to references into it;
      a [Map] keeps its keys in insertion order.
    - [Date.now()] is read from a clock oracle: the [n]-th call made by the
      engine returns [dateNow n].
    - The browser's [localStorage] is outside the model: [save] has no
      effect on the state in memory, and the engines start from an empty
      storage. *)

From Stdlib Require Import List String Ascii Bool Arith ZArith NArith.
From Stdlib Require Import QArith Qabs Qminmax Lia Lqa DecimalString.
From Stdlib Require Import Permutation Sorted.
Import ListNotations.

Local Close Scope Q_scope.
Local Open Scope string_scope.
Local Open Scope list_scope.
Local Open Scope nat_scope.

(** ** JavaScript strings *)

Module JS.

(** The class [\s] of regular expressions, which is also what [trim]
    removes (white space and line terminators). *)
Definition isSpace (c : ascii) : bool :=
  let n := nat_of_ascii c in
  ((9 <=? n) && (n <=? 13)) || (n =? 32) || (n =? 160).

Definition lowerChar (c : ascii) : ascii :=
  let n := nat_of_ascii c in
  if ((65 <=? n) && (n <=? 90))
     || ((192 <=? n) && (n <=? 222) && negb (n =? 215))
  then ascii_of_nat (n + 32) else c.

Fixpoint toLowerCase (s : string) : string :=
  match s with
  | EmptyString => EmptyString
  | String c r => String (lowerChar c) (toLowerCase r)
  end.

Fixpoint trimStart (s : string) : string :=
  match s with
  | EmptyString => EmptyString
  | String c r => if isSpace c then trimStart r else s
  end.

Fixpoint trimEnd (s : string) : string :=
  match s with
  | EmptyString => EmptyString
  | String c r =>
      match trimEnd r with
      | EmptyString => if isSpace c then EmptyString else String c EmptyString
      | r' => String c r'
      end
  end.

Definition trim (s : string) : string := trimEnd (trimStart s).

(** [hay.includes(needle)] *)
Fixpoint includes (hay needle : string) : bool :=
  String.prefix needle hay ||
  match hay with
  | EmptyString => false
  | String _ r => includes r needle
  end.

(** [s.split(/\s+/)]: [inRun] tells that the previous character was white
    space, so that a run of white space separates once. *)
Fixpoint splitFrom (inRun : bool) (s : string) : list string :=
  match s with
  | EmptyString => [EmptyString]
  | String c r =>
      if isSpace c then
        if inRun then splitFrom true r else EmptyString :: splitFrom true r
      else
        match splitFrom false r with
        | w :: ws => String c w :: ws
        | [] => [String c EmptyString]
        end
  end.

Definition splitWhitespace (s : string) : list string := splitFrom false s.

(** [s.replace(/\s+/g, '_')] *)
Fixpoint replaceFrom (inRun : bool) (s : string) : string :=
  match s with
  | EmptyString => EmptyString
  | String c r =>
      if isSpace c then
        if inRun then replaceFrom true r else String "_" (replaceFrom true r)
      else String c (replaceFrom false r)
  end.

Definition replaceWhitespace (s : string) : string := replaceFrom false s.

(** [words.join(' ')] *)
Fixpoint join (sep : string) (l : list string) : string :=
  match l with
  | [] => EmptyString
  | [w] => w
  | w :: ws => (w ++ sep ++ join sep ws)%string
  end.

(** A string is truthy when it is not empty. *)
Definition truthy (s : string) : bool :=
  match s with EmptyString => false | _ => true end.

(** [new Set(l)]: the distinct elements in the order of first insertion. *)
Fixpoint distinct (seen : list string) (l : list string) : list string :=
  match l with
  | [] => seen
  | x :: l' =>
      if existsb (String.eqb x) seen then distinct seen l'
      else distinct (seen ++ [x]) l'
  end.

Definition has (set : list string) (x : string) : bool :=
  existsb (String.eqb x) set.

(** [l.slice(-n)] *)
Definition sliceLast {A} (n : nat) (l : list A) : list A :=
  skipn (List.length l - n) l.

(** [l.shift()] leaves the list without its first element. *)
Definition shift {A} (l : list A) : list A := tl l.

(** [l.sort(cmp)]: the sort of an array is stable; [a] stays before [b]
    unless [cmp a b] is positive.  This is the result of every stable sort
    when [cmp] is the difference of a key, as the comparators of the
    engine are on a store whose edges lead to nodes; for a comparator that
    is no ordering JavaScript leaves the order to the implementation. *)
Fixpoint insertBy {A} (cmp : A -> A -> Q) (x : A) (l : list A) : list A :=
  match l with
  | [] => [x]
  | y :: l' =>
      if Qle_bool (cmp x y) 0 then x :: y :: l' else y :: insertBy cmp x l'
  end.

Fixpoint sort {A} (cmp : A -> A -> Q) (l : list A) : list A :=
  match l with
  | [] => []
  | x :: l' => insertBy cmp x (sort cmp l')
  end.

(** [l.map((x, i) => f x i)] *)
Fixpoint mapiFrom {A B} (i : nat) (f : A -> nat -> B) (l : list A) : list B :=
  match l with
  | [] => []
  | x :: l' => f x i :: mapiFrom (S i) f l'
  end.

Definition mapi {A B} (f : A -> nat -> B) (l : list A) : list B :=
  mapiFrom 0 f l.

End JS.

(** ** Numbers *)

Definition Qltb (x y : Q) : bool := negb (Qle_bool y x).
Definition ofNat (n : nat) : Q := inject_Z (Z.of_nat n).
Definition ofN (n : N) : Q := inject_Z (Z.of_N n).

(** [l.reduce((sum, x) => sum + f x, 0)] *)
Definition sumBy {A} (f : A -> Q) (l : list A) : Q :=
  fold_left (fun sum x => (sum + f x)%Q) l 0%Q.

(** ** Types ([types.ts]) *)

Inductive NodeType : Type := word | phrase | punctuation.

Definition NodeType_eqb (a b : NodeType) : bool :=
  match a, b with
  | word, word | phrase, phrase | punctuation, punctuation => true
  | _, _ => false
  end.

(** The type as it is printed in a template literal. *)
Definition typeName (t : NodeType) : string :=
  match t with
  | word => "word"
  | phrase => "phrase"
  | punctuation => "punctuation"
  end.

Module Node.
Record t : Type := mk {
  id : string;
  content : string;
  type : NodeType;
  lengthWeight : Q;
  charIndexWeight : Q;
  stabilityWeight : Q;
  usageWeight : Q;
  curvatureSignature : Q;
  fieldValue : Q;
  parentId : option string;
  childIds : list string;
  linkStrengths : list (string * Q);
  createdAt : N;
  lastUsedAt : N
}.

Definition setUsageWeight (v : Q) (n : t) : t :=
  mk (id n) (content n) (type n) (lengthWeight n) (charIndexWeight n)
     (stabilityWeight n) v (curvatureSignature n) (fieldValue n)
     (parentId n) (childIds n) (linkStrengths n) (createdAt n) (lastUsedAt n).

Definition setLastUsedAt (v : N) (n : t) : t :=
  mk (id n) (content n) (type n) (lengthWeight n) (charIndexWeight n)
     (stabilityWeight n) (usageWeight n) (curvatureSignature n) (fieldValue n)
     (parentId n) (childIds n) (linkStrengths n) (createdAt n) v.

Definition setStabilityWeight (v : Q) (n : t) : t :=
  mk (id n) (content n) (type n) (lengthWeight n) (charIndexWeight n)
     v (usageWeight n) (curvatureSignature n) (fieldValue n)
     (parentId n) (childIds n) (linkStrengths n) (createdAt n) (lastUsedAt n).

Definition setFieldValue (v : Q) (n : t) : t :=
  mk (id n) (content n) (type n) (lengthWeight n) (charIndexWeight n)
     (stabilityWeight n) (usageWeight n) (curvatureSignature n) v
     (parentId n) (childIds n) (linkStrengths n) (createdAt n) (lastUsedAt n).

Definition setParentId (v : option string) (n : t) : t :=
  mk (id n) (content n) (type n) (lengthWeight n) (charIndexWeight n)
     (stabilityWeight n) (usageWeight n) (curvatureSignature n) (fieldValue n)
     v (childIds n) (linkStrengths n) (createdAt n) (lastUsedAt n).

Definition setChildIds (v : list string) (n : t) : t :=
  mk (id n) (content n) (type n) (lengthWeight n) (charIndexWeight n)
     (stabilityWeight n) (usageWeight n) (curvatureSignature n) (fieldValue n)
     (parentId n) v (linkStrengths n) (createdAt n) (lastUsedAt n).

Definition setLinkStrengths (v : list (string * Q)) (n : t) : t :=
  mk (id n) (content n) (type n) (lengthWeight n) (charIndexWeight n)
     (stabilityWeight n) (usageWeight n) (curvatureSignature n) (fieldValue n)
     (parentId n) (childIds n) v (createdAt n) (lastUsedAt n).

(** What a dangling reference reads; the engine never makes one. *)
Definition null : t :=
  mk "" "" word 0%Q 0%Q 0%Q 0%Q 0%Q 0%Q None [] [] 0%N 0%N.
End Node.

Module Edge.
Record t : Type := mk {
  fromId : string;
  toId : string;
  strength : Q;
  curvature : Q;
  isSequential : bool
}.
End Edge.

Module Field.
Record t : Type := mk {
  u : Q;
  gradients : list Q;
  curvature : Q;
  stability : Q
}.
End Field.

Module Config.
Record t : Type := mk {
  nu : Q;
  lambda : Q;
  minLengthThreshold : Q;
  curvatureThreshold : Q;
  stabilityThreshold : Q
}.
End Config.

Module Candidate.
Record t : Type := mk {
  nodeIds : list string;
  content : string;
  score : Q;
  curvature : Q;
  isStable : bool
}.
End Candidate.

Module Memory.
Record t : Type := mk {
  prompt : string;
  response : string;
  timestamp : N
}.
End Memory.

(** A [Map<string, V>]: the entries in insertion order, keys distinct. *)
Module StrMap.
Section Ops.
Context {V : Type}.

Fixpoint get (k : string) (m : list (string * V)) : option V :=
  match m with
  | [] => None
  | (k', v) :: m' => if String.eqb k k' then Some v else get k m'
  end.

(** [set] on a key of the map replaces its value where it stands. *)
Fixpoint set (k : string) (v : V) (m : list (string * V))
  : list (string * V) :=
  match m with
  | [] => [(k, v)]
  | (k', v') :: m' =>
      if String.eqb k k' then (k, v) :: m' else (k', v') :: set k v m'
  end.

Definition values (m : list (string * V)) : list V := map snd m.
End Ops.
End StrMap.

(** A reference to a node object: its index in the heap. *)
Definition ref : Type := nat.

(** [l] with [f] applied to its element of index [i]. *)
Fixpoint updateAt {A} (i : nat) (f : A -> A) (l : list A) : list A :=
  match l, i with
  | [], _ => []
  | x :: l', O => f x :: l'
  | x :: l', S i' => x :: updateAt i' f l'
  end.

(** [l] with [f] applied to the first element that satisfies [p], as
    [l.find(p)] followed by a mutation of the object found. *)
Fixpoint updateFirst {A} (p : A -> bool) (f : A -> A) (l : list A) : list A :=
  match l with
  | [] => []
  | x :: l' => if p x then f x :: l' else x :: updateFirst p f l'
  end.

(** ** The state of a [MemoryStore] *)

Record Store : Type := mkStore {
  heap : list Node.t;
  nodes : list (string * ref);
  edges : list Edge.t;
  fieldState : Field.t;
  config : Config.t;
  stabilityHistory : list Q;
  (** how many times [Date.now()] has been called *)
  ticks : nat
}.

Definition setHeap (h : list Node.t) (s : Store) : Store :=
  mkStore h (nodes s) (edges s) (fieldState s) (config s)
          (stabilityHistory s) (ticks s).

Definition setNodes (m : list (string * ref)) (s : Store) : Store :=
  mkStore (heap s) m (edges s) (fieldState s) (config s)
          (stabilityHistory s) (ticks s).

Definition setEdges (es : list Edge.t) (s : Store) : Store :=
  mkStore (heap s) (nodes s) es (fieldState s) (config s)
          (stabilityHistory s) (ticks s).

Definition setFieldState (f : Field.t) (s : Store) : Store :=
  mkStore (heap s) (nodes s) (edges s) f (config s)
          (stabilityHistory s) (ticks s).

Definition setStabilityHistory (h : list Q) (s : Store) : Store :=
  mkStore (heap s) (nodes s) (edges s) (fieldState s) (config s) h (ticks s).

Definition setTicks (n : nat) (s : Store) : Store :=
  mkStore (heap s) (nodes s) (edges s) (fieldState s) (config s)
          (stabilityHistory s) n.

Definition deref (s : Store) (r : ref) : Node.t := nth r (heap s) Node.null.

(** A mutation of the node object [r]. *)
Definition updNode (r : ref) (f : Node.t -> Node.t) (s : Store) : Store :=
  setHeap (updateAt r f (heap s)) s.

Definition defaultConfig : Config.t :=
  Config.mk 0.1%Q 0.05%Q 0.1%Q 2.0%Q 0.3%Q.

Definition deadFieldState : Field.t := Field.mk 0%Q [] 0%Q 1.0%Q.

(** The store as its constructor leaves it when nothing was saved:
    the dead state. *)
Definition deadStore : Store :=
  mkStore [] [] [] deadFieldState defaultConfig [] 0.

Section Engine.

(** [Math.tanh], and the successive readings of [Date.now()]. *)
Variable tanh : Q -> Q.
Variable dateNow : nat -> N.

(** ** Module 2: the spectral weight engine ([SpectralWeightEngine.ts]) *)

Definition calculateLengthWeight (content : string) : Q :=
  Qmin (ofNat (String.length content) / 10) 1.0.

(** The loop of [calculateCharIndexWeight]. *)
Fixpoint charIndexSum (content : string) (sum : Q) : Q :=
  match content with
  | EmptyString => sum
  | String c r =>
      charIndexSum r (sum + inject_Z (Z.of_N (N_of_ascii c) mod 128) / 128)%Q
  end.

Definition calculateCharIndexWeight (content : string) : Q :=
  if String.length content =? 0 then 0%Q
  else (charIndexSum content 0 / ofNat (String.length content))%Q.

Definition calculateInitialStabilityWeight : Q := 1.0.
Definition calculateInitialUsageWeight : Q := 1.0.

(** [x | 0] and the result of [<<]: the integer wrapped to 32 bits, signed. *)
Definition toInt32 (z : Z) : Z := ((z + 2 ^ 31) mod 2 ^ 32 - 2 ^ 31)%Z.

(** The loop of [calculateCurvatureSignature]:
    [hash = ((hash << 5) - hash + content.charCodeAt(i)) | 0]. *)
Fixpoint hashLoop (content : string) (hash : Z) : Z :=
  match content with
  | EmptyString => hash
  | String c r =>
      hashLoop r
        (toInt32 (toInt32 (Z.shiftl hash 5) - hash + Z.of_N (N_of_ascii c)))
  end.

Definition calculateCurvatureSignature (content : string) : Q :=
  tanh (inject_Z (hashLoop content 0) / 1000000).

(** ** Module 1: the memory store ([MemoryStore.ts]) *)

(** One call of [Date.now()]. *)
Definition now (s : Store) : N * Store :=
  (dateNow (ticks s), setTicks (S (ticks s)) s).

Definition generateId (content : string) (type : NodeType) (time : N)
  : string :=
  (typeName type ++ "_" ++ JS.replaceWhitespace (JS.toLowerCase content)
   ++ "_" ++ NilZero.string_of_uint (N.to_uint time))%string.

(** [content.toLowerCase().trim()] *)
Definition normalize (content : string) : string :=
  JS.trim (JS.toLowerCase content).

Definition getNode (id : string) (s : Store) : option ref :=
  StrMap.get id (nodes s).

Definition getAllNodes (s : Store) : list ref := StrMap.values (nodes s).

Definition getPhraseNodes (s : Store) : list ref :=
  filter (fun r => NodeType_eqb (Node.type (deref s r)) phrase)
         (getAllNodes s).

Definition findNodeByContent (content : string) (s : Store) : option ref :=
  let normalized := normalize content in
  find (fun r => String.eqb (normalize (Node.content (deref s r))) normalized)
       (getAllNodes s).

(** The object literal of [createNode]. *)
Definition freshNode (content : string) (type : NodeType)
    (parentId : option string) (tId tCreated tUsed : N) (u : Q) : Node.t :=
  Node.mk (generateId content type tId) content type
    (calculateLengthWeight content)
    (calculateCharIndexWeight content)
    calculateInitialStabilityWeight
    calculateInitialUsageWeight
    (calculateCurvatureSignature content)
    u parentId [] [] tCreated tUsed.

(** [this.nodes.set(node.id, node)] for a new object. *)
Definition insertNode (node : Node.t) (s : Store) : ref * Store :=
  let r := List.length (heap s) in
  (r, setNodes (StrMap.set (Node.id node) r (nodes s))
               (setHeap (heap s ++ [node]) s)).

(** [if (parentId) { ... parent.childIds.push(node.id) }] *)
Definition linkToParent (parentId : option string) (childId : string)
    (s : Store) : Store :=
  match parentId with
  | Some pid =>
      if JS.truthy pid then
        match getNode pid s with
        | Some parent =>
            updNode parent
              (fun n => Node.setChildIds (Node.childIds n ++ [childId]) n) s
        | None => s
        end
      else s
  | None => s
  end.

(** [existing.usageWeight += 1; existing.lastUsedAt = Date.now()] *)
Definition touch (existing : ref) (s : Store) : Store :=
  let s1 :=
    updNode existing
      (fun n => Node.setUsageWeight (Node.usageWeight n + 1) n) s in
  let (t, s2) := now s1 in
  updNode existing (Node.setLastUsedAt t) s2.

Definition createNode (content : string) (type : NodeType)
    (parentId : option string) (s : Store) : ref * Store :=
  match findNodeByContent content s with
  | Some existing => (existing, touch existing s)
  | None =>
      let (tId, s1) := now s in
      let (tCreated, s2) := now s1 in
      let (tUsed, s3) := now s2 in
      let node :=
        freshNode content type parentId tId tCreated tUsed
                  (Field.u (fieldState s3)) in
      let (r, s4) := insertNode node s3 in
      (r, linkToParent parentId (Node.id node) s4)
  end.

(** [e => e.fromId === fromId && e.toId === toId] *)
Definition sameEnds (fromId toId : string) (e : Edge.t) : bool :=
  String.eqb (Edge.fromId e) fromId && String.eqb (Edge.toId e) toId.

(** [Math.abs(fromNode.curvatureSignature - toNode.curvatureSignature)] *)
Definition signatureGap (s : Store) (fromNode toNode : ref) : Q :=
  Qabs (Node.curvatureSignature (deref s fromNode)
        - Node.curvatureSignature (deref s toNode)).

Definition createEdge (fromId toId : string) (isSequential : bool)
    (s : Store) : Store :=
  match find (sameEnds fromId toId) (edges s) with
  | Some _ =>
      let strengthen e :=
        Edge.mk (Edge.fromId e) (Edge.toId e) (Edge.strength e + 0.1)
                (Edge.curvature e) (Edge.isSequential e) in
      let recurve e :=
        match getNode fromId s, getNode toId s with
        | Some fromNode, Some toNode =>
            Edge.mk (Edge.fromId e) (Edge.toId e) (Edge.strength e)
                    (signatureGap s fromNode toNode) (Edge.isSequential e)
        | _, _ => e
        end in
      setEdges
        (updateFirst (sameEnds fromId toId) (fun e => recurve (strengthen e))
                     (edges s)) s
  | None =>
      match getNode fromId s, getNode toId s with
      | Some fromNode, Some toNode =>
          let edge :=
            Edge.mk fromId toId 1.0 (signatureGap s fromNode toNode)
                    isSequential in
          let s1 := setEdges (edges s ++ [edge]) s in
          let s2 :=
            updNode fromNode
              (fun n =>
                 Node.setLinkStrengths
                   (StrMap.set toId (Edge.strength edge) (Node.linkStrengths n))
                   n) s1 in
          updNode toNode
            (fun n =>
               Node.setLinkStrengths
                 (StrMap.set fromId (Edge.strength edge) (Node.linkStrengths n))
                 n) s2
      | _, _ => s
      end
  end.

Definition getSequentialEdges (nodeId : string) (s : Store) : list Edge.t :=
  filter (fun e => String.eqb (Edge.fromId e) nodeId && Edge.isSequential e)
         (edges s).

(** [Set.add] *)
Definition setAdd (x : string) (set : list string) : list string :=
  if JS.has set x then set else set ++ [x].

Definition getNeighbors (nodeId : string) (s : Store) : list ref :=
  let es :=
    filter (fun e => String.eqb (Edge.fromId e) nodeId
                     || String.eqb (Edge.toId e) nodeId) (edges s) in
  let neighborIds :=
    fold_left
      (fun ids e =>
         let ids1 :=
           if String.eqb (Edge.fromId e) nodeId then setAdd (Edge.toId e) ids
           else ids in
         if String.eqb (Edge.toId e) nodeId then setAdd (Edge.fromId e) ids1
         else ids1)
      es [] in
  flat_map
    (fun id => match getNode id s with Some r => [r] | None => [] end)
    neighborIds.

Definition updateNodeFieldValue (nodeId : string) (fieldValue : Q)
    (s : Store) : Store :=
  match getNode nodeId s with
  | Some r => updNode r (Node.setFieldValue fieldValue) s
  | None => s
  end.

Definition updateFieldState (newState : Field.t) (s : Store) : Store :=
  let pushed := stabilityHistory s ++ [Field.stability newState] in
  setStabilityHistory
    (if 20 <? List.length pushed then JS.shift pushed else pushed)
    (setFieldState newState s).

Definition getFieldState (s : Store) : Field.t := fieldState s.
Definition getStabilityHistory (s : Store) : list Q := stabilityHistory s.
Definition getConfig (s : Store) : Config.t := config s.

(** [clear]: the node objects of the emptied [Map] are no longer reachable
    from the engine, so the heap is emptied with it. *)
Definition clear (s : Store) : Store :=
  mkStore [] [] [] deadFieldState (config s) [] (ticks s).

(** ** Module 3: the operator engine ([UQRCOperatorEngine.ts]) *)

(** The loop of [discreteDerivative]: [values[i + 1] - values[i]]. *)
Fixpoint differences (values : list Q) : list Q :=
  match values with
  | x :: ((y :: _) as rest) => (y - x)%Q :: differences rest
  | _ => []
  end.

Definition discreteDerivative (values : list Q) : list Q :=
  if List.length values <? 2 then [0%Q] else differences values.

Definition calculateCurvature (fieldValues : list Q) : Q :=
  if List.length fieldValues <? 3 then 0%Q
  else
    let d1 := discreteDerivative fieldValues in
    let d2 := discreteDerivative d1 in
    (fold_left (fun sum val => sum + Qabs val) d2 0
     / ofNat (Nat.max (List.length d2) 1))%Q.

Definition laplacianSmoothing (fieldValue : Q) (neighbors : list Q) : Q :=
  if List.length neighbors =? 0 then 0%Q
  else
    let avgNeighbor :=
      (sumBy (fun n => n) neighbors / ofNat (List.length neighbors))%Q in
    (avgNeighbor - fieldValue)%Q.

Definition curvatureInfluence (node : Node.t) (neighborCurvatures : list Q)
  : Q :=
  if List.length neighborCurvatures =? 0 then 0%Q
  else
    let avgCurvature :=
      (sumBy (fun c => c) neighborCurvatures
       / ofNat (List.length neighborCurvatures))%Q in
    (Node.curvatureSignature node * avgCurvature)%Q.

Definition linguisticStability (node : Node.t) : Q :=
  (Node.usageWeight node * Node.stabilityWeight node * 0.1)%Q.

Definition secondGradientStability (history : list Q) : Q :=
  if List.length history <? 3 then 0%Q
  else
    let d1 := discreteDerivative history in
    let d2 := discreteDerivative d1 in
    (fold_left (fun sum val => sum + val * val) d2 0
     / ofNat (Nat.max (List.length d2) 1))%Q.

Definition evolve (cfg : Config.t) (node : Node.t)
    (neighborFieldValues neighborCurvatures : list Q) : Q :=
  let laplacian :=
    laplacianSmoothing (Node.fieldValue node) neighborFieldValues in
  let ricci := curvatureInfluence node neighborCurvatures in
  let linguistic := linguisticStability node in
  (Config.nu cfg * laplacian + ricci + linguistic)%Q.

Definition updateField (cfg : Config.t) (currentState : Field.t)
    (node : Node.t) (neighborFieldValues neighborCurvatures : list Q)
    (history : list Q) : Field.t :=
  let evolution := evolve cfg node neighborFieldValues neighborCurvatures in
  let derivativeSum := sumBy (fun g => g) (Field.gradients currentState) in
  let secondGradient := secondGradientStability history in
  let newU :=
    (Field.u currentState + evolution + derivativeSum
     + Config.lambda cfg * secondGradient)%Q in
  let newGradients :=
    JS.sliceLast 10
      (Field.gradients currentState ++ [(newU - Field.u currentState)%Q]) in
  let newCurvature :=
    calculateCurvature
      (JS.mapi (fun _ i => ofNat i) (Field.gradients currentState)
       ++ [newU]) in
  let newStability := (1 / (1 + Qabs secondGradient))%Q in
  Field.mk newU newGradients newCurvature newStability.

Definition isCurvatureStable (cfg : Config.t) (curvature : Q) : bool :=
  Qltb (Qabs curvature) (Config.curvatureThreshold cfg).

(** [isStable] of the operator engine; the name is kept for the filter. *)
Definition isStabilityAcceptable (cfg : Config.t) (stability : Q) : bool :=
  Qltb (Config.stabilityThreshold cfg) stability.

(** ** Module 4: the geometric graph engine ([GeometricGraphEngine.ts]) *)

(** The character of code 34, the double quote. *)
Definition doubleQuote : ascii := ascii_of_nat 34.

Definition isPunctuation (c : ascii) : bool :=
  existsb (Ascii.eqb c)
    ["."; ","; "!"; "?"; ";"; ":"; "'"; doubleQuote; "("; ")"; "-"]%char.

Definition isAlphaNumeric (c : ascii) : bool :=
  let n := nat_of_ascii c in
  ((97 <=? n) && (n <=? 122)) || ((65 <=? n) && (n <=? 90))
  || ((48 <=? n) && (n <=? 57)).

Fixpoint allAlphaNumeric (s : string) : bool :=
  match s with
  | EmptyString => true
  | String c r => isAlphaNumeric c && allAlphaNumeric r
  end.

Definition isWord (token : string) : bool :=
  JS.truthy token && allAlphaNumeric token.

(** [if (current) { tokens.push(current) }] *)
Definition pushCurrent (tokens : list string) (current : string)
  : list string :=
  if JS.truthy current then tokens ++ [current] else tokens.

(** The loop of [tokenize] over the characters of the text. *)
Fixpoint tokenizeLoop (text : string) (tokens : list string)
    (current : string) : list string :=
  match text with
  | EmptyString => pushCurrent tokens current
  | String char rest =>
      if isPunctuation char then
        tokenizeLoop rest (pushCurrent tokens current ++ [String char ""]) ""
      else if Ascii.eqb char " " then
        tokenizeLoop rest (pushCurrent tokens current) ""
      else tokenizeLoop rest tokens (current ++ String char "")%string
  end.

Definition tokenize (text : string) : list string := tokenizeLoop text [] "".

(** [newPhrase.parentId = existing.id;
    existing.childIds.push(newPhrase.id);
    this.store.createEdge(existing.id, newPhrase.id, false)] *)
Definition adopt (newPhrase existing : ref) (s : Store) : Store :=
  let newId := Node.id (deref s newPhrase) in
  let existingId := Node.id (deref s existing) in
  let s1 := updNode newPhrase (Node.setParentId (Some existingId)) s in
  let s2 :=
    updNode existing
      (fun n => Node.setChildIds (Node.childIds n ++ [newId]) n) s1 in
  createEdge existingId newId false s2.

(** [existing.childIds.push(newPhrase.id);
    newPhrase.parentId = existing.id;
    this.store.createEdge(existing.id, newPhrase.id, false)] *)
Definition beAdopted (newPhrase existing : ref) (s : Store) : Store :=
  let newId := Node.id (deref s newPhrase) in
  let existingId := Node.id (deref s existing) in
  let s1 :=
    updNode existing
      (fun n => Node.setChildIds (Node.childIds n ++ [newId]) n) s in
  let s2 := updNode newPhrase (Node.setParentId (Some existingId)) s1 in
  createEdge existingId newId false s2.

(** [node.parentId] as a condition: neither [null] nor the empty
    string. *)
Definition parentTruthy (n : Node.t) : bool :=
  match Node.parentId n with
  | Some p => JS.truthy p
  | None => false
  end.

(** The first test of the loop: the new phrase contains the existing
    one. *)
Definition adoptContained (newPhrase : ref) (content : string)
    (existing : ref) (existingContent : string) (s : Store) : Store :=
  if JS.includes content existingContent
     && negb (String.eqb content existingContent)
  then
    if negb (parentTruthy (deref s newPhrase)) then
      (* [newPhrase.parentId || ''] is [''] here *)
      match getNode "" s with
      | None => adopt newPhrase existing s
      | Some currentParent =>
          if String.length (Node.content (deref s currentParent))
             <? String.length existingContent
          then adopt newPhrase existing s
          else s
      end
    else s
  else s.

(** The second test of the loop: the existing phrase contains the new
    one. *)
Definition joinContaining (newPhrase : ref) (content : string)
    (existing : ref) (existingContent : string) (s : Store) : Store :=
  if JS.includes existingContent content
     && negb (String.eqb content existingContent)
  then
    if negb (JS.has (Node.childIds (deref s existing))
                    (Node.id (deref s newPhrase)))
    then beAdopted newPhrase existing s
    else s
  else s.

(** One round of the loop of [establishParenthood], for the phrase
    [existing]. *)
Definition parenthoodStep (newPhrase : ref) (content : string)
    (existing : ref) (s : Store) : Store :=
  if String.eqb (Node.id (deref s existing)) (Node.id (deref s newPhrase))
  then s
  else
    let existingContent := JS.toLowerCase (Node.content (deref s existing)) in
    joinContaining newPhrase content existing existingContent
      (adoptContained newPhrase content existing existingContent s).

Definition establishParenthood (newPhrase : ref) (s : Store) : Store :=
  let allPhrases := getPhraseNodes s in
  let content := JS.toLowerCase (Node.content (deref s newPhrase)) in
  fold_left (fun st existing => parenthoodStep newPhrase content existing st)
            allPhrases s.

(** The loop of [processInput] over the tokens; [created] is
    [createdNodes]. *)
Fixpoint processTokens (tokens : list string) (phraseNode : ref)
    (previousWordNode : option ref) (created : list ref) (s : Store)
  : list ref * Store :=
  match tokens with
  | [] => (created, s)
  | token :: rest =>
      let type := if isWord token then word else punctuation in
      let (wordNode, s1) := createNode token type None s in
      let s2 :=
        createEdge (Node.id (deref s1 phraseNode))
                   (Node.id (deref s1 wordNode)) false s1 in
      let s3 :=
        match previousWordNode with
        | Some previous =>
            createEdge (Node.id (deref s2 previous))
                       (Node.id (deref s2 wordNode)) true s2
        | None => s2
        end in
      processTokens rest phraseNode (Some wordNode) (created ++ [wordNode]) s3
  end.

Definition processInput (input : string) (s : Store) : list ref * Store :=
  let trimmed := JS.trim input in
  if negb (JS.truthy trimmed) then ([], s)
  else
    let (phraseNode, s1) := createNode trimmed phrase None s in
    let tokens := tokenize trimmed in
    let (created, s2) :=
      processTokens tokens phraseNode None [phraseNode] s1 in
    (created, establishParenthood phraseNode s2).

(** [nodes.find(n => n.type === 'phrase')] *)
Definition findPhrase (s : Store) (l : list ref) : option ref :=
  find (fun r => NodeType_eqb (Node.type (deref s r)) phrase) l.

Definition processTrainingPair (prompt response : string) (s : Store)
  : Store :=
  let (promptNodes, s1) := processInput prompt s in
  let (responseNodes, s2) := processInput response s1 in
  if (0 <? List.length promptNodes) && (0 <? List.length responseNodes) then
    match findPhrase s2 promptNodes, findPhrase s2 responseNodes with
    | Some promptPhrase, Some responsePhrase =>
        createEdge (Node.id (deref s2 promptPhrase))
                   (Node.id (deref s2 responsePhrase)) true s2
    | _, _ => s2
    end
  else s2.

(** The comparator of [getStrongestLink]. *)
Definition linkOrder (fromNodeId : string) (s : Store) (a b : Edge.t) : Q :=
  match getNode (Edge.toId a) s, getNode (Edge.toId b) s with
  | Some ra, Some rb =>
      let nodeA := deref s ra in
      let nodeB := deref s rb in
      let bonus n :=
        match Node.parentId n with
        | Some p => if String.eqb p fromNodeId then 0%Q else 0.5%Q
        | None => 0.5%Q
        end in
      let scoreA :=
        (Edge.strength a + bonus nodeA + Node.stabilityWeight nodeA * 0.2)%Q in
      let scoreB :=
        (Edge.strength b + bonus nodeB + Node.stabilityWeight nodeB * 0.2)%Q in
      (scoreB - scoreA)%Q
  | _, _ => (Edge.strength b - Edge.strength a)%Q
  end.

Definition getStrongestLink (fromNodeId : string) (s : Store) : option ref :=
  match JS.sort (linkOrder fromNodeId s) (getSequentialEdges fromNodeId s) with
  | [] => None
  | e :: _ => getNode (Edge.toId e) s
  end.

(** The score that the loop of [findMatchingPhrases] gives to one phrase,
    or nothing when the phrase is not pushed. *)
Definition matchScore (normalized : string) (phraseNode : Node.t)
  : option Q :=
  let phraseContent := JS.toLowerCase (Node.content phraseNode) in
  if String.eqb phraseContent normalized then Some 1.0%Q
  else if JS.includes phraseContent normalized
          || JS.includes normalized phraseContent
  then
    Some (ofNat (Nat.min (String.length phraseContent)
                         (String.length normalized))
          / ofNat (Nat.max (String.length phraseContent)
                           (String.length normalized)))%Q
  else
    let inputWords := JS.distinct [] (JS.splitWhitespace normalized) in
    let phraseWords :=
      JS.splitWhitespace (JS.toLowerCase (Node.content phraseNode)) in
    let wordMatches :=
      fold_left (fun n w => if JS.has inputWords w then S n else n)
                phraseWords 0 in
    if 0 <? wordMatches then
      let score :=
        (ofNat wordMatches
         / ofNat (Nat.max (List.length inputWords) (List.length phraseWords)))%Q
      in Some (score * 0.5)%Q
    else None.

(** The loop of [findMatchingPhrases] over the phrases of the store. *)
Definition collectMatches (normalized : string) (s : Store)
  : list (ref * Q) :=
  fold_left
    (fun matches r =>
       match matchScore normalized (deref s r) with
       | Some score => matches ++ [(r, score)]
       | None => matches
       end)
    (getPhraseNodes s) [].

Definition findMatchingPhrases (input : string) (s : Store) : list ref :=
  let normalized := JS.trim (JS.toLowerCase input) in
  map fst
    (JS.sort (fun a b => (snd b - snd a)%Q) (collectMatches normalized s)).

(** ** Module 6: the stability filter ([StabilityFilter.ts]) *)

Definition passesCurvatureCheck (s : Store) (curvature : Q) : bool :=
  Qltb (Qabs curvature) (Config.curvatureThreshold (getConfig s)).

Definition passesMinimalLengthCheck (candidate : Candidate.t) : bool :=
  (0 <? String.length (Candidate.content candidate))
  && (0 <? List.length (Candidate.nodeIds candidate)).

Fixpoint passesParentDominanceCheck (s : Store) (nodeIds : list string)
  : bool :=
  match nodeIds with
  | [] => true
  | nodeId :: rest =>
      match getNode nodeId s with
      | None => passesParentDominanceCheck s rest
      | Some r =>
          let node := deref s r in
          if parentTruthy node then
            match
              match Node.parentId node with
              | Some p => getNode p s
              | None => None
              end
            with
            | Some pr =>
                if Qltb (Node.stabilityWeight node * 1.5)
                        (Node.stabilityWeight (deref s pr))
                then
                  if NodeType_eqb (Node.type node) phrase
                  then passesParentDominanceCheck s rest
                  else passesParentDominanceCheck s rest
                else passesParentDominanceCheck s rest
            | None => passesParentDominanceCheck s rest
            end
          else passesParentDominanceCheck s rest
      end
  end.

Definition passesStabilityThreshold (s : Store) (score : Q) : bool :=
  Qltb (Config.stabilityThreshold (getConfig s)) score.

Definition isStable (s : Store) (candidate : Candidate.t) : bool :=
  if negb (passesCurvatureCheck s (Candidate.curvature candidate)) then false
  else if negb (passesMinimalLengthCheck candidate) then false
  else if negb (passesParentDominanceCheck s (Candidate.nodeIds candidate))
  then false
  else if negb (passesStabilityThreshold s (Candidate.score candidate))
  then false
  else true.

(** [current.parentId ? this.store.getNode(current.parentId) : undefined] *)
Definition parentOf (s : Store) (current : ref) : option ref :=
  match Node.parentId (deref s current) with
  | Some p => if JS.truthy p then getNode p s else None
  | None => None
  end.

(** The [while (current)] loop of [getFallbackResponse].  It runs for as
    long as parents resolve; [None] is a walk that is still running when
    the fuel is spent. *)
Fixpoint climb (fuel : nat) (s : Store) (current : ref)
    (best : option ref * Q) : option (option ref * Q) :=
  match fuel with
  | O => None
  | S fuel' =>
      let best' :=
        if Qltb (snd best) (Node.stabilityWeight (deref s current))
        then (Some current, Node.stabilityWeight (deref s current))
        else best in
      match parentOf s current with
      | Some parent => climb fuel' s parent best'
      | None => Some best'
      end
  end.

(** The [for] loop of [getFallbackResponse] over the matched nodes. *)
Fixpoint climbAll (fuel : nat) (s : Store) (matched : list ref)
    (best : option ref * Q) : option (option ref * Q) :=
  match matched with
  | [] => Some best
  | node :: rest =>
      match climb fuel s node best with
      | Some best' => climbAll fuel s rest best'
      | None => None
      end
  end.

(** The outer [option] is termination, the inner one is [null]. *)
Definition getFallbackResponse (fuel : nat) (s : Store)
    (matchedNodes : list ref) : option (option Candidate.t) :=
  if List.length matchedNodes =? 0 then Some None
  else
    match climbAll fuel s matchedNodes (None, 0%Q) with
    | None => None
    | Some (Some bestNode, bestStability) =>
        Some (Some (Candidate.mk [Node.id (deref s bestNode)]
                      (Node.content (deref s bestNode)) bestStability
                      (Node.curvatureSignature (deref s bestNode)) true))
    | Some (None, _) => Some None
    end.

(** [24 * 60 * 60 * 1000] *)
Definition dayInMs : Q := 24 * 60 * 60 * 1000.

(** [usageScore < 0.1]; a division by zero gives an infinity of the sign
    of the usage, or NaN. *)
Definition lowUsage (currentTime : N) (node : Node.t) : bool :=
  let age := ((ofN currentTime - ofN (Node.createdAt node)) / dayInMs)%Q in
  if Qeq_bool (age + 1) 0 then Qltb (Node.usageWeight node) 0
  else Qltb (Node.usageWeight node / (age + 1)) 0.1.

Definition getUnstableNodes (s : Store) : list ref * Store :=
  let (currentTime, s1) := now s in
  (filter
     (fun r =>
        lowUsage currentTime (deref s1 r)
        && Qltb (Node.stabilityWeight (deref s1 r)) 0.5)
     (getAllNodes s1),
   s1).

(** ** Module 5: the response selector ([ResponseSelector.ts]) *)

Definition calculateScore (s : Store) (response matched : ref) : Q :=
  let es := getSequentialEdges (Node.id (deref s matched)) s in
  let linkStrength :=
    match
      find (fun e => String.eqb (Edge.toId e) (Node.id (deref s response))) es
    with
    | Some e => Edge.strength e
    | None => 0%Q
    end in
  let stabilityBonus := (Node.stabilityWeight (deref s response) * 0.3)%Q in
  let usageBonus := Qmin (Node.usageWeight (deref s response) * 0.1) 0.3 in
  let curvaturePenalty :=
    (Qabs (Node.curvatureSignature (deref s response)) * 0.1)%Q in
  (linkStrength + stabilityBonus + usageBonus - curvaturePenalty)%Q.

(** The loop of [calculateChainScore]. *)
Fixpoint chainScoreLoop (s : Store) (chain : list ref) (i : nat)
    (totalScore : Q) : Q :=
  match chain with
  | [] => totalScore
  | r :: rest =>
      let positionWeight := (1 - ofNat i * 0.2)%Q in
      chainScoreLoop s rest (S i)
        (totalScore
         + Node.stabilityWeight (deref s r) * positionWeight
           * Node.usageWeight (deref s r))%Q
  end.

Definition calculateChainScore (s : Store) (chain : list ref) : Q :=
  if List.length chain =? 0 then 0%Q
  else (chainScoreLoop s chain 0 0 / ofNat (List.length chain))%Q.

(** The loop of [buildChain]; [steps] is what is left of [maxLength]. *)
Fixpoint buildChainLoop (s : Store) (steps : nat) (currentId : string)
    (visited : list string) (chain : list ref) : list ref :=
  match steps with
  | O => chain
  | S steps' =>
      if JS.has visited currentId then chain
      else
        match getStrongestLink currentId s with
        | Some next =>
            if NodeType_eqb (Node.type (deref s next)) phrase then
              buildChainLoop s steps' (Node.id (deref s next))
                             (setAdd currentId visited) (chain ++ [next])
            else chain
        | None => chain
        end
  end.

Definition buildChain (s : Store) (startId : string) (maxLength : nat)
  : list ref :=
  buildChainLoop s maxLength startId [] [].

(** One round of the loop of [buildCandidates], for one matched
    phrase. *)
Definition candidatesOf (s : Store) (matched : ref) : list Candidate.t :=
  let matchId := Node.id (deref s matched) in
  let direct :=
    match getStrongestLink matchId s with
    | Some nextPhrase =>
        [Candidate.mk [Node.id (deref s nextPhrase)]
           (Node.content (deref s nextPhrase))
           (calculateScore s nextPhrase matched)
           (Node.curvatureSignature (deref s nextPhrase)) true]
    | None => []
    end in
  let chain := buildChain s matchId 3 in
  let chained :=
    if 0 <? List.length chain then
      let chainContent :=
        JS.join " " (map (fun r => Node.content (deref s r)) chain) in
      let avgCurvature :=
        (sumBy (fun r => Node.curvatureSignature (deref s r)) chain
         / ofNat (List.length chain))%Q in
      [Candidate.mk (map (fun r => Node.id (deref s r)) chain) chainContent
         (calculateChainScore s chain) avgCurvature true]
    else [] in
  direct ++ chained.

Definition buildCandidates (s : Store) (matches : list ref)
  : list Candidate.t :=
  flat_map (candidatesOf s) matches.

Definition constructFromWords (s : Store) (input : string) : option string :=
  let inputWords := JS.splitWhitespace (JS.toLowerCase input) in
  let knownWords :=
    flat_map
      (fun w =>
         match findNodeByContent w s with
         | Some wordNode => [Node.content (deref s wordNode)]
         | None => []
         end)
      inputWords in
  if List.length knownWords =? 0 then None
  else Some (JS.join " " knownWords).

(** [None] is a call that does not return (the walk of the fallback does
    not end); the store is only read. *)
Definition generateResponse (fuel : nat) (input : string) (s : Store)
  : option string :=
  if List.length (getAllNodes s) =? 0 then Some input
  else
    let matches := findMatchingPhrases input s in
    if List.length matches =? 0 then
      match constructFromWords s input with
      | Some w => if JS.truthy w then Some w else Some input
      | None => Some input
      end
    else
      let candidates := buildCandidates s matches in
      let stableCandidates := filter (isStable s) candidates in
      match
        JS.sort (fun a b => (Candidate.score b - Candidate.score a)%Q)
                stableCandidates
      with
      | best :: _ => Some (Candidate.content best)
      | [] =>
          match getFallbackResponse fuel s matches with
          | None => None
          | Some (Some fallback) => Some (Candidate.content fallback)
          | Some None => Some input
          end
      end.

(** ** The facade ([UQRC_LLM.ts]) *)

Record LLM : Type := mkLLM {
  store : Store;
  trainingLog : list Memory.t
}.

(** The engine as its constructor leaves it when nothing was saved. *)
Definition deadLLM : LLM := mkLLM deadStore [].

(** One round of the loop of [evolveField]; [currentState] and [history]
    were read before the loop. *)
Definition evolveStep (currentState : Field.t) (history : list Q)
    (s : Store) (node : ref) : Store :=
  let neighbors := getNeighbors (Node.id (deref s node)) s in
  let neighborFieldValues :=
    map (fun n => Node.fieldValue (deref s n)) neighbors in
  let neighborCurvatures :=
    map (fun n => Node.curvatureSignature (deref s n)) neighbors in
  let newState :=
    updateField (getConfig s) currentState (deref s node)
                neighborFieldValues neighborCurvatures history in
  let s1 := updateFieldState newState s in
  updateNodeFieldValue (Node.id (deref s1 node)) (Field.u newState) s1.

Definition evolveField (input : string) (s : Store) : Store :=
  let (created, s1) := processInput input s in
  if List.length created =? 0 then s1
  else
    let currentState := getFieldState s1 in
    let history := getStabilityHistory s1 in
    fold_left (evolveStep currentState history) created s1.

(** One round of the loop of [reinforceNodes]. *)
Definition reinforce (s : Store) (node : ref) : Store :=
  match getNode (Node.id (deref s node)) s with
  | Some updated =>
      let s1 :=
        updNode updated
          (fun n =>
             Node.setStabilityWeight (Qmin (Node.stabilityWeight n + 0.1) 2.0)
                                     n) s in
      updNode updated
        (fun n => Node.setUsageWeight (Node.usageWeight n + 0.5) n) s1
  | None => s
  end.

Definition reinforceNodes (prompt response : string) (s : Store) : Store :=
  let promptPhrases := findMatchingPhrases prompt s in
  let responsePhrases := findMatchingPhrases response s in
  fold_left reinforce (promptPhrases ++ responsePhrases) s.

(** [respond]: what is returned ([None] when the call does not return) and
    the engine after the call. *)
Definition respond (fuel : nat) (prompt : string) (w : LLM)
  : option string * LLM :=
  let (_, s1) := processInput prompt (store w) in
  let s2 := evolveField prompt s1 in
  (generateResponse fuel prompt s2, mkLLM s2 (trainingLog w)).

Definition learnFrom (prompt response : string) (w : LLM) : LLM :=
  let s1 := processTrainingPair prompt response (store w) in
  let s2 := evolveField prompt s1 in
  let s3 := evolveField response s2 in
  let s4 := reinforceNodes prompt response s3 in
  let (time, s5) := now s4 in
  let pushed := trainingLog w ++ [Memory.mk prompt response time] in
  mkLLM s5 (if 100 <? List.length pushed then JS.shift pushed else pushed).

Definition clearMemory (w : LLM) : LLM := mkLLM (clear (store w)) [].

(** The engines that the public operations reach from the dead state.  A
    call of [respond] that does not return leaves no engine to call, so
    this set contains every engine that a run of the program reaches. *)
Inductive reachable : LLM -> Prop :=
  | reach_dead : reachable deadLLM
  | reach_respond fuel prompt w :
      reachable w -> reachable (snd (respond fuel prompt w))
  | reach_learnFrom prompt response w :
      reachable w -> reachable (learnFrom prompt response w)
  | reach_clearMemory w :
      reachable w -> reachable (clearMemory w).

End Engine.

(** A bounded sigmoid and a clock that stands still, to run the engine on
    concrete inputs. *)
Definition squash (x : Q) : Q := (x / (1 + Qabs x))%Q.
Definition frozenClock (_ : nat) : N := 1700000000000%N.

(** ** Engines and stores to run the code on *)

(** The engine after [respond("hi")] on the dead state. *)
Definition hiEngine : LLM :=
  snd (respond squash frozenClock 1 "hi" deadLLM).

(** The engine after [respond("abc")] and then [respond("ab")]. *)
Definition abcEngine : LLM :=
  snd (respond squash frozenClock 1 "abc" deadLLM).

Definition nestedEngine : LLM :=
  snd (respond squash frozenClock 1 "ab" abcEngine).

(** The engine after [respond("ab")] and then [respond("abc")]. *)
Definition abThenAbc : LLM :=
  snd (respond squash frozenClock 1 "abc"
         (snd (respond squash frozenClock 1 "ab" deadLLM))).

(** A store with the nodes "a" and "b", linked once by [createEdge]. *)
Definition twoNodes : Store :=
  snd (createNode squash frozenClock "b" word None
         (snd (createNode squash frozenClock "a" word None deadStore))).

Definition idOfA : string := Node.id (deref twoNodes 0).
Definition idOfB : string := Node.id (deref twoNodes 1).

Definition linkedOnce : Store := createEdge idOfA idOfB true twoNodes.
Definition linkedTwice : Store := createEdge idOfA idOfB true linkedOnce.

(** ** The formulas of the specification

    What the specification says in words about [updateField] and
    [findMatchingPhrases], to be compared with the code. *)

Module Spec.

(** The sum of a list. *)
Definition total (l : list Q) : Q := fold_right Qplus 0%Q l.

(** The last [n] elements of a list. *)
Definition lastN {A} (n : nat) (l : list A) : list A :=
  rev (firstn n (rev l)).

(** The sequence [0, 1, ..., n-1]. *)
Definition ramp (n : nat) : list Q := map ofNat (seq 0 n).

(** How many words of the phrase are words of the input. *)
Definition sharedWords (inputWords phraseWords : list string) : nat :=
  List.length
    (filter (fun w => existsb (String.eqb w) inputWords) phraseWords).

Definition distinctWords (ws : list string) : nat :=
  List.length (nodup string_dec ws).

Definition contained (a b : string) : bool :=
  JS.includes a b || JS.includes b a.

(** The score of a phrase for a normalized input. *)
Definition phraseScore (normalized phraseContent : string) : Q :=
  if String.eqb phraseContent normalized then 1.0%Q
  else if contained phraseContent normalized then
    (ofNat (Nat.min (String.length phraseContent) (String.length normalized))
     / ofNat (Nat.max (String.length phraseContent)
                      (String.length normalized)))%Q
  else
    let inputWords := JS.splitWhitespace normalized in
    let phraseWords := JS.splitWhitespace phraseContent in
    (ofNat (sharedWords inputWords phraseWords)
     / ofNat (Nat.max (distinctWords inputWords) (List.length phraseWords))
     * 0.5)%Q.

(** A phrase that matches exactly or by containment. *)
Definition matchesWhole (normalized phraseContent : string) : bool :=
  String.eqb phraseContent normalized || contained phraseContent normalized.

End Spec.

(** ** Invariants and auxiliary notions *)

(** What a node satisfies when a mutation leaves its stability weight. *)
Definition keepsStability (f : Node.t -> Node.t) : Prop :=
  forall n, Node.stabilityWeight (f n) = Node.stabilityWeight n.

(** A stability weight between 1 and 2. *)
Definition weightInRange (n : Node.t) : Prop :=
  (1 <= Node.stabilityWeight n)%Q /\ (Node.stabilityWeight n <= 2)%Q.

(** The invariant of the stores that the engine builds: every node object
    has its stability weight in [[1, 2]], the references of the [Map] are
    allocated, and the two histories of the field are bounded. *)
Record sane (s : Store) : Prop := mkSane {
  sane_weights : Forall weightInRange (heap s);
  sane_refs : Forall (fun kr => snd kr < List.length (heap s)) (nodes s);
  sane_gradients : List.length (Field.gradients (fieldState s)) <= 10;
  sane_history : List.length (stabilityHistory s) <= 20
}.

(** The references held by the [Map] point into the heap. *)
Definition allocated (s : Store) : Prop :=
  Forall (fun kr => snd kr < List.length (heap s)) (nodes s).

(** A mutation that leaves the content of a node. *)
Definition keepsContent (f : Node.t -> Node.t) : Prop :=
  forall n, Node.content (f n) = Node.content n.

Section Created.

Variable tanh : Q -> Q.
Variable dateNow : nat -> N.

(** What [createNode] does when no node has the content. *)
Definition created (content : string) (type : NodeType)
    (parentId : option string) (s : Store) : Node.t :=
  freshNode tanh content type parentId (dateNow (ticks s))
    (dateNow (S (ticks s))) (dateNow (S (S (ticks s))))
    (Field.u (fieldState s)).

End Created.

(** A string that does not start with white space. *)
Definition startsClean (s : string) : Prop :=
  match s with
  | EmptyString => True
  | String c _ => JS.isSpace c = false
  end.

(** The sum of the lengths of the strings of a list. *)
Definition totalLength (l : list string) : nat :=
  fold_right (fun s n => String.length s + n) 0 l.

(** The attributes of a node that no operation but [establishParenthood]
    and [reinforceNodes] changes. *)
Definition core (n : Node.t)
  : string * string * NodeType * option string * Q :=
  (Node.id n, Node.content n, Node.type n, Node.parentId n,
   Node.stabilityWeight n).

(** A mutation that leaves the [core] of a node. *)
Definition benign (f : Node.t -> Node.t) : Prop :=
  forall n, core (f n) = core n.

(** An edge that is not sequential if it leaves the node [pid]. *)
Definition harmless (pid : string) (e : Edge.t) : Prop :=
  Edge.fromId e = pid -> Edge.isSequential e = false.

(** The store holds the phrase node [pid] of content [t] at the reference
    0, and nothing else that could answer. *)
Record solo (pid t : string) (s : Store) : Prop := mkSolo {
  solo_pid : forall c ty time, ty <> phrase -> generateId c ty time <> pid;
  solo_named : pid <> "";
  solo_map :
    exists rest,
      nodes s = (pid, 0) :: rest
      /\ Forall (fun kr => fst kr <> pid /\ snd kr <> 0) rest;
  solo_phrase :
    core (deref s 0) = (pid, t, phrase, None, calculateInitialStabilityWeight);
  solo_others :
    forall r, r <> 0 ->
      Node.type (deref s r) <> phrase /\ Node.id (deref s r) <> pid;
  solo_edges : Forall (harmless pid) (edges s);
  solo_heap : heap s <> []
}.

(** A store without node objects, nodes or edges, as the dead state
    has it. *)
Definition blank (s : Store) : Prop :=
  heap s = [] /\ nodes s = [] /\ edges s = [].

(** The phrases that [findMatchingPhrases] keeps: those that match the
    whole input or have a positive score. *)
Definition kept (normalized phraseContent : string) : bool :=
  Spec.matchesWhole normalized phraseContent
  || Qltb 0 (Spec.phraseScore normalized phraseContent).

(** The attributes of a node that tell where it hangs. *)
Definition kin (n : Node.t) : string * NodeType * option string :=
  (Node.id n, Node.type n, Node.parentId n).

(** A mutation that leaves the [kin] of a node. *)
Definition mild (f : Node.t -> Node.t) : Prop := forall n, kin (f n) = kin n.

(** The parent reference of [n], when there is one, is the identifier of a
    node of the store, of type [phrase]. *)
Definition parentResolves (s : Store) (n : Node.t) : Prop :=
  forall p,
    Node.parentId n = Some p -> JS.truthy p = true ->
    exists parent, getNode p s = Some parent
                   /\ Node.type (deref s parent) = phrase.

(** The keys of the [Map] are the identifiers of its nodes, made by
    [generateId] from the type of the node. *)
Definition named (s : Store) : Prop :=
  forall k r,
    In (k, r) (nodes s) ->
    Node.id (deref s r) = k
    /\ exists c t, k = generateId c (Node.type (deref s r)) t.

(** The invariant of the parent references. *)
Record rooted (s : Store) : Prop := mkRooted {
  rooted_refs : allocated s;
  rooted_names : named s;
  rooted_parents : forall r, parentResolves s (deref s r)
}.

(** [st] has the [Map] of [s0] and nodes of the same types. *)
Definition sameShape (s0 st : Store) : Prop :=
  nodes st = nodes s0
  /\ forall r, Node.type (deref st r) = Node.type (deref s0 r).

(** A node of the store, of type [phrase]. *)
Definition phraseInMap (s : Store) (r : ref) : Prop :=
  In r (getAllNodes s) /\ Node.type (deref s r) = phrase.

(** The engine after [respond("Hi")] and then [respond("say hi")]. *)
Definition sayHiEngine : LLM :=
  snd (respond squash frozenClock 1 "say hi"
         (snd (respond squash frozenClock 1 "Hi" deadLLM))).

(** ** More of the engine

    The functions of the same files that the properties above do not
    use. *)

(** [getEdgesFrom] of the store. *)
Definition getEdgesFrom (nodeId : string) (s : Store) : list Edge.t :=
  filter (fun e => String.eqb (Edge.fromId e) nodeId) (edges s).

(** [computeTotalWeight] of the spectral weight engine. *)
Definition computeTotalWeight
    (lengthWeight charIndexWeight stabilityWeight usageWeight : Q) : Q :=
  (lengthWeight * 0.2 + charIndexWeight * 0.1 + stabilityWeight * 0.4
   + usageWeight * 0.3)%Q.

Module Stats.
Record t : Type := mk {
  totalNodes : nat;
  phraseNodes : nat;
  wordNodes : nat;
  totalEdges : nat;
  fieldValue : Q;
  curvature : Q;
  stability : Q
}.
End Stats.

(** [getStats] of the store. *)
Definition getStats (s : Store) : Stats.t :=
  Stats.mk (List.length (nodes s))
    (List.length (getPhraseNodes s))
    (List.length
       (filter (fun r => NodeType_eqb (Node.type (deref s r)) word)
               (getAllNodes s)))
    (List.length (edges s))
    (Field.u (fieldState s))
    (Field.curvature (fieldState s))
    (Field.stability (fieldState s)).

(** [getPhase] of the facade. *)
Definition getPhase (w : LLM) : string :=
  let stats := getStats (store w) in
  if Stats.totalNodes stats =? 0 then "A - Dead State"
  else if Stats.phraseNodes stats <? 5 then "B - Node Creation"
  else if Stats.totalEdges stats <? 10 then "C - Neighborhood Growth"
  else if Qltb 0.7 (Stats.stability stats) then "D - Field Evolution"
  else if 20 <? Stats.phraseNodes stats then "E - Response Loop"
  else "F - Multi-Phrase Chain".

(** [getMemories] of the facade: the training log, the latest entry
    first. *)
Definition getMemories (w : LLM) : list Memory.t := rev (trainingLog w).

(** [tag] of the facade. *)
Definition tag (text : string) : list string :=
  filter (fun w => 3 <? String.length w)
         (JS.splitWhitespace (JS.toLowerCase text)).

(** The [while (current && current.parentId)] loop of [getParentChain];
    [None] is a walk that is still running when the fuel is spent. *)
Fixpoint parentChainLoop (fuel : nat) (s : Store) (current : ref)
    (chain : list ref) : option (list ref) :=
  match fuel with
  | O => None
  | S fuel' =>
      if parentTruthy (deref s current) then
        match parentOf s current with
        | Some parent => parentChainLoop fuel' s parent (chain ++ [parent])
        | None => Some chain
        end
      else Some chain
  end.

Definition getParentChain (fuel : nat) (nodeId : string) (s : Store)
  : option (list ref) :=
  match getNode nodeId s with
  | Some current => parentChainLoop fuel s current []
  | None => Some []
  end.

(** [dominates]: [parentChain.some(p => p.id === nodeAId)]. *)
Definition dominates (fuel : nat) (nodeAId nodeBId : string) (s : Store)
  : option bool :=
  match getParentChain fuel nodeBId s with
  | Some chain =>
      Some (existsb (fun p => String.eqb (Node.id (deref s p)) nodeAId) chain)
  | None => None
  end.

(** ** Notions for the further properties *)

(** The polynomial hash [h * 31 + code] over the integers. *)
Fixpoint polyHash (content : string) (hash : Z) : Z :=
  match content with
  | EmptyString => hash
  | String c r => polyHash r (hash * 31 + Z.of_N (N_of_ascii c))%Z
  end.

(** The strings of a list, one after the other. *)
Definition joinAll (l : list string) : string :=
  fold_right String.append EmptyString l.

(** A text without its spaces. *)
Fixpoint dropSpaces (s : string) : string :=
  match s with
  | EmptyString => EmptyString
  | String c r =>
      if Ascii.eqb c " " then dropSpaces r else String c (dropSpaces r)
  end.

(** Every character of the string satisfies [p]. *)
Fixpoint allChars (p : ascii -> bool) (s : string) : bool :=
  match s with
  | EmptyString => true
  | String c r => p c && allChars p r
  end.

(** A token: one punctuation character, or a run without punctuation and
    without space. *)
Definition tokenShaped (t : string) : Prop :=
  t <> EmptyString
  /\ ((exists c, isPunctuation c = true /\ t = String c EmptyString)
      \/ allChars (fun c => negb (isPunctuation c)
                            && negb (Ascii.eqb c " ")) t = true).

(** The ordered pair of identifiers of an edge. *)
Definition ends (e : Edge.t) : string * string :=
  (Edge.fromId e, Edge.toId e).

Definition unitInterval (x : Q) : Prop := (0 < x)%Q /\ (x <= 1)%Q.

(** The invariant of the edges and of the field: one edge for an ordered
    pair, edges between nodes of the store, strengths from 1 up,
    curvatures not negative, and the stability of the field and of its
    history in the interval from 0 (excluded) to 1. *)
Record tidy (s : Store) : Prop := mkTidy {
  tidy_unique : NoDup (map ends (edges s));
  tidy_resolve :
    Forall (fun e => getNode (Edge.fromId e) s <> None
                     /\ getNode (Edge.toId e) s <> None) (edges s);
  tidy_strength :
    Forall (fun e => (1 <= Edge.strength e)%Q /\ (0 <= Edge.curvature e)%Q)
           (edges s);
  tidy_field : unitInterval (Field.stability (fieldState s));
  tidy_history : Forall unitInterval (stabilityHistory s)
}.

(** The rank that [getStrongestLink] gives to an edge whose target is the
    node [target]. *)
Definition linkRank (fromNodeId : string) (s : Store) (e : Edge.t)
    (target : ref) : Q :=
  (Edge.strength e
   + match Node.parentId (deref s target) with
     | Some p => if String.eqb p fromNodeId then 0 else 0.5
     | None => 0.5
     end
   + Node.stabilityWeight (deref s target) * 0.2)%Q.

(** The engine on whose store "ab" and "abc" are each the parent of the
    other. *)
Definition cyclicEngine : LLM :=
  snd (respond squash frozenClock 1 "ab" abThenAbc).


(** Every identifier that has a node in [s] has one in [s']. *)
Definition keeps (s s' : Store) : Prop :=
  forall id, getNode id s <> None -> getNode id s' <> None.

(** A step from [s] to [s'] that forgets no identifier and keeps the store
    tidy. *)
Definition extends (s s' : Store) : Prop :=
  keeps s s' /\ (tidy s -> tidy s').

(** [chain] lists the ancestors of [current], the nearest first: each is
    the stored parent of the one before, and the last has none. *)
Fixpoint ancestry (s : Store) (current : ref) (chain : list ref) : Prop :=
  match chain with
  | [] => parentOf s current = None
  | parent :: rest =>
      parentOf s current = Some parent /\ ancestry s parent rest
  end.

(** [a] is [r] or is reached from [r] by walking up stored parents. *)
Inductive ancestorOrSelf (s : Store) : ref -> ref -> Prop :=
  | ancestor_self r : ancestorOrSelf s r r
  | ancestor_up r parent a :
      parentOf s r = Some parent -> ancestorOrSelf s parent a ->
      ancestorOrSelf s r a.

(** The pair [(bestNode, bestStability)] of [getFallbackResponse]: no node
    and 0, or a node and its stability weight, which is positive. *)
Definition bestSoFar (s : Store) (best : option ref * Q) : Prop :=
  match fst best with
  | None => snd best = 0%Q
  | Some r =>
      snd best = Node.stabilityWeight (deref s r) /\ (0 < snd best)%Q
  end.

(** The best node is one that the walk has seen: a node of [seen] or one
    of its ancestors. *)
Definition chosenFrom (s : Store) (seen : list ref)
    (best : option ref * Q) : Prop :=
  match fst best with
  | None => True
  | Some r => exists m, In m seen /\ ancestorOrSelf s m r
  end.

(** [chain] follows strongest links from the node of identifier
    [currentId]. *)
Fixpoint linkPath (s : Store) (currentId : string) (chain : list ref)
  : Prop :=
  match chain with
  | [] => True
  | next :: rest =>
      getStrongestLink currentId s = Some next
      /\ linkPath s (Node.id (deref s next)) rest
  end.

(** A text made of the contents of stored nodes, joined by single
    spaces. *)
Definition storedText (s : Store) (text : string) : Prop :=
  exists refs,
    refs <> []
    /\ Forall (fun r => In r (getAllNodes s)) refs
    /\ text = JS.join " " (map (fun r => Node.content (deref s r)) refs).

(** * Properties *)

(** ** Lists and numbers *)

Lemma Qltb_lt (x y : Q) : Qltb x y = true <-> (x < y)%Q.
Proof.
  unfold Qltb. rewrite negb_true_iff. split; intro H.
  - apply Qnot_le_lt. intro Hle. apply Qle_bool_iff in Hle. congruence.
  - destruct (Qle_bool y x) eqn:E; [|reflexivity].
    apply Qle_bool_iff in E. exfalso. apply (Qlt_not_le _ _ H E).
Qed.

Lemma Qltb_ge (x y : Q) : Qltb x y = false <-> (y <= x)%Q.
Proof.
  unfold Qltb. rewrite negb_false_iff. apply Qle_bool_iff.
Qed.

Lemma fold_left_sum (l : list Q) (a : Q) :
  (fold_left (fun sum x => sum + x) l a == a + Spec.total l)%Q.
Proof.
  revert a. induction l as [|x l IH]; intro a; simpl.
  - ring.
  - rewrite IH. ring.
Qed.

Lemma sumBy_total (l : list Q) : (sumBy (fun g => g) l == Spec.total l)%Q.
Proof.
  unfold sumBy. rewrite fold_left_sum. ring.
Qed.

Lemma sliceLast_lastN {A} (n : nat) (l : list A) :
  JS.sliceLast n l = Spec.lastN n l.
Proof.
  unfold JS.sliceLast, Spec.lastN.
  rewrite firstn_rev, rev_involutive. reflexivity.
Qed.

Lemma sliceLast_length {A} (n : nat) (l : list A) :
  List.length (JS.sliceLast n l) <= n.
Proof.
  unfold JS.sliceLast. rewrite length_skipn. lia.
Qed.

Lemma mapiFrom_seq {A B} (f : nat -> B) (l : list A) (i : nat) :
  JS.mapiFrom i (fun _ k => f k) l = map f (seq i (List.length l)).
Proof.
  revert i. induction l as [|x l IH]; intro i; simpl.
  - reflexivity.
  - rewrite IH. reflexivity.
Qed.

(** ** The stability filter *)

Lemma dominance_always_passes (s : Store) (nodeIds : list string) :
  passesParentDominanceCheck s nodeIds = true.
Proof.
  induction nodeIds as [|nodeId rest IH]; simpl.
  - reflexivity.
  - destruct (getNode nodeId s) as [r|]; [|exact IH].
    destruct (parentTruthy (deref s r)); [|exact IH].
    destruct (Node.parentId (deref s r)) as [p|]; [|exact IH].
    destruct (getNode p s) as [pr|]; [|exact IH].
    destruct (Qltb _ _); [|exact IH].
    destruct (NodeType_eqb _ _); exact IH.
Qed.

Lemma string_length_pos (x : string) :
  (0 <? String.length x) = true <-> x <> "".
Proof.
  rewrite Nat.ltb_lt. destruct x; simpl; split; intro H;
    try lia; try congruence; try discriminate.
Qed.

Lemma list_length_pos {A} (l : list A) :
  (0 <? List.length l) = true <-> l <> [].
Proof.
  rewrite Nat.ltb_lt. destruct l; simpl; split; intro H;
    try lia; try congruence; try discriminate.
Qed.

(** C2.  A candidate is stable exactly when its curvature is below the
    curvature threshold in absolute value, its content and its list of
    node identifiers are not empty, and its score is above the stability
    threshold; the parent-dominance check accepts every list of
    identifiers, so it never rejects a candidate. *)
Theorem isStable_characterised (s : Store) (c : Candidate.t) :
  passesParentDominanceCheck s (Candidate.nodeIds c) = true /\
  (isStable s c = true <->
   (Qabs (Candidate.curvature c) < Config.curvatureThreshold (config s))%Q
   /\ Candidate.content c <> ""
   /\ Candidate.nodeIds c <> []
   /\ (Config.stabilityThreshold (config s) < Candidate.score c)%Q).
Proof.
  split; [apply dominance_always_passes|].
  unfold isStable, passesCurvatureCheck, passesMinimalLengthCheck,
    passesStabilityThreshold, getConfig.
  rewrite dominance_always_passes. simpl.
  rewrite <- Qltb_lt, <- (Qltb_lt (Config.stabilityThreshold (config s))).
  rewrite <- string_length_pos, <- list_length_pos.
  destruct (Qltb (Qabs _) _); simpl; [|intuition discriminate].
  destruct (0 <? String.length _); simpl; [|intuition discriminate].
  destruct (0 <? List.length _); simpl; [|intuition discriminate].
  destruct (Qltb _ _); simpl; intuition discriminate.
Qed.

(** ** The field update *)

(** C3.  [updateField] returns the state whose [u] is the old [u] plus the
    evolution term, the sum of the old gradients and [lambda] times the
    second-gradient stability of the history; whose gradients are the old
    ones with the increment of [u] appended, cut to the last ten; whose
    curvature is [calculateCurvature] of the ramp [0, 1, ..., n-1] of the
    [n] old gradients followed by the new [u]; and whose stability is
    [1 / (1 + |secondGradientStability history|)]. *)
Theorem updateField_formula (cfg : Config.t) (state : Field.t)
    (node : Node.t) (neighborFieldValues neighborCurvatures history : list Q) :
  let next :=
    updateField cfg state node neighborFieldValues neighborCurvatures
                history in
  let newU := Field.u next in
  (newU ==
     Field.u state
     + evolve cfg node neighborFieldValues neighborCurvatures
     + Spec.total (Field.gradients state)
     + Config.lambda cfg * secondGradientStability history)%Q
  /\ Field.gradients next =
       Spec.lastN 10 (Field.gradients state ++ [(newU - Field.u state)%Q])
  /\ Field.curvature next =
       calculateCurvature
         (Spec.ramp (List.length (Field.gradients state)) ++ [newU])
  /\ Field.stability next =
       (1 / (1 + Qabs (secondGradientStability history)))%Q
  /\ (evolve cfg node neighborFieldValues neighborCurvatures ==
        Config.nu cfg
        * laplacianSmoothing (Node.fieldValue node) neighborFieldValues
        + curvatureInfluence node neighborCurvatures
        + linguisticStability node)%Q.
Proof.
  cbv zeta. unfold updateField. cbn [Field.u Field.gradients Field.curvature
    Field.stability].
  split; [|split; [|split; [|split]]].
  - rewrite sumBy_total. reflexivity.
  - apply sliceLast_lastN.
  - unfold JS.mapi, Spec.ramp. rewrite mapiFrom_seq. reflexivity.
  - reflexivity.
  - unfold evolve. reflexivity.
Qed.

(** ** The heap and the store *)

Lemma updateAt_length {A} (i : nat) (f : A -> A) (l : list A) :
  List.length (updateAt i f l) = List.length l.
Proof.
  revert i. induction l as [|x l IH]; intros [|i]; simpl; auto.
Qed.

Lemma nth_updateAt {A} (i j : nat) (f : A -> A) (l : list A) (d : A) :
  nth j (updateAt i f l) d =
  if (j =? i) && (i <? List.length l) then f (nth i l d) else nth j l d.
Proof.
  revert i j. induction l as [|x l IH]; intros i j.
  - simpl. rewrite andb_false_r. destruct i, j; reflexivity.
  - destruct i as [|i], j as [|j]; simpl; try reflexivity.
    rewrite IH. reflexivity.
Qed.

Lemma Forall_updateAt {A} (P : A -> Prop) (i : nat) (f : A -> A)
    (l : list A) :
  (forall x, P x -> P (f x)) -> Forall P l -> Forall P (updateAt i f l).
Proof.
  intros Hf. revert i. induction l as [|x l IH]; intros i H; simpl.
  - destruct i; constructor.
  - inversion H; subst. destruct i; constructor; auto.
Qed.

Lemma fold_left_invariant {A B} (P : A -> Prop) (f : A -> B -> A)
    (l : list B) (a : A) :
  (forall x b, P x -> P (f x b)) -> P a -> P (fold_left f l a).
Proof.
  intro Hf. revert a. induction l as [|b l IH]; intros a Ha; simpl; auto.
Qed.

Lemma sane_dead : sane deadStore.
Proof.
  constructor; simpl; auto; lia.
Qed.

Lemma sane_clear (s : Store) : sane (clear s).
Proof.
  constructor; simpl; auto; lia.
Qed.

Lemma sane_updNode (r : ref) (f : Node.t -> Node.t) (s : Store) :
  (forall n, weightInRange n -> weightInRange (f n)) ->
  sane s -> sane (updNode r f s).
Proof.
  intros Hf [Hw Hr Hg Hh]. constructor; simpl; auto.
  - apply Forall_updateAt; assumption.
  - rewrite updateAt_length. exact Hr.
Qed.

Lemma sane_updNode_keeps (r : ref) (f : Node.t -> Node.t) (s : Store) :
  keepsStability f -> sane s -> sane (updNode r f s).
Proof.
  intros Hf. apply sane_updNode. intros n [H1 H2].
  unfold weightInRange. rewrite Hf. split; assumption.
Qed.

Lemma sane_setTicks (n : nat) (s : Store) : sane s -> sane (setTicks n s).
Proof.
  intros [Hw Hr Hg Hh]. constructor; assumption.
Qed.

Lemma sane_setEdges (es : list Edge.t) (s : Store) :
  sane s -> sane (setEdges es s).
Proof.
  intros [Hw Hr Hg Hh]. constructor; assumption.
Qed.

Lemma StrMap_set_Forall {V} (P : string * V -> Prop) (k : string) (v : V)
    (m : list (string * V)) :
  P (k, v) -> Forall P m -> Forall P (StrMap.set k v m).
Proof.
  intros Hkv. induction m as [|[k' v'] m IH]; intro H; simpl.
  - constructor; auto.
  - inversion H; subst. destruct (String.eqb k k'); constructor; auto.
Qed.

Lemma sane_alloc (node : Node.t) (id : string) (s s' : Store) :
  sane s -> weightInRange node ->
  heap s' = heap s ++ [node] ->
  nodes s' = StrMap.set id (List.length (heap s)) (nodes s) ->
  fieldState s' = fieldState s ->
  stabilityHistory s' = stabilityHistory s ->
  sane s'.
Proof.
  intros [Hw Hr Hg Hh] Hn Eh En Ef Es. constructor.
  - rewrite Eh. apply Forall_app. split; auto.
  - rewrite Eh, En, length_app. simpl. apply StrMap_set_Forall.
    + simpl. lia.
    + eapply Forall_impl; [|exact Hr]. simpl. intros a Ha. lia.
  - rewrite Ef. exact Hg.
  - rewrite Es. exact Hh.
Qed.

Lemma sane_updateFieldState (f : Field.t) (s : Store) :
  List.length (Field.gradients f) <= 10 ->
  sane s -> sane (updateFieldState f s).
Proof.
  intros Hf [Hw Hr Hg Hh]. constructor; simpl; auto.
  destruct (20 <? _) eqn:E.
  - unfold JS.shift. rewrite length_app in *. simpl in *.
    destruct (stabilityHistory s); simpl in *; [lia|].
    rewrite length_app. simpl. lia.
  - apply Nat.ltb_ge in E. exact E.
Qed.

Lemma updateField_gradients_length (cfg : Config.t) (state : Field.t)
    (node : Node.t) (a b h : list Q) :
  List.length (Field.gradients (updateField cfg state node a b h)) <= 10.
Proof.
  unfold updateField. simpl. apply sliceLast_length.
Qed.

Create HintDb sane.

#[local] Hint Resolve sane_updNode_keeps sane_setTicks sane_setEdges
  sane_updateFieldState updateField_gradients_length : sane.

#[local] Hint Extern 1 (keepsStability _) =>
  (intro; reflexivity) : sane.

Section SaneOperations.

Variable tanh : Q -> Q.
Variable dateNow : nat -> N.

Lemma sane_createNode (content : string) (type : NodeType)
    (parentId : option string) (s : Store) :
  sane s -> sane (snd (createNode tanh dateNow content type parentId s)).
Proof.
  intro H. unfold createNode.
  destruct (findNodeByContent content s) as [existing|]; simpl.
  - unfold touch. simpl. auto 6 with sane.
  - match goal with
    | |- sane (linkToParent _ _ ?s4) => assert (H4 : sane s4)
    end.
    { eapply sane_alloc; [exact H| |reflexivity..].
      split; simpl; unfold calculateInitialStabilityWeight; lra. }
    unfold linkToParent.
    destruct parentId as [pid|]; [|exact H4].
    destruct (JS.truthy pid); [|exact H4].
    destruct (getNode pid _); [|exact H4].
    auto with sane.
Qed.

Lemma sane_createEdge (fromId toId : string) (isSequential : bool)
    (s : Store) :
  sane s -> sane (createEdge fromId toId isSequential s).
Proof.
  intro H. unfold createEdge.
  destruct (find _ (edges s)).
  - auto with sane.
  - destruct (getNode fromId s); [|exact H].
    destruct (getNode toId s); [|exact H].
    auto 6 with sane.
Qed.

Lemma sane_processTokens (tokens : list string) (phraseNode : ref)
    (previous : option ref) (created : list ref) (s : Store) :
  sane s ->
  sane (snd (processTokens tanh dateNow tokens phraseNode previous
                           created s)).
Proof.
  revert previous created s.
  induction tokens as [|token rest IH]; intros previous created s H; simpl.
  - exact H.
  - pose proof (sane_createNode token
                  (if isWord token then word else punctuation) None s H)
      as H1.
    destruct (createNode _ _ _ _ _ s) as [wordNode s1]. simpl in H1.
    apply IH. destruct previous; auto using sane_createEdge.
Qed.

Lemma sane_adopt (newPhrase existing : ref) (s : Store) :
  sane s -> sane (adopt newPhrase existing s).
Proof.
  intro H. unfold adopt. apply sane_createEdge; auto with sane.
Qed.

Lemma sane_beAdopted (newPhrase existing : ref) (s : Store) :
  sane s -> sane (beAdopted newPhrase existing s).
Proof.
  intro H. unfold beAdopted. apply sane_createEdge; auto with sane.
Qed.

Lemma sane_parenthoodStep (newPhrase : ref) (content : string)
    (existing : ref) (s : Store) :
  sane s -> sane (parenthoodStep newPhrase content existing s).
Proof.
  intro H. unfold parenthoodStep.
  destruct (String.eqb _ _); [exact H|]. cbv zeta.
  assert (H1 : sane (adoptContained newPhrase content existing
                       (JS.toLowerCase (Node.content (deref s existing))) s)).
  { unfold adoptContained.
    destruct (_ && _); [|exact H].
    destruct (negb _); [|exact H].
    destruct (getNode "" s);
      [destruct (_ <? _); [|exact H]|]; apply sane_adopt; exact H. }
  unfold joinContaining.
  destruct (_ && _); [|exact H1].
  destruct (negb _); [|exact H1].
  apply sane_beAdopted. exact H1.
Qed.

Lemma sane_establishParenthood (newPhrase : ref) (s : Store) :
  sane s -> sane (establishParenthood newPhrase s).
Proof.
  intro H. unfold establishParenthood.
  apply fold_left_invariant; [|exact H].
  intros. apply sane_parenthoodStep. assumption.
Qed.

Lemma sane_processInput (input : string) (s : Store) :
  sane s -> sane (snd (processInput tanh dateNow input s)).
Proof.
  intro H. unfold processInput.
  destruct (negb _); [exact H|].
  pose proof (sane_createNode (JS.trim input) phrase None s H) as H1.
  destruct (createNode _ _ _ _ _ s) as [phraseNode s1]. simpl in H1.
  pose proof (sane_processTokens (tokenize (JS.trim input)) phraseNode None
                [phraseNode] s1 H1) as H2.
  destruct (processTokens _ _ _ _ _ _ s1) as [created s2]. simpl in *.
  apply sane_establishParenthood. exact H2.
Qed.

Lemma sane_processTrainingPair (prompt response : string) (s : Store) :
  sane s -> sane (processTrainingPair tanh dateNow prompt response s).
Proof.
  intro H. unfold processTrainingPair.
  pose proof (sane_processInput prompt s H) as H1.
  destruct (processInput _ _ prompt s) as [promptNodes s1]. simpl in H1.
  pose proof (sane_processInput response s1 H1) as H2.
  destruct (processInput _ _ response s1) as [responseNodes s2]. simpl in H2.
  destruct (_ && _); [|exact H2].
  destruct (findPhrase s2 promptNodes); [|exact H2].
  destruct (findPhrase s2 responseNodes); [|exact H2].
  apply sane_createEdge. exact H2.
Qed.

Lemma sane_updateNodeFieldValue (nodeId : string) (v : Q) (s : Store) :
  sane s -> sane (updateNodeFieldValue nodeId v s).
Proof.
  intro H. unfold updateNodeFieldValue.
  destruct (getNode nodeId s); auto with sane.
Qed.

Lemma sane_evolveStep (state : Field.t) (history : list Q) (s : Store)
    (node : ref) :
  sane s -> sane (evolveStep state history s node).
Proof.
  intro H. unfold evolveStep.
  apply sane_updateNodeFieldValue. auto with sane.
Qed.

Lemma sane_evolveField (input : string) (s : Store) :
  sane s -> sane (evolveField tanh dateNow input s).
Proof.
  intro H. unfold evolveField.
  pose proof (sane_processInput input s H) as H1.
  destruct (processInput _ _ input s) as [created s1]. simpl in H1.
  destruct (_ =? _); [exact H1|].
  apply fold_left_invariant; [|exact H1].
  intros. apply sane_evolveStep. assumption.
Qed.

Lemma reinforced_in_range (n : Node.t) :
  weightInRange n ->
  weightInRange
    (Node.setStabilityWeight (Qmin (Node.stabilityWeight n + 0.1) 2.0) n).
Proof.
  intros [H1 H2]. unfold weightInRange. simpl. split.
  - apply Q.min_glb; lra.
  - eapply Qle_trans; [apply Q.le_min_r|]. lra.
Qed.

Lemma sane_reinforce (s : Store) (node : ref) :
  sane s -> sane (reinforce s node).
Proof.
  intro H. unfold reinforce.
  destruct (getNode _ s); [|exact H].
  apply sane_updNode_keeps; [intro; reflexivity|].
  apply sane_updNode; [exact reinforced_in_range|exact H].
Qed.

Lemma sane_reinforceNodes (prompt response : string) (s : Store) :
  sane s -> sane (reinforceNodes prompt response s).
Proof.
  intro H. unfold reinforceNodes.
  apply fold_left_invariant; [|exact H].
  intros. apply sane_reinforce. assumption.
Qed.

Lemma sane_respond (fuel : nat) (prompt : string) (w : LLM) :
  sane (store w) ->
  sane (store (snd (respond tanh dateNow fuel prompt w))).
Proof.
  intro H. unfold respond.
  pose proof (sane_processInput prompt (store w) H) as H1.
  destruct (processInput _ _ prompt (store w)) as [created s1]. simpl in *.
  apply sane_evolveField. exact H1.
Qed.

Lemma sane_learnFrom (prompt response : string) (w : LLM) :
  sane (store w) ->
  sane (store (learnFrom tanh dateNow prompt response w)).
Proof.
  intro H. unfold learnFrom. simpl.
  apply sane_setTicks, sane_reinforceNodes, sane_evolveField,
    sane_evolveField, sane_processTrainingPair. exact H.
Qed.

Lemma shift_bound {A} (n : nat) (l : list A) (x : A) :
  List.length l <= n ->
  List.length
    (if n <? List.length (l ++ [x]) then JS.shift (l ++ [x]) else l ++ [x])
  <= n.
Proof.
  intro H. destruct (n <? _) eqn:E.
  - unfold JS.shift. destruct l; simpl in *; [lia|].
    rewrite length_app. simpl. lia.
  - apply Nat.ltb_ge in E. exact E.
Qed.

Lemma learnFrom_log_length (prompt response : string) (w : LLM) :
  List.length (trainingLog w) <= 100 ->
  List.length (trainingLog (learnFrom tanh dateNow prompt response w)) <= 100.
Proof.
  intro H. unfold learnFrom. simpl. apply shift_bound. exact H.
Qed.

Lemma reachable_sane (w : LLM) :
  reachable tanh dateNow w ->
  sane (store w) /\ List.length (trainingLog w) <= 100.
Proof.
  induction 1 as [|fuel prompt w Hw [IH1 IH2]|prompt response w Hw [IH1 IH2]
                  |w Hw [IH1 IH2]].
  - split; [exact sane_dead|simpl; lia].
  - split; [apply sane_respond; exact IH1|].
    unfold respond. destruct (processInput _ _ _ _). exact IH2.
  - split; [apply sane_learnFrom; exact IH1|].
    apply learnFrom_log_length. exact IH2.
  - split; [apply sane_clear|simpl; lia].
Qed.

End SaneOperations.

(** ** Bounded histories *)

Lemma shift_lastN {A} (n : nat) (l : list A) (x : A) :
  List.length l <= n ->
  (if n <? List.length (l ++ [x]) then JS.shift (l ++ [x]) else l ++ [x])
  = Spec.lastN n (l ++ [x]).
Proof.
  intro H. rewrite <- sliceLast_lastN. unfold JS.sliceLast, JS.shift.
  destruct (n <? _) eqn:E.
  - apply Nat.ltb_lt in E. rewrite length_app in *. simpl in *.
    replace (List.length l + 1 - n) with 1 by lia.
    destruct l; reflexivity.
  - apply Nat.ltb_ge in E.
    replace (List.length (l ++ [x]) - n) with 0 by lia. reflexivity.
Qed.

(** C9.  In every engine reached from the dead state, the gradients of the
    field are at most 10, the stability history at most 20 and the
    training log at most 100; a field update, a replacement of the field
    state and [learnFrom] each keep the last 10, 20 and 100 entries of the
    buffer with the new entry appended, so the oldest entry leaves
    first. *)
Theorem histories_bounded (tanh : Q -> Q) (dateNow : nat -> N) (w : LLM) :
  reachable tanh dateNow w ->
  (List.length (Field.gradients (fieldState (store w))) <= 10
   /\ List.length (stabilityHistory (store w)) <= 20
   /\ List.length (trainingLog w) <= 100)
  /\ (forall cfg node neighborFieldValues neighborCurvatures history,
        let state := fieldState (store w) in
        let next :=
          updateField cfg state node neighborFieldValues neighborCurvatures
                      history in
        Field.gradients next =
        Spec.lastN 10
          (Field.gradients state ++ [(Field.u next - Field.u state)%Q]))
  /\ (forall newState,
        stabilityHistory (updateFieldState newState (store w)) =
        Spec.lastN 20 (stabilityHistory (store w)
                       ++ [Field.stability newState]))
  /\ (forall prompt response,
        exists time,
          trainingLog (learnFrom tanh dateNow prompt response w) =
          Spec.lastN 100
            (trainingLog w ++ [Memory.mk prompt response time])).
Proof.
  intro Hw. destruct (reachable_sane tanh dateNow w Hw) as [[_ _ Hg Hh] Hl].
  split; [auto|]. split; [|split].
  - intros. subst state next. unfold updateField. simpl.
    apply sliceLast_lastN.
  - intro newState. unfold updateFieldState. simpl.
    apply shift_lastN. exact Hh.
  - intros prompt response. unfold learnFrom. simpl.
    eexists. apply shift_lastN. exact Hl.
Qed.

Lemma histories_bounded_witness :
  let w := snd (respond squash frozenClock 1 "hi" deadLLM) in
  reachable squash frozenClock w
  /\ List.length (Field.gradients (fieldState (store w))) <= 10
  /\ List.length (stabilityHistory (store w)) <= 20
  /\ List.length (trainingLog w) <= 100.
Proof.
  intro w.
  assert (Hw : reachable squash frozenClock w)
    by (apply reach_respond, reach_dead).
  split; [exact Hw|].
  exact (proj1 (histories_bounded squash frozenClock w Hw)).
Defined.

(** ** Stability weights *)

Lemma filter_none {A} (p : A -> bool) (l : list A) :
  (forall x, In x l -> p x = false) -> filter p l = [].
Proof.
  induction l as [|x l IH]; intro H; simpl.
  - reflexivity.
  - rewrite (H x (or_introl eq_refl)). apply IH.
    intros y Hy. apply H. right. exact Hy.
Qed.

Lemma sane_deref (s : Store) (r : ref) :
  sane s -> In r (getAllNodes s) -> weightInRange (deref s r).
Proof.
  intros [Hw Hr _ _] Hin. unfold getAllNodes, StrMap.values in Hin.
  apply in_map_iff in Hin. destruct Hin as [[k r'] [E Hin]].
  simpl in E. subst r'.
  rewrite Forall_forall in Hw, Hr. apply Hw.
  unfold deref. apply nth_In. exact (Hr _ Hin).
Qed.

(** C10.  In every engine reached from the dead state by [respond],
    [learnFrom] and [clearMemory], every node of the store has its
    stability weight in [[1, 2]], and [getUnstableNodes] returns the empty
    list. *)
Theorem stability_weight_in_range (tanh : Q -> Q) (dateNow : nat -> N)
    (w : LLM) :
  reachable tanh dateNow w ->
  (forall r, In r (getAllNodes (store w)) ->
     (1 <= Node.stabilityWeight (deref (store w) r))%Q
     /\ (Node.stabilityWeight (deref (store w) r) <= 2)%Q)
  /\ fst (getUnstableNodes dateNow (store w)) = [].
Proof.
  intro Hw. destruct (reachable_sane tanh dateNow w Hw) as [Hs _].
  split.
  - intros r Hr. exact (sane_deref _ _ Hs Hr).
  - unfold getUnstableNodes. simpl. apply filter_none.
    intros r Hr. apply andb_false_iff. right. apply Qltb_ge.
    destruct (sane_deref (store w) r Hs Hr) as [H1 _].
    change (deref (setTicks (S (ticks (store w))) (store w)) r)
      with (deref (store w) r).
    lra.
Qed.

Lemma stability_weight_in_range_witness :
  let w := learnFrom squash frozenClock "hello" "hi there" deadLLM in
  reachable squash frozenClock w
  /\ fst (getUnstableNodes frozenClock (store w)) = [].
Proof.
  intro w.
  assert (Hw : reachable squash frozenClock w)
    by (apply reach_learnFrom, reach_dead).
  split; [exact Hw|].
  exact (proj2 (stability_weight_in_range squash frozenClock w Hw)).
Defined.

(** ** Creation of nodes *)

Lemma find_ext {A} (p q : A -> bool) (l : list A) :
  (forall x, In x l -> p x = q x) -> find p l = find q l.
Proof.
  induction l as [|x l IH]; intro H; simpl.
  - reflexivity.
  - rewrite (H x (or_introl eq_refl)). destruct (q x); [reflexivity|].
    apply IH. intros y Hy. apply H. right. exact Hy.
Qed.

Lemma find_only {A} (p : A -> bool) (l : list A) (v : A) :
  In v l -> p v = true ->
  (forall x, In x l -> p x = true -> x = v) ->
  find p l = Some v.
Proof.
  induction l as [|x l IH]; intros Hin Hv Huniq; simpl.
  - contradiction.
  - destruct (p x) eqn:E.
    + f_equal. apply Huniq; [left; reflexivity|exact E].
    + destruct Hin as [->|Hin]; [congruence|].
      apply IH; auto. intros y Hy. apply Huniq. right. exact Hy.
Qed.

Lemma StrMap_set_values_in {V} (k : string) (v x : V)
    (m : list (string * V)) :
  In x (StrMap.values (StrMap.set k v m)) -> x = v \/ In x (StrMap.values m).
Proof.
  unfold StrMap.values. induction m as [|[k' v'] m IH]; simpl.
  - intros [<-|[]]. left. reflexivity.
  - destruct (String.eqb k k'); simpl.
    + intros [<-|H]; auto.
    + intros [<-|H]; auto. destruct (IH H); auto.
Qed.

Lemma StrMap_set_values_new {V} (k : string) (v : V) (m : list (string * V)) :
  In v (StrMap.values (StrMap.set k v m)).
Proof.
  unfold StrMap.values. induction m as [|[k' v'] m IH]; simpl.
  - left. reflexivity.
  - destruct (String.eqb k k'); simpl; auto.
Qed.

Lemma allocated_ref (s : Store) (r : ref) :
  allocated s -> In r (getAllNodes s) -> r < List.length (heap s).
Proof.
  unfold allocated, getAllNodes, StrMap.values. rewrite Forall_forall.
  intros H Hin. apply in_map_iff in Hin. destruct Hin as [kr [<- Hin]].
  exact (H kr Hin).
Qed.

Lemma content_updNode (r r' : ref) (f : Node.t -> Node.t) (s : Store) :
  keepsContent f ->
  Node.content (deref (updNode r f s) r') = Node.content (deref s r').
Proof.
  intro Hf. unfold deref, updNode. simpl. rewrite nth_updateAt.
  destruct (r' =? r) eqn:E; simpl; [|reflexivity].
  apply Nat.eqb_eq in E. subst r'.
  destruct (r <? _); [apply Hf|reflexivity].
Qed.

Lemma deref_updNode_other (r r' : ref) (f : Node.t -> Node.t) (s : Store) :
  r' <> r -> deref (updNode r f s) r' = deref s r'.
Proof.
  intro H. unfold deref, updNode. simpl. rewrite nth_updateAt.
  apply Nat.eqb_neq in H. rewrite H. reflexivity.
Qed.

Lemma deref_updNode_same (r : ref) (f : Node.t -> Node.t) (s : Store) :
  r < List.length (heap s) -> deref (updNode r f s) r = f (deref s r).
Proof.
  intro H. unfold deref, updNode. simpl. rewrite nth_updateAt.
  rewrite Nat.eqb_refl. apply Nat.ltb_lt in H. rewrite H. reflexivity.
Qed.

Section CreateNode.

Variable tanh : Q -> Q.
Variable dateNow : nat -> N.

Lemma content_touch (e r : ref) (s : Store) :
  Node.content (deref (touch dateNow e s) r) = Node.content (deref s r).
Proof.
  unfold touch. simpl.
  rewrite content_updNode by (intro; reflexivity).
  change (deref (setTicks ?n ?s') r) with (deref s' r).
  apply content_updNode. intro; reflexivity.
Qed.

Lemma findNodeByContent_touch (e : ref) (content : string) (s : Store) :
  findNodeByContent content (touch dateNow e s) = findNodeByContent content s.
Proof.
  unfold findNodeByContent.
  change (getAllNodes (touch dateNow e s)) with (getAllNodes s).
  apply find_ext. intros r _. rewrite content_touch. reflexivity.
Qed.

Lemma findNodeByContent_some (content : string) (s : Store) (e : ref) :
  findNodeByContent content s = Some e ->
  In e (getAllNodes s)
  /\ normalize (Node.content (deref s e)) = normalize content.
Proof.
  unfold findNodeByContent. intro H. apply find_some in H.
  destruct H as [Hin E]. apply String.eqb_eq in E. auto.
Qed.

Lemma findNodeByContent_normalize (c1 c2 : string) (s : Store) :
  normalize c1 = normalize c2 ->
  findNodeByContent c1 s = findNodeByContent c2 s.
Proof.
  intro H. unfold findNodeByContent. rewrite H. reflexivity.
Qed.

Lemma createNode_found (content : string) (type : NodeType)
    (parentId : option string) (s : Store) (e : ref) :
  findNodeByContent content s = Some e ->
  createNode tanh dateNow content type parentId s = (e, touch dateNow e s).
Proof.
  intro H. unfold createNode. rewrite H. reflexivity.
Qed.

Lemma createNode_fresh (content : string) (type : NodeType)
    (parentId : option string) (s : Store) :
  findNodeByContent content s = None ->
  createNode tanh dateNow content type parentId s =
  (List.length (heap s),
   linkToParent parentId (Node.id (created tanh dateNow content type parentId s))
     (snd (insertNode (created tanh dateNow content type parentId s)
                      (setTicks (S (S (S (ticks s)))) s)))).
Proof.
  intro H. unfold createNode. rewrite H. reflexivity.
Qed.

Lemma content_linkToParent (parentId : option string) (childId : string)
    (s : Store) (r : ref) :
  Node.content (deref (linkToParent parentId childId s) r)
  = Node.content (deref s r).
Proof.
  unfold linkToParent. destruct parentId as [pid|]; [|reflexivity].
  destruct (JS.truthy pid); [|reflexivity].
  destruct (getNode pid s); [|reflexivity].
  apply content_updNode. intro; reflexivity.
Qed.

Lemma nodes_linkToParent (parentId : option string) (childId : string)
    (s : Store) :
  nodes (linkToParent parentId childId s) = nodes s.
Proof.
  unfold linkToParent. destruct parentId as [pid|]; [|reflexivity].
  destruct (JS.truthy pid); [|reflexivity].
  destruct (getNode pid s); reflexivity.
Qed.

Lemma findNodeByContent_created (c1 c2 : string) (type : NodeType)
    (parentId : option string) (s : Store) :
  allocated s ->
  normalize c1 = normalize c2 ->
  findNodeByContent c1 s = None ->
  findNodeByContent c2
    (snd (createNode tanh dateNow c1 type parentId s))
  = Some (List.length (heap s)).
Proof.
  intros Hs Hn Hnone. rewrite createNode_fresh by exact Hnone. simpl.
  unfold findNodeByContent, getAllNodes.
  rewrite nodes_linkToParent. simpl.
  assert (Hnew : forall r,
    Node.content
      (deref (linkToParent parentId
                (Node.id (created tanh dateNow c1 type parentId s))
                (snd (insertNode (created tanh dateNow c1 type parentId s)
                        (setTicks (S (S (S (ticks s)))) s)))) r)
    = if r <? List.length (heap s) then Node.content (deref s r)
      else if r =? List.length (heap s) then c1 else "").
  { intro r. rewrite content_linkToParent. unfold deref. simpl.
    destruct (r <? _) eqn:E.
    - apply Nat.ltb_lt in E. rewrite app_nth1 by exact E. reflexivity.
    - apply Nat.ltb_ge in E. rewrite app_nth2 by exact E.
      destruct (r =? _) eqn:E2.
      + apply Nat.eqb_eq in E2. rewrite E2, Nat.sub_diag. reflexivity.
      + apply Nat.eqb_neq in E2.
        destruct (r - List.length (heap s)) as [|[|k]] eqn:E3;
          [lia|reflexivity|reflexivity]. }
  apply find_only.
  - apply StrMap_set_values_new.
  - rewrite Hnew, Nat.ltb_irrefl, Nat.eqb_refl, Hn. apply String.eqb_refl.
  - intros r Hin Hp. apply StrMap_set_values_in in Hin.
    destruct Hin as [->|Hin]; [reflexivity|]. exfalso.
    pose proof (allocated_ref s r Hs Hin) as Hlt.
    rewrite Hnew in Hp. apply Nat.ltb_lt in Hlt. rewrite Hlt in Hp.
    unfold findNodeByContent in Hnone.
    pose proof (find_none _ _ Hnone r Hin) as Hf. simpl in Hf.
    rewrite Hn in Hf. congruence.
Qed.

(** C4.  On a store whose references are allocated, as those of every
    store of the engine are, two calls of [createNode] with contents that
    normalize to the same string (lower case, trimmed) give one node: the
    second call
    returns the node of the first, adds nothing to the [Map] or to the
    heap, raises the usage weight of that node by 1, sets its
    [lastUsedAt] to the time of the call, and leaves its other attributes,
    the other nodes and the rest of the store as they were. *)
Theorem createNode_twice_one_node (s : Store) (c1 c2 : string)
    (k1 k2 : NodeType) (p1 p2 : option string) :
  allocated s ->
  normalize c1 = normalize c2 ->
  let first := fst (createNode tanh dateNow c1 k1 p1 s) in
  let s1 := snd (createNode tanh dateNow c1 k1 p1 s) in
  let second := fst (createNode tanh dateNow c2 k2 p2 s1) in
  let s2 := snd (createNode tanh dateNow c2 k2 p2 s1) in
  second = first
  /\ nodes s2 = nodes s1
  /\ List.length (heap s2) = List.length (heap s1)
  /\ deref s2 first =
       Node.setLastUsedAt (dateNow (ticks s1))
         (Node.setUsageWeight (Node.usageWeight (deref s1 first) + 1)
                              (deref s1 first))
  /\ (forall r, r <> first -> deref s2 r = deref s1 r)
  /\ edges s2 = edges s1
  /\ fieldState s2 = fieldState s1
  /\ stabilityHistory s2 = stabilityHistory s1.
Proof.
  intros Hs Hn first s1 second s2.
  assert (Hfound : findNodeByContent c2 s1 = Some first
                   /\ first < List.length (heap s1)).
  { subst first s1.
    destruct (findNodeByContent c1 s) as [e|] eqn:E.
    - rewrite (createNode_found c1 k1 p1 s e E). cbn [fst snd].
      rewrite findNodeByContent_touch.
      destruct (findNodeByContent_some _ _ _ E) as [Hin _].
      split.
      + rewrite <- (findNodeByContent_normalize c1 c2 s Hn). exact E.
      + unfold touch. simpl. rewrite !updateAt_length.
        exact (allocated_ref s e Hs Hin).
    - pose proof (findNodeByContent_created c1 c2 k1 p1 s Hs Hn E) as H.
      rewrite createNode_fresh in * by exact E. cbn [fst snd] in *.
      split; [exact H|].
      unfold linkToParent, insertNode. cbn [snd].
      destruct p1 as [pid|]; [destruct (JS.truthy pid);
        [destruct (getNode pid _)|]|];
        simpl; rewrite ?updateAt_length, length_app; simpl; lia. }
  destruct Hfound as [Hfound Hlt].
  assert (E2 : createNode tanh dateNow c2 k2 p2 s1
               = (first, touch dateNow first s1)).
  { unfold createNode. rewrite Hfound. reflexivity. }
  subst second s2. rewrite E2. cbn [fst snd].
  unfold touch. cbn [now fst snd].
  split; [reflexivity|]. split; [reflexivity|].
  split; [simpl; rewrite !updateAt_length; reflexivity|].
  split.
  - rewrite deref_updNode_same
      by (simpl; rewrite updateAt_length; exact Hlt).
    change (deref (setTicks ?n ?s') first) with (deref s' first).
    rewrite deref_updNode_same by exact Hlt. reflexivity.
  - split; [|repeat split; reflexivity].
    intros r Hr. rewrite deref_updNode_other by exact Hr.
    change (deref (setTicks ?n ?s') r) with (deref s' r).
    apply deref_updNode_other. exact Hr.
Qed.

End CreateNode.

Lemma createNode_twice_one_node_witness :
  allocated deadStore
  /\ normalize "Hello " = normalize "hello"
  /\ fst (createNode squash frozenClock "hello" phrase None
            (snd (createNode squash frozenClock "Hello " word None
                    deadStore)))
     = fst (createNode squash frozenClock "Hello " word None deadStore).
Proof.
  assert (Ha : allocated deadStore) by constructor.
  assert (Hn : normalize "Hello " = normalize "hello") by reflexivity.
  split; [exact Ha|]. split; [exact Hn|].
  exact (proj1 (createNode_twice_one_node squash frozenClock deadStore
                  "Hello " "hello" word phrase None None Ha Hn)).
Defined.

(** ** Strings *)

Lemma isSpace_lowerChar (c : ascii) : JS.isSpace (JS.lowerChar c) = JS.isSpace c.
Proof.
  destruct c as [[] [] [] [] [] [] [] []]; reflexivity.
Qed.

Lemma toLowerCase_length (s : string) :
  String.length (JS.toLowerCase s) = String.length s.
Proof.
  induction s as [|c r IH]; simpl; [reflexivity|]. rewrite IH. reflexivity.
Qed.

Lemma trimStart_toLowerCase (s : string) :
  JS.trimStart (JS.toLowerCase s) = JS.toLowerCase (JS.trimStart s).
Proof.
  induction s as [|c r IH]; simpl; [reflexivity|].
  rewrite isSpace_lowerChar. destruct (JS.isSpace c); [exact IH|reflexivity].
Qed.

Lemma trimEnd_toLowerCase (s : string) :
  JS.trimEnd (JS.toLowerCase s) = JS.toLowerCase (JS.trimEnd s).
Proof.
  induction s as [|c r IH]; simpl; [reflexivity|].
  rewrite IH, isSpace_lowerChar.
  destruct (JS.trimEnd r); simpl; [destruct (JS.isSpace c)|]; reflexivity.
Qed.

Lemma trim_toLowerCase (s : string) :
  JS.trim (JS.toLowerCase s) = JS.toLowerCase (JS.trim s).
Proof.
  unfold JS.trim. rewrite trimStart_toLowerCase. apply trimEnd_toLowerCase.
Qed.

Lemma trimEnd_idempotent (s : string) :
  JS.trimEnd (JS.trimEnd s) = JS.trimEnd s.
Proof.
  induction s as [|c r IH]; simpl; [reflexivity|].
  destruct (JS.trimEnd r) as [|c' r'] eqn:E.
  - destruct (JS.isSpace c) eqn:Ec; simpl; [reflexivity|].
    rewrite Ec. reflexivity.
  - change (JS.trimEnd (String c (String c' r')))
      with (match JS.trimEnd (String c' r') with
            | EmptyString =>
                if JS.isSpace c then EmptyString else String c EmptyString
            | r0 => String c r0
            end).
    rewrite IH. reflexivity.
Qed.

Lemma trimStart_clean (s : string) : startsClean (JS.trimStart s).
Proof.
  induction s as [|c r IH]; simpl; [exact I|].
  destruct (JS.isSpace c) eqn:E; [exact IH|exact E].
Qed.

Lemma trimStart_of_clean (s : string) : startsClean s -> JS.trimStart s = s.
Proof.
  destruct s as [|c r]; simpl; [reflexivity|]. intros ->. reflexivity.
Qed.

Lemma trimEnd_clean (s : string) : startsClean s -> startsClean (JS.trimEnd s).
Proof.
  destruct s as [|c r]; simpl; [auto|]. intro H.
  destruct (JS.trimEnd r); [rewrite H|]; exact H.
Qed.

Lemma trim_idempotent (s : string) : JS.trim (JS.trim s) = JS.trim s.
Proof.
  unfold JS.trim.
  rewrite (trimStart_of_clean (JS.trimEnd (JS.trimStart s)))
    by apply trimEnd_clean, trimStart_clean.
  apply trimEnd_idempotent.
Qed.

Lemma trimStart_length (s : string) :
  String.length (JS.trimStart s) <= String.length s.
Proof.
  induction s as [|c r IH]; simpl; [lia|].
  destruct (JS.isSpace c); simpl; lia.
Qed.

Lemma trimEnd_length (s : string) :
  String.length (JS.trimEnd s) <= String.length s.
Proof.
  induction s as [|c r IH]; simpl; [lia|].
  destruct (JS.trimEnd r); [destruct (JS.isSpace c)|]; simpl in *; lia.
Qed.

Lemma normalize_length (s : string) :
  String.length (normalize s) <= String.length s.
Proof.
  unfold normalize, JS.trim.
  eapply Nat.le_trans; [apply trimEnd_length|].
  eapply Nat.le_trans; [apply trimStart_length|].
  rewrite toLowerCase_length. lia.
Qed.

(** The normal form of a trimmed string is its lower case. *)
Lemma normalize_trim (x : string) :
  normalize (JS.trim x) = JS.toLowerCase (JS.trim x).
Proof.
  unfold normalize. rewrite trim_toLowerCase, trim_idempotent. reflexivity.
Qed.

(** *** The tokens of a text are shorter than the text *)

Lemma totalLength_app (l1 l2 : list string) :
  totalLength (l1 ++ l2) = totalLength l1 + totalLength l2.
Proof.
  induction l1 as [|x l1 IH]; simpl; [reflexivity|]. rewrite IH. lia.
Qed.

Lemma string_append_length (a b : string) :
  String.length (a ++ b)%string = String.length a + String.length b.
Proof.
  induction a as [|c a IH]; simpl; [reflexivity|]. rewrite IH. reflexivity.
Qed.

Lemma pushCurrent_spec (tokens : list string) (current : string) :
  totalLength (pushCurrent tokens current)
  = totalLength tokens + String.length current
  /\ (Forall (fun t => t <> "") tokens ->
      Forall (fun t => t <> "") (pushCurrent tokens current)).
Proof.
  unfold pushCurrent. destruct current as [|c r]; simpl.
  - split; [lia|auto].
  - split.
    + rewrite totalLength_app. simpl. lia.
    + intro H. apply Forall_app. split; [exact H|].
      constructor; [discriminate|constructor].
Qed.

Lemma tokenizeLoop_spec (text : string) (tokens : list string)
    (current : string) :
  Forall (fun t => t <> "") tokens ->
  totalLength (tokenizeLoop text tokens current)
  <= totalLength tokens + String.length current + String.length text
  /\ Forall (fun t => t <> "") (tokenizeLoop text tokens current).
Proof.
  revert tokens current.
  induction text as [|char rest IH]; intros tokens current H; simpl.
  - destruct (pushCurrent_spec tokens current) as [E F]. split; [lia|auto].
  - destruct (pushCurrent_spec tokens current) as [E F]. specialize (F H).
    destruct (isPunctuation char).
    + destruct (IH (pushCurrent tokens current ++ [String char ""]) "")
        as [L G].
      { apply Forall_app. split; [exact F|].
        constructor; [discriminate|constructor]. }
      split; [|exact G]. rewrite totalLength_app in L. simpl in L. lia.
    + destruct (Ascii.eqb char " ").
      * destruct (IH (pushCurrent tokens current) "" F) as [L G].
        split; [|exact G]. simpl in L. lia.
      * destruct (IH tokens (current ++ String char "")%string H) as [L G].
        split; [|exact G]. rewrite string_append_length in L. simpl in L.
        lia.
Qed.

Lemma short_elements (l : list string) (n : nat) (x : string) :
  Forall (fun t => t <> "") l -> totalLength l <= n ->
  2 <= List.length l -> In x l -> String.length x < n.
Proof.
  intros Hne Hlen H2 Hin.
  assert (Hpos : forall t, t <> "" -> 0 < String.length t)
    by (intros [|c r] Ht; simpl; [congruence|lia]).
  apply in_split in Hin. destruct Hin as [l1 [l2 ->]].
  rewrite totalLength_app in Hlen. simpl in Hlen.
  apply Forall_app in Hne. destruct Hne as [H1 Hx].
  inversion Hx as [|? ? _ Hl2]; subst.
  rewrite length_app in H2. simpl in H2.
  destruct l1 as [|a l1].
  - destruct l2 as [|b l2]; simpl in *; [lia|].
    inversion Hl2; subst. pose proof (Hpos b ltac:(assumption)). lia.
  - inversion H1; subst. pose proof (Hpos a ltac:(assumption)).
    simpl in Hlen. lia.
Qed.

(** No token of a trimmed text but the last can have the normal form of the
    whole text. *)
Lemma tokens_differ (x : string) :
  Forall (fun tok => normalize tok <> normalize (JS.trim x))
         (removelast (tokenize (JS.trim x))).
Proof.
  set (t := JS.trim x).
  destruct (tokenizeLoop_spec t [] "" (Forall_nil _)) as [L G].
  fold (tokenize t) in L, G. simpl in L.
  apply Forall_forall. intros tok Hin.
  assert (H2 : 2 <= List.length (tokenize t)).
  { destruct (tokenize t) as [|a [|b l]]; simpl in *; try contradiction.
    lia. }
  assert (Hin' : In tok (tokenize t)).
  { clear - Hin. induction (tokenize t) as [|a l IH]; simpl in *; auto.
    destruct l; simpl in *; [contradiction|].
    destruct Hin as [->|Hin]; auto. }
  pose proof (short_elements _ _ tok G L H2 Hin') as Hs.
  pose proof (normalize_length tok) as Hn.
  intro E. unfold t in E. rewrite normalize_trim in E.
  rewrite E, toLowerCase_length in Hn. fold t in Hn. lia.
Qed.

(** ** A store with one phrase

    The state of a store while one text is taken in from the dead state:
    the first node is the phrase of the text, the only node of type
    [phrase], without parent, and no sequential edge leaves it. *)

Lemma core_fields (a b : Node.t) :
  core a = core b ->
  Node.id a = Node.id b /\ Node.content a = Node.content b
  /\ Node.type a = Node.type b /\ Node.parentId a = Node.parentId b
  /\ Node.stabilityWeight a = Node.stabilityWeight b.
Proof.
  unfold core. intro H. inversion H. auto.
Qed.

Lemma solo_phrase_fields (pid t : string) (s : Store) :
  solo pid t s ->
  Node.id (deref s 0) = pid /\ Node.content (deref s 0) = t
  /\ Node.type (deref s 0) = phrase /\ Node.parentId (deref s 0) = None
  /\ Node.stabilityWeight (deref s 0) = calculateInitialStabilityWeight.
Proof.
  intro H. pose proof (solo_phrase _ _ _ H) as E. unfold core in E.
  inversion E. auto.
Qed.

Lemma core_updNode (r r' : ref) (f : Node.t -> Node.t) (s : Store) :
  benign f -> core (deref (updNode r f s) r') = core (deref s r').
Proof.
  intro Hf. unfold deref, updNode. simpl. rewrite nth_updateAt.
  destruct (r' =? r) eqn:E; simpl; [|reflexivity].
  apply Nat.eqb_eq in E. subst r'.
  destruct (r <? _); [apply Hf|reflexivity].
Qed.

Lemma solo_frame (pid t : string) (s s' : Store) :
  solo pid t s ->
  nodes s' = nodes s ->
  (forall r, core (deref s' r) = core (deref s r)) ->
  Forall (harmless pid) (edges s') ->
  List.length (heap s') = List.length (heap s) ->
  solo pid t s'.
Proof.
  intros [Hp Hn Hm Hph Ho He Hh] En Ec Ee El. constructor; auto.
  - rewrite En. exact Hm.
  - rewrite Ec. exact Hph.
  - intros r Hr. destruct (core_fields _ _ (Ec r)) as [Ei [_ [Et _]]].
    rewrite Ei, Et. apply Ho. exact Hr.
  - destruct (heap s'); [|discriminate].
    destruct (heap s); [congruence|discriminate].
Qed.

Lemma solo_updNode (pid t : string) (r : ref) (f : Node.t -> Node.t)
    (s : Store) :
  benign f -> solo pid t s -> solo pid t (updNode r f s).
Proof.
  intros Hf H. apply (solo_frame pid t s); auto.
  - intro r'. apply core_updNode. exact Hf.
  - apply H.
  - simpl. apply updateAt_length.
Qed.

Lemma solo_setTicks (pid t : string) (n : nat) (s : Store) :
  solo pid t s -> solo pid t (setTicks n s).
Proof.
  intro H. apply (solo_frame pid t s); auto. apply H.
Qed.

Lemma solo_updateFieldState (pid t : string) (f : Field.t) (s : Store) :
  solo pid t s -> solo pid t (updateFieldState f s).
Proof.
  intro H. apply (solo_frame pid t s); auto. apply H.
Qed.

Lemma Forall_updateFirst {A} (P : A -> Prop) (p : A -> bool) (f : A -> A)
    (l : list A) :
  (forall x, P x -> P (f x)) -> Forall P l -> Forall P (updateFirst p f l).
Proof.
  intros Hf. induction l as [|x l IH]; intro H; simpl; [constructor|].
  inversion H; subst. destruct (p x); constructor; auto.
Qed.

Lemma solo_createEdge (pid t : string) (fromId toId : string)
    (isSequential : bool) (s : Store) :
  solo pid t s ->
  isSequential = false \/ fromId <> pid ->
  solo pid t (createEdge fromId toId isSequential s).
Proof.
  intros H Hseq. unfold createEdge.
  destruct (find _ (edges s)).
  - apply (solo_frame pid t s); auto. simpl.
    apply Forall_updateFirst; [|apply H].
    intros e He. unfold harmless in *.
    destruct (getNode fromId s); [destruct (getNode toId s)|]; exact He.
  - destruct (getNode fromId s) as [fromNode|]; [|exact H].
    destruct (getNode toId s) as [toNode|]; [|exact H].
    apply solo_updNode; [intro; reflexivity|].
    apply solo_updNode; [intro; reflexivity|].
    apply (solo_frame pid t s); auto. simpl.
    apply Forall_app. split; [apply H|].
    constructor; [|constructor]. unfold harmless. simpl.
    destruct Hseq; [auto|contradiction].
Qed.

Lemma solo_phraseNodes (pid t : string) (s : Store) :
  solo pid t s -> getPhraseNodes s = [0].
Proof.
  intro H. destruct (solo_phrase_fields _ _ _ H) as [_ [_ [Et _]]].
  destruct H as [Hp Hn [rest [Em Hrest]] Hph Ho He Hh].
  unfold getPhraseNodes, getAllNodes, StrMap.values. rewrite Em. simpl.
  rewrite Et. simpl. f_equal. apply filter_none.
  intros r Hin. apply in_map_iff in Hin. destruct Hin as [kr [<- Hin]].
  rewrite Forall_forall in Hrest. destruct (Hrest kr Hin) as [_ Hr].
  destruct (Ho (snd kr) Hr) as [Hty _].
  destruct (Node.type (deref s (snd kr))); try reflexivity. congruence.
Qed.

Lemma solo_establishParenthood (pid t : string) (s : Store) :
  solo pid t s -> establishParenthood 0 s = s.
Proof.
  intro H. unfold establishParenthood.
  rewrite (solo_phraseNodes pid t s H). simpl.
  unfold parenthoodStep. rewrite String.eqb_refl. reflexivity.
Qed.

Lemma typeName_differs (c1 c2 : string) (ty1 ty2 : NodeType) (t1 t2 : N) :
  generateId c1 ty1 t1 = generateId c2 ty2 t2 -> ty1 = ty2.
Proof.
  unfold generateId. destruct ty1, ty2; simpl; intro H;
    try reflexivity; discriminate.
Qed.

Section Solo.

Variable tanh : Q -> Q.
Variable dateNow : nat -> N.

Lemma solo_touch (pid t : string) (e : ref) (s : Store) :
  solo pid t s -> solo pid t (touch dateNow e s).
Proof.
  intro H. unfold touch. simpl.
  apply solo_updNode; [intro; reflexivity|].
  apply solo_setTicks.
  apply solo_updNode; [intro; reflexivity|]. exact H.
Qed.

Lemma solo_insertNode (pid t : string) (node : Node.t) (s : Store) :
  Node.type node <> phrase -> Node.id node <> pid ->
  solo pid t s -> solo pid t (snd (insertNode node s)).
Proof.
  intros Hty Hid [Hp Hn [rest [Em Hrest]] Hph Ho He Hh].
  assert (Hlen : List.length (heap s) <> 0)
    by (destruct (heap s); simpl; congruence).
  constructor; simpl; auto.
  - rewrite Em. simpl.
    destruct (String.eqb (Node.id node) pid) eqn:E;
      [apply String.eqb_eq in E; contradiction|].
    eexists. split; [reflexivity|].
    apply StrMap_set_Forall; [simpl; auto|exact Hrest].
  - unfold deref in *. simpl. rewrite app_nth1 by lia. exact Hph.
  - intros r Hr. specialize (Ho r Hr). unfold deref in *. simpl.
    destruct (Nat.lt_ge_cases r (List.length (heap s))) as [Hlt|Hge].
    + rewrite app_nth1 by exact Hlt. exact Ho.
    + rewrite app_nth2 by exact Hge.
      destruct (r - List.length (heap s)) as [|[|k]]; simpl; auto;
        (split; [discriminate|congruence]).
  - destruct (heap s); discriminate.
Qed.

(** A token becomes a node which is not the phrase, unless the token has
    the normal form of the phrase. *)
Lemma solo_createNode (pid t token : string) (type : NodeType) (s : Store) :
  type <> phrase ->
  solo pid t s ->
  solo pid t (snd (createNode tanh dateNow token type None s))
  /\ (normalize token <> normalize t ->
      fst (createNode tanh dateNow token type None s) <> 0).
Proof.
  intros Hty H.
  destruct (findNodeByContent token s) as [e|] eqn:E.
  - rewrite (createNode_found tanh dateNow token type None s e E).
    cbn [fst snd]. split; [apply solo_touch; exact H|].
    intros Hne ->. apply Hne.
    destruct (findNodeByContent_some _ _ _ E) as [_ <-].
    destruct (solo_phrase_fields _ _ _ H) as [_ [Ec _]].
    rewrite Ec. reflexivity.
  - rewrite (createNode_fresh tanh dateNow token type None s E).
    cbn [fst snd linkToParent]. split.
    + apply solo_insertNode; [exact Hty| |apply solo_setTicks; exact H].
      apply (solo_pid _ _ _ H). exact Hty.
    + intros _ E0. apply (solo_heap _ _ _ H).
      destruct (heap s); [reflexivity|discriminate].
Qed.

Lemma solo_processTokens (pid t : string) (tokens : list string)
    (previous : option ref) (created : list ref) (s : Store) :
  solo pid t s ->
  Forall (fun tok => normalize tok <> normalize t) (removelast tokens) ->
  (forall p, previous = Some p -> p <> 0) ->
  solo pid t
    (snd (processTokens tanh dateNow tokens 0 previous created s)).
Proof.
  revert previous created s.
  induction tokens as [|token rest IH];
    intros previous created s H Htok Hprev; [exact H|].
  cbn [processTokens].
  assert (Hty : (if isWord token then word else punctuation) <> phrase)
    by (destruct (isWord token); discriminate).
  destruct (solo_createNode pid t token _ s Hty H) as [H1 Hw].
  destruct (createNode tanh dateNow token _ None s) as [wordNode s1].
  cbn [fst snd] in H1, Hw.
  assert (H2 : solo pid t
                 (createEdge (Node.id (deref s1 0))
                             (Node.id (deref s1 wordNode)) false s1))
    by (apply solo_createEdge; auto).
  assert (H3 : solo pid t
    match previous with
    | Some p =>
        createEdge
          (Node.id (deref (createEdge (Node.id (deref s1 0))
                             (Node.id (deref s1 wordNode)) false s1) p))
          (Node.id (deref (createEdge (Node.id (deref s1 0))
                             (Node.id (deref s1 wordNode)) false s1)
                          wordNode))
          true
          (createEdge (Node.id (deref s1 0))
                      (Node.id (deref s1 wordNode)) false s1)
    | None =>
        createEdge (Node.id (deref s1 0))
                   (Node.id (deref s1 wordNode)) false s1
    end).
  { destruct previous as [p|]; [|exact H2].
    apply solo_createEdge; [exact H2|]. right.
    apply (solo_others _ _ _ H2). apply Hprev. reflexivity. }
  destruct rest as [|token' rest'].
  - exact H3.
  - apply IH; [exact H3| |].
    + inversion Htok; subst. assumption.
    + intros p Hp. inversion Hp; subst. apply Hw.
      inversion Htok; subst. assumption.
Qed.

End Solo.

Arguments generateId : simpl never.

Section DeadState.

Variable tanh : Q -> Q.
Variable dateNow : nat -> N.

Lemma generateId_named (c : string) (ty : NodeType) (time : N) :
  generateId c ty time <> "".
Proof.
  unfold generateId. destruct ty; discriminate.
Qed.

(** The first text taken in by a blank store. *)
Lemma solo_first (x : string) (s : Store) :
  blank s -> JS.truthy (JS.trim x) = true ->
  solo (generateId (JS.trim x) phrase (dateNow (ticks s))) (JS.trim x)
       (snd (processInput tanh dateNow x s)).
Proof.
  intros [Eh [En Ee]] Hx. unfold processInput. rewrite Hx. cbn [negb].
  assert (Hnone : findNodeByContent (JS.trim x) s = None)
    by (unfold findNodeByContent, getAllNodes; rewrite En; reflexivity).
  rewrite (createNode_fresh tanh dateNow _ phrase None s Hnone), Eh.
  cbn [List.length linkToParent].
  set (pid := generateId (JS.trim x) phrase (dateNow (ticks s))).
  set (s1 := snd (insertNode _ _)).
  assert (H1 : solo pid (JS.trim x) s1).
  { subst s1. unfold insertNode. cbn [snd]. constructor.
    - intros c ty time Hty E. apply Hty.
      exact (typeName_differs _ _ _ _ _ _ E).
    - apply generateId_named.
    - exists []. cbn. rewrite En, Eh. split; [reflexivity|constructor].
    - unfold deref. cbn. rewrite Eh. reflexivity.
    - intros r Hr. unfold deref. cbn. rewrite Eh. cbn.
      destruct r as [|[|r]]; [congruence| |]; cbn;
        (split; [discriminate|]); intro E; symmetry in E;
        exact (generateId_named _ _ _ E).
    - cbn. rewrite Ee. constructor.
    - cbn. rewrite Eh. discriminate. }
  match goal with
  | |- context [processTokens ?a ?b ?c ?d ?e ?f ?g] =>
      pose proof (solo_processTokens a b pid (JS.trim x) c e f g H1
                    (tokens_differ x) ltac:(discriminate)) as H2;
      destruct (processTokens a b c d e f g) as [created s2]
  end.
  cbn [fst snd] in *.
  rewrite (solo_establishParenthood pid (JS.trim x) s2 H2). exact H2.
Qed.

(** The same text taken in again. *)
Lemma solo_again (pid x : string) (s : Store) :
  solo pid (JS.trim x) s ->
  solo pid (JS.trim x) (snd (processInput tanh dateNow x s)).
Proof.
  intro H. unfold processInput.
  destruct (negb (JS.truthy (JS.trim x))); [exact H|].
  assert (Hfound : findNodeByContent (JS.trim x) s = Some 0).
  { destruct (solo_phrase_fields _ _ _ H) as [_ [Ec _]].
    destruct (solo_map _ _ _ H) as [rest [Em _]].
    unfold findNodeByContent, getAllNodes. rewrite Em. cbn.
    rewrite Ec, String.eqb_refl. reflexivity. }
  rewrite (createNode_found tanh dateNow _ phrase None s 0 Hfound).
  match goal with
  | |- context [processTokens ?a ?b ?c ?d ?e ?f ?g] =>
      pose proof (solo_processTokens a b pid (JS.trim x) c e f g
                    (solo_touch dateNow pid _ 0 s H)
                    (tokens_differ x) ltac:(discriminate)) as H2;
      destruct (processTokens a b c d e f g) as [created s2]
  end.
  cbn [fst snd] in *.
  rewrite (solo_establishParenthood pid (JS.trim x) s2 H2). exact H2.
Qed.

Lemma solo_evolveStep (pid t : string) (state : Field.t) (history : list Q)
    (s : Store) (node : ref) :
  solo pid t s -> solo pid t (evolveStep state history s node).
Proof.
  intro H. unfold evolveStep, updateNodeFieldValue.
  destruct (getNode _ _).
  - apply solo_updNode; [intro; reflexivity|].
    apply solo_updateFieldState. exact H.
  - apply solo_updateFieldState. exact H.
Qed.

Lemma solo_evolveField (pid x : string) (s : Store) :
  solo pid (JS.trim x) s ->
  solo pid (JS.trim x) (evolveField tanh dateNow x s).
Proof.
  intro H. unfold evolveField.
  pose proof (solo_again pid x s H) as H1.
  destruct (processInput tanh dateNow x s) as [created s1].
  cbn [snd] in H1.
  destruct (_ =? _); [exact H1|].
  apply fold_left_invariant; [|exact H1].
  intros. apply solo_evolveStep. assumption.
Qed.

End DeadState.

(** *** The answer of a store with one phrase *)

Lemma solo_no_link (pid t : string) (s : Store) :
  solo pid t s -> getStrongestLink pid s = None.
Proof.
  intro H. unfold getStrongestLink, getSequentialEdges.
  rewrite filter_none; [reflexivity|].
  intros e Hin. pose proof (solo_edges _ _ _ H) as He.
  rewrite Forall_forall in He. specialize (He e Hin). unfold harmless in He.
  destruct (String.eqb (Edge.fromId e) pid) eqn:E; [|reflexivity].
  apply String.eqb_eq in E. rewrite (He E). reflexivity.
Qed.

Lemma solo_matches (pid t x : string) (s : Store) :
  solo pid t s ->
  JS.trim (JS.toLowerCase x) = JS.toLowerCase t ->
  findMatchingPhrases x s = [0].
Proof.
  intros H Hx. unfold findMatchingPhrases, collectMatches.
  rewrite (solo_phraseNodes pid t s H). cbn [fold_left].
  unfold matchScore.
  destruct (solo_phrase_fields _ _ _ H) as [_ [Ec _]].
  rewrite Ec, Hx, String.eqb_refl. reflexivity.
Qed.

Lemma solo_response (pid t x : string) (s : Store) (fuel : nat) :
  solo pid t s ->
  JS.trim (JS.toLowerCase x) = JS.toLowerCase t ->
  0 < fuel ->
  generateResponse fuel x s = Some t.
Proof.
  intros H Hx Hfuel. unfold generateResponse.
  destruct (solo_map _ _ _ H) as [rest [Em _]].
  destruct (solo_phrase_fields _ _ _ H) as [Ei [Ec [_ [Ep Es]]]].
  unfold getAllNodes at 1. rewrite Em. cbn [StrMap.values map List.length
    Nat.eqb].
  rewrite (solo_matches pid t x s H Hx). cbn [List.length Nat.eqb].
  unfold buildCandidates. cbn [flat_map]. unfold candidatesOf.
  rewrite Ei. unfold buildChain. cbn [buildChainLoop JS.has existsb].
  rewrite (solo_no_link pid t s H). cbn.
  unfold getFallbackResponse. cbn [List.length Nat.eqb climbAll].
  destruct fuel as [|fuel]; [lia|]. cbn [climb].
  unfold parentOf. rewrite Ep, Es. cbn. rewrite Ec. reflexivity.
Qed.

(** ** The first answer of an engine *)

Lemma blank_dead : blank (store deadLLM).
Proof.
  repeat split.
Qed.

Lemma blank_clearMemory (w : LLM) : blank (store (clearMemory w)).
Proof.
  repeat split.
Qed.

Section FirstAnswer.

Variable tanh : Q -> Q.
Variable dateNow : nat -> N.

(** C1, as the code has it.  On an engine whose store is blank (the dead
    state, or any engine after [clearMemory]), [respond] returns, for a
    text that is not empty, the text without its leading and trailing
    white space, or the text itself when it is made of white space only;
    so a text without white space around it is returned as it is. *)
Theorem respond_fresh_trims (w : LLM) (x : string) (fuel : nat) :
  blank (store w) -> x <> "" -> 0 < fuel ->
  fst (respond tanh dateNow fuel x w)
  = Some (if JS.truthy (JS.trim x) then JS.trim x else x)
  /\ (JS.trim x = x -> fst (respond tanh dateNow fuel x w) = Some x).
Proof.
  intros Hb _ Hfuel.
  assert (E : fst (respond tanh dateNow fuel x w)
              = Some (if JS.truthy (JS.trim x) then JS.trim x else x)).
  { unfold respond.
    destruct (JS.truthy (JS.trim x)) eqn:Hx.
    - pose proof (solo_first tanh dateNow x (store w) Hb Hx) as H1.
      destruct (processInput tanh dateNow x (store w)) as [created s1].
      cbn [fst snd] in *.
      eapply solo_response;
        [apply solo_evolveField; exact H1|apply trim_toLowerCase|exact Hfuel].
    - unfold evolveField, processInput. rewrite Hx. cbn.
      unfold generateResponse, getAllNodes.
      destruct Hb as [_ [-> _]]. reflexivity. }
  split; [exact E|].
  intro Ht. rewrite E, Ht. destruct (JS.truthy x); reflexivity.
Qed.

End FirstAnswer.

Lemma respond_fresh_trims_witness :
  blank (store deadLLM) /\ "hi" <> "" /\ 0 < 1
  /\ fst (respond squash frozenClock 1 "hi" deadLLM) = Some "hi".
Proof.
  assert (Hb : blank (store deadLLM)) by exact blank_dead.
  assert (Hx : "hi" <> "") by discriminate.
  assert (Hf : 0 < 1) by lia.
  split; [exact Hb|]. split; [exact Hx|]. split; [exact Hf|].
  exact (proj2 (respond_fresh_trims squash frozenClock deadLLM "hi" 1
                  Hb Hx Hf) eq_refl).
Defined.

(** C1, as the specification has it, fails: the answer of the dead engine
    to a text with a leading space is the text without the space. *)
Lemma respond_fresh_not_exact :
  " a" <> ""
  /\ fst (respond squash frozenClock 1 " a" deadLLM) = Some "a"
  /\ fst (respond squash frozenClock 1 " a" deadLLM) <> Some " a".
Proof.
  split; [discriminate|].
  assert (E : fst (respond squash frozenClock 1 " a" deadLLM) = Some "a")
    by (vm_compute; reflexivity).
  split; [exact E|]. rewrite E. discriminate.
Qed.

(** ** Empty input *)

Section EmptyInput.

Variable tanh : Q -> Q.
Variable dateNow : nat -> N.

Lemma processInput_blank (x : string) (s : Store) :
  JS.trim x = "" -> processInput tanh dateNow x s = ([], s).
Proof.
  intro H. unfold processInput. rewrite H. reflexivity.
Qed.

(** C7, as the code has it.  For a text that is empty or made of white
    space, [processInput] creates nothing and returns no node, and
    [respond] leaves the whole engine as it was (no node, no edge, no
    change of the field), whatever the store; [respond] returns the text
    itself when the store has no node. *)
Theorem blank_input_changes_nothing (x : string) (w : LLM) (fuel : nat) :
  JS.trim x = "" ->
  processInput tanh dateNow x (store w) = ([], store w)
  /\ snd (respond tanh dateNow fuel x w) = w
  /\ (nodes (store w) = [] ->
      fst (respond tanh dateNow fuel x w) = Some x).
Proof.
  intro H. split; [apply processInput_blank; exact H|].
  unfold respond, evolveField. rewrite !processInput_blank by exact H.
  cbn. split; [destruct w; reflexivity|].
  intro En. unfold generateResponse, getAllNodes. rewrite En. reflexivity.
Qed.

End EmptyInput.

Lemma blank_input_changes_nothing_witness :
  JS.trim "   " = ""
  /\ snd (respond squash frozenClock 1 "   " hiEngine) = hiEngine.
Proof.
  assert (H : JS.trim "   " = "") by reflexivity.
  split; [exact H|].
  exact (proj1 (proj2 (blank_input_changes_nothing squash frozenClock
                         "   " hiEngine 1 H))).
Defined.

(** C7, as the specification has it, fails: once the store holds the
    phrase "hi", the answer to the empty text is "hi", since every phrase
    contains the empty string. *)
Lemma blank_input_not_echoed :
  JS.trim "" = ""
  /\ reachable squash frozenClock hiEngine
  /\ fst (respond squash frozenClock 1 "" hiEngine) = Some "hi"
  /\ fst (respond squash frozenClock 1 "" hiEngine) <> Some "".
Proof.
  split; [reflexivity|].
  split; [apply reach_respond, reach_dead|].
  assert (E : fst (respond squash frozenClock 1 "" hiEngine) = Some "hi")
    by (vm_compute; reflexivity).
  split; [exact E|]. rewrite E. discriminate.
Qed.

(** ** Edges *)

Lemma updateFirst_length {A} (p : A -> bool) (f : A -> A) (l : list A) :
  List.length (updateFirst p f l) = List.length l.
Proof.
  induction l as [|x l IH]; simpl; [reflexivity|].
  destruct (p x); simpl; congruence.
Qed.

Lemma updateFirst_find {A} (p : A -> bool) (f : A -> A) (l : list A) (x : A) :
  (forall y, p (f y) = p y) ->
  find p l = Some x -> find p (updateFirst p f l) = Some (f x).
Proof.
  intro Hf. induction l as [|y l IH]; simpl; [discriminate|].
  destruct (p y) eqn:E; simpl.
  - intro H. inversion H; subst. rewrite Hf, E. reflexivity.
  - rewrite E. exact IH.
Qed.

Lemma updateFirst_count {A} (p : A -> bool) (f : A -> A) (l : list A) :
  (forall y, p (f y) = p y) ->
  List.length (filter p (updateFirst p f l)) = List.length (filter p l).
Proof.
  intro Hf. induction l as [|y l IH]; simpl; [reflexivity|].
  destruct (p y) eqn:E; simpl.
  - rewrite Hf, E. reflexivity.
  - rewrite E. exact IH.
Qed.

(** What a repeated [createEdge] does by design: the edge of the ordered
    pair gains 0.1 of strength, its curvature becomes the gap between the
    signatures of its ends, and no edge is added.  The node objects are
    left as they were. *)
Lemma createEdge_strengthens (s : Store) (a b : string) (isSequential : bool)
    (e : Edge.t) (ra rb : ref) :
  find (sameEnds a b) (edges s) = Some e ->
  getNode a s = Some ra -> getNode b s = Some rb ->
  find (sameEnds a b) (edges (createEdge a b isSequential s))
  = Some (Edge.mk (Edge.fromId e) (Edge.toId e) (Edge.strength e + 0.1)
                  (signatureGap s ra rb) (Edge.isSequential e))
  /\ List.length (edges (createEdge a b isSequential s))
     = List.length (edges s)
  /\ List.length (filter (sameEnds a b)
                         (edges (createEdge a b isSequential s)))
     = List.length (filter (sameEnds a b) (edges s))
  /\ heap (createEdge a b isSequential s) = heap s.
Proof.
  intros He Ha Hb. unfold createEdge. rewrite He, Ha, Hb. cbn [edges setEdges].
  split; [|split; [|split]].
  - apply (updateFirst_find (sameEnds a b)
             (fun e0 => Edge.mk (Edge.fromId e0) (Edge.toId e0)
                          (Edge.strength e0 + 0.1) (signatureGap s ra rb)
                          (Edge.isSequential e0)));
      [reflexivity|exact He].
  - apply updateFirst_length.
  - apply updateFirst_count. reflexivity.
  - reflexivity.
Qed.

(** C5 on the code.  After [createEdge(a, b)] twice, the one edge of the
    pair has the strength 1.1, but the neighbor-strength maps of both ends
    still hold 1.0, the value set when the edge was created: the branch
    that strengthens an edge does not update them. *)
Theorem createEdge_repeat_stale_links :
  (exists e,
     edges linkedTwice = [e]
     /\ (Edge.strength e == 1.1)%Q
     /\ (Edge.curvature e ==
         Qabs (Node.curvatureSignature (deref linkedTwice 0%nat)
               - Node.curvatureSignature (deref linkedTwice 1%nat)))%Q)
  /\ getNode idOfA linkedTwice = Some 0
  /\ getNode idOfB linkedTwice = Some 1
  /\ StrMap.get idOfB (Node.linkStrengths (deref linkedTwice 0)) = Some 1.0%Q
  /\ StrMap.get idOfA (Node.linkStrengths (deref linkedTwice 1)) = Some 1.0%Q
  /\ heap linkedTwice = heap linkedOnce.
Proof.
  split.
  - eexists. split; [vm_compute; reflexivity|].
    split; vm_compute; reflexivity.
  - split; [vm_compute; reflexivity|].
    split; [vm_compute; reflexivity|].
    split; [vm_compute; reflexivity|].
    split; vm_compute; reflexivity.
Qed.

(** ** Parents *)

(** C8.  The second test of [establishParenthood] makes the longer phrase
    the parent, against the comment at its call (the parents to find are
    the shorter versions) and against its first test.  After [respond("abc")] and
    [respond("ab")], an engine reached from the dead state, the node "ab"
    has the stored phrase "abc" as its parent: the parent is longer than
    the node and contains its content, it is not a substring of it. *)
Theorem parent_can_be_longer :
  reachable squash frozenClock nestedEngine
  /\ In 1 (getAllNodes (store nestedEngine))
  /\ Node.content (deref (store nestedEngine) 1) = "ab"
  /\ Node.parentId (deref (store nestedEngine) 1)
     = Some (Node.id (deref (store nestedEngine) 0))
  /\ getNode (Node.id (deref (store nestedEngine) 0)) (store nestedEngine)
     = Some 0
  /\ Node.type (deref (store nestedEngine) 0) = phrase
  /\ Node.content (deref (store nestedEngine) 0) = "abc"
  /\ JS.includes "ab" "abc" = false
  /\ JS.includes "abc" "ab" = true.
Proof.
  split; [apply reach_respond, reach_respond, reach_dead|].
  split; [vm_compute; auto|].
  split; [vm_compute; reflexivity|].
  split; [vm_compute; reflexivity|].
  split; [vm_compute; reflexivity|].
  split; [vm_compute; reflexivity|].
  split; [vm_compute; reflexivity|].
  split; vm_compute; reflexivity.
Qed.

(** A walk up the parents that enters a cycle of two nodes does not end. *)
Lemma climb_cycle (s : Store) (a b : ref) :
  parentOf s a = Some b -> parentOf s b = Some a ->
  forall fuel best,
    climb fuel s a best = None /\ climb fuel s b best = None.
Proof.
  intros Hab Hba. induction fuel as [|fuel IH]; intro best.
  - split; reflexivity.
  - cbn [climb]. rewrite Hab, Hba. split; apply IH.
Qed.

(** The two branches of [establishParenthood] together make such a cycle:
    after [respond("ab")] and [respond("abc")], "abc" is the child of
    "ab"; a further [respond("ab")] makes "ab" the child of "abc", and its
    walk of the fallback never ends. *)
Lemma respond_can_hang (fuel : nat) :
  reachable squash frozenClock abThenAbc
  /\ fst (respond squash frozenClock fuel "ab" abThenAbc) = None.
Proof.
  split; [apply reach_respond, reach_respond, reach_dead|].
  unfold respond.
  destruct (processInput squash frozenClock "ab" (store abThenAbc))
    as [created s1] eqn:E1.
  cbn [fst].
  set (s := evolveField squash frozenClock "ab" s1).
  assert (Es : s = evolveField squash frozenClock "ab"
                     (snd (processInput squash frozenClock "ab"
                             (store abThenAbc))))
    by (rewrite E1; reflexivity).
  clearbody s. clear E1 created s1.
  assert (F1 : (List.length (getAllNodes s) =? 0) = false)
    by (rewrite Es; lazy; reflexivity).
  assert (F2 : findMatchingPhrases "ab" s = [0; 1])
    by (rewrite Es; lazy; reflexivity).
  assert (F3 : filter (isStable s) (buildCandidates s [0; 1]) = [])
    by (rewrite Es; lazy; reflexivity).
  assert (F4 : parentOf s 0 = Some 1)
    by (rewrite Es; lazy; reflexivity).
  assert (F5 : parentOf s 1 = Some 0)
    by (rewrite Es; lazy; reflexivity).
  unfold generateResponse. rewrite F1, F2. cbn [List.length Nat.eqb].
  rewrite F3. cbn [JS.sort].
  unfold getFallbackResponse. cbn [List.length Nat.eqb climbAll].
  rewrite (proj1 (climb_cycle s 0 1 F4 F5 fuel (None, 0%Q))). reflexivity.
Qed.

(** ** Matching phrases *)

Lemma insertBy_perm {A} (cmp : A -> A -> Q) (x : A) (l : list A) :
  Permutation (JS.insertBy cmp x l) (x :: l).
Proof.
  induction l as [|y l IH]; simpl; [reflexivity|].
  destruct (Qle_bool _ _); [reflexivity|].
  rewrite IH. apply perm_swap.
Qed.

Lemma sort_perm {A} (cmp : A -> A -> Q) (l : list A) :
  Permutation (JS.sort cmp l) l.
Proof.
  induction l as [|x l IH]; simpl; [reflexivity|].
  rewrite insertBy_perm. constructor. exact IH.
Qed.

(** Sorting with the comparator [(a, b) => key b - key a] puts the
    larger keys first. *)
Lemma insertBy_sorted {A} (key : A -> Q) (x : A) (l : list A) :
  StronglySorted (fun a b => (key b <= key a)%Q) l ->
  StronglySorted (fun a b => (key b <= key a)%Q)
                 (JS.insertBy (fun a b => (key b - key a)%Q) x l).
Proof.
  induction l as [|y l IH]; intro H; simpl.
  - constructor; constructor.
  - inversion H as [|? ? Hs Hall]; subst.
    destruct (Qle_bool (key y - key x) 0) eqn:E.
    + apply Qle_bool_iff in E.
      assert (Hxy : (key y <= key x)%Q) by lra.
      constructor; [exact H|]. constructor; [exact Hxy|].
      eapply Forall_impl; [|exact Hall].
      intros z Hz. simpl in Hz. lra.
    + assert (Hyx : (key x <= key y)%Q).
      { destruct (Qlt_le_dec (key y) (key x)) as [Hlt|Hle]; [|exact Hle].
        assert (Hb : Qle_bool (key y - key x) 0 = true)
          by (apply Qle_bool_iff; lra).
        congruence. }
      constructor; [apply IH; exact Hs|].
      rewrite (insertBy_perm (fun a b => (key b - key a)%Q) x l).
      constructor; assumption.
Qed.

Lemma sort_sorted {A} (key : A -> Q) (l : list A) :
  StronglySorted (fun a b => (key b <= key a)%Q)
                 (JS.sort (fun a b => (key b - key a)%Q) l).
Proof.
  induction l as [|x l IH]; simpl; [constructor|].
  apply insertBy_sorted. exact IH.
Qed.

Lemma count_fold (p : string -> bool) (l : list string) (a : nat) :
  fold_left (fun n w => if p w then S n else n) l a
  = a + List.length (filter p l).
Proof.
  revert a. induction l as [|w l IH]; intro a; simpl; [lia|].
  rewrite IH. destruct (p w); simpl; lia.
Qed.

Lemma has_In (set : list string) (x : string) :
  JS.has set x = true <-> In x set.
Proof.
  unfold JS.has. rewrite existsb_exists. split.
  - intros [y [Hin E]]. apply String.eqb_eq in E. subst. exact Hin.
  - intro H. exists x. split; [exact H|apply String.eqb_refl].
Qed.

Lemma distinct_In (seen l : list string) (x : string) :
  In x (JS.distinct seen l) <-> In x seen \/ In x l.
Proof.
  revert seen. induction l as [|y l IH]; intro seen; simpl.
  - tauto.
  - destruct (existsb (String.eqb y) seen) eqn:E.
    + rewrite IH. apply has_In in E. split; [tauto|].
      intros [H|[->|H]]; auto.
    + rewrite IH, in_app_iff. simpl. tauto.
Qed.

Lemma distinct_NoDup (seen l : list string) :
  NoDup seen -> NoDup (JS.distinct seen l).
Proof.
  revert seen. induction l as [|y l IH]; intros seen H; simpl; [exact H|].
  destruct (existsb (String.eqb y) seen) eqn:E; [apply IH; exact H|].
  apply IH. apply NoDup_app; [exact H|constructor; [intros []|constructor]|].
  intros z Hz [<-|[]].
  apply has_In in Hz. unfold JS.has in Hz. congruence.
Qed.

Lemma distinct_count (l : list string) :
  List.length (JS.distinct [] l) = Spec.distinctWords l.
Proof.
  unfold Spec.distinctWords. apply Permutation_length.
  apply NoDup_Permutation.
  - apply distinct_NoDup. constructor.
  - apply NoDup_nodup.
  - intro x. rewrite distinct_In, nodup_In. simpl. tauto.
Qed.

Lemma has_distinct (l : list string) (w : string) :
  JS.has (JS.distinct [] l) w = existsb (String.eqb w) l.
Proof.
  destruct (existsb (String.eqb w) l) eqn:E.
  - apply has_In. apply distinct_In. right.
    apply existsb_exists in E. destruct E as [y [Hin E]].
    apply String.eqb_eq in E. subst. exact Hin.
  - destruct (JS.has (JS.distinct [] l) w) eqn:E2; [|reflexivity].
    apply has_In, distinct_In in E2. destruct E2 as [[]|Hin].
    assert (existsb (String.eqb w) l = true)
      by (apply existsb_exists; exists w; split;
          [exact Hin|apply String.eqb_refl]).
    congruence.
Qed.

Lemma splitFrom_nonempty (inRun : bool) (s : string) :
  0 < List.length (JS.splitFrom inRun s).
Proof.
  revert inRun. induction s as [|c r IH]; intro inRun; simpl; [lia|].
  destruct (JS.isSpace c).
  - destruct inRun; [apply IH|simpl; lia].
  - destruct (JS.splitFrom false r); simpl; lia.
Qed.

Lemma ofNat_pos (n : nat) : 0 < n -> (0 < ofNat n)%Q.
Proof.
  intro H. unfold ofNat, Qlt. simpl. lia.
Qed.

Lemma ofNat_zero : (ofNat 0 == 0)%Q.
Proof.
  reflexivity.
Qed.

(** The code gives a phrase the score of the specification, and leaves out
    the phrases that are not [kept]. *)
Lemma matchScore_spec (normalized : string) (n : Node.t) :
  matchScore normalized n
  = if kept normalized (JS.toLowerCase (Node.content n))
    then Some (Spec.phraseScore normalized (JS.toLowerCase (Node.content n)))
    else None.
Proof.
  unfold matchScore, kept, Spec.matchesWhole, Spec.phraseScore,
    Spec.contained.
  set (pc := JS.toLowerCase (Node.content n)).
  destruct (String.eqb pc normalized); [reflexivity|].
  destruct (JS.includes pc normalized || JS.includes normalized pc);
    [reflexivity|].
  cbv zeta. cbn [orb].
  rewrite count_fold, distinct_count. cbn [Nat.add].
  rewrite (filter_ext _ (fun w => existsb (String.eqb w)
                                    (JS.splitWhitespace normalized)))
    by (intro w; apply has_distinct).
  fold (Spec.sharedWords (JS.splitWhitespace normalized)
                         (JS.splitWhitespace pc)).
  set (shared := Spec.sharedWords _ _).
  set (m := Nat.max _ _).
  assert (Hm : (0 < ofNat m)%Q).
  { apply ofNat_pos. subst m.
    pose proof (splitFrom_nonempty false pc). unfold JS.splitWhitespace.
    lia. }
  destruct (0 <? shared) eqn:E.
  - apply Nat.ltb_lt in E.
    assert (Hs : (0 < ofNat shared / ofNat m * 0.5)%Q).
    { apply Qmult_lt_0_compat; [|reflexivity].
      apply Qlt_shift_div_l; [exact Hm|].
      rewrite Qmult_0_l. apply ofNat_pos. exact E. }
    apply Qltb_lt in Hs. rewrite Hs. reflexivity.
  - apply Nat.ltb_ge in E. assert (shared = 0) as -> by lia.
    assert (Hz : (ofNat 0 / ofNat m * 0.5 <= 0)%Q).
    { rewrite ofNat_zero. unfold Qdiv. rewrite !Qmult_0_l. apply Qle_refl. }
    apply Qltb_ge in Hz. rewrite Hz. reflexivity.
Qed.

Lemma collect_fold {A B} (f : A -> option B) (l : list A) (acc : list (A * B)) :
  fold_left
    (fun matches r =>
       match f r with
       | Some score => matches ++ [(r, score)]
       | None => matches
       end) l acc
  = acc ++ flat_map (fun r => match f r with
                              | Some score => [(r, score)]
                              | None => []
                              end) l.
Proof.
  revert acc. induction l as [|r l IH]; intro acc; simpl.
  - rewrite app_nil_r. reflexivity.
  - rewrite IH. destruct (f r); [rewrite <- app_assoc|]; reflexivity.
Qed.

Lemma collectMatches_spec (normalized : string) (s : Store) :
  collectMatches normalized s
  = map (fun r =>
           (r, Spec.phraseScore normalized
                 (JS.toLowerCase (Node.content (deref s r)))))
        (filter (fun r =>
                   kept normalized (JS.toLowerCase (Node.content (deref s r))))
                (getPhraseNodes s)).
Proof.
  unfold collectMatches. rewrite collect_fold. cbn [app].
  induction (getPhraseNodes s) as [|r l IH]; simpl; [reflexivity|].
  rewrite matchScore_spec, IH.
  destruct (kept _ _); reflexivity.
Qed.

Lemma sorted_by_score {A} (score : A -> Q) (l : list (A * Q)) :
  Forall (fun p => snd p = score (fst p)) l ->
  StronglySorted (fun a b => (snd b <= snd a)%Q) l ->
  StronglySorted (fun a b => (score b <= score a)%Q) (map fst l).
Proof.
  induction l as [|p l IH]; intros Hf Hs; simpl; [constructor|].
  inversion Hf as [|? ? Hp Hl]; subst.
  inversion Hs as [|? ? Hs' Hall]; subst.
  constructor; [apply IH; assumption|].
  rewrite Forall_map. rewrite Forall_forall in *.
  intros q Hq. rewrite <- Hp, <- (Hl q Hq). exact (Hall q Hq).
Qed.

(** C6, as the code has it.  [findMatchingPhrases] gives every phrase the
    score of the specification (1.0 for an exact match of the normalized
    strings, the ratio of the lengths when one contains the other, half
    the ratio of the shared words to the larger of the two word counts
    otherwise); it keeps the phrases that match exactly or by containment,
    whatever their score, and among the others those whose score is
    positive; the result is those phrases in the order of descending
    score. *)
Theorem findMatchingPhrases_ranked (input : string) (s : Store) :
  let normalized := JS.trim (JS.toLowerCase input) in
  let contentOf r := JS.toLowerCase (Node.content (deref s r)) in
  let score r := Spec.phraseScore normalized (contentOf r) in
  (forall r,
     matchScore normalized (deref s r)
     = if Spec.matchesWhole normalized (contentOf r) || Qltb 0 (score r)
       then Some (score r) else None)
  /\ Permutation
       (findMatchingPhrases input s)
       (filter (fun r =>
                  Spec.matchesWhole normalized (contentOf r)
                  || Qltb 0 (score r))
               (getPhraseNodes s))
  /\ StronglySorted (fun a b => (score b <= score a)%Q)
                    (findMatchingPhrases input s).
Proof.
  intros normalized contentOf score.
  split; [intro r; apply matchScore_spec|].
  unfold findMatchingPhrases. fold normalized.
  rewrite collectMatches_spec.
  set (chosen := filter _ (getPhraseNodes s)).
  pose (pairs := map (fun r => (r, score r)) chosen).
  match goal with
  | |- context [JS.sort ?cmp ?l] => change l with pairs
  end.
  split.
  - rewrite (sort_perm _ pairs). subst pairs.
    rewrite map_map. cbn [fst]. rewrite map_id. reflexivity.
  - apply sorted_by_score.
    + assert (Hp : Forall (fun p => snd p = score (fst p)) pairs)
        by (subst pairs; rewrite Forall_map; apply Forall_forall;
            intros; reflexivity).
      rewrite Forall_forall in *. intros p Hin. apply Hp.
      eapply Permutation_in; [apply sort_perm|exact Hin].
    + apply (sort_sorted snd).
Qed.

(** C6, as the specification has it, fails: for the empty text, the
    phrase "hi" is in the result although its score is 0. *)
Lemma zero_score_phrase_kept :
  findMatchingPhrases "" (store hiEngine) = [0]
  /\ Node.content (deref (store hiEngine) 0) = "hi"
  /\ (Spec.phraseScore (JS.trim (JS.toLowerCase ""))
        (JS.toLowerCase (Node.content (deref (store hiEngine) 0%nat)))
      == 0)%Q.
Proof.
  split; [lazy; reflexivity|].
  split; [lazy; reflexivity|].
  vm_compute. reflexivity.
Qed.

(** ** Parent references *)

Lemma StrMap_get_In {V} (k : string) (v : V) (m : list (string * V)) :
  StrMap.get k m = Some v -> In (k, v) m.
Proof.
  induction m as [|[k' v'] m IH]; simpl; [discriminate|].
  destruct (String.eqb k k') eqn:E.
  - apply String.eqb_eq in E. subst. intro H. inversion H. auto.
  - auto.
Qed.

Lemma StrMap_In_get {V} (k : string) (v : V) (m : list (string * V)) :
  In (k, v) m -> exists v', StrMap.get k m = Some v'.
Proof.
  induction m as [|[k' v'] m IH]; simpl; [contradiction|].
  intros [H|H].
  - inversion H; subst. rewrite String.eqb_refl. eauto.
  - destruct (String.eqb k k'); eauto.
Qed.

Lemma StrMap_set_In {V} (k k0 : string) (v v0 : V) (m : list (string * V)) :
  In (k, v) (StrMap.set k0 v0 m) -> (k, v) = (k0, v0) \/ In (k, v) m.
Proof.
  induction m as [|[k' v'] m IH]; simpl.
  - intros [H|[]]. left. congruence.
  - destruct (String.eqb k0 k'); simpl.
    + intros [H|H]; [left; congruence|right; right; exact H].
    + intros [H|H]; [right; left; exact H|].
      destruct (IH H); [left; assumption|right; right; assumption].
Qed.

Lemma StrMap_get_set {V} (k k0 : string) (v0 : V) (m : list (string * V)) :
  StrMap.get k (StrMap.set k0 v0 m)
  = if String.eqb k k0 then Some v0 else StrMap.get k m.
Proof.
  induction m as [|[k' v'] m IH]; simpl.
  - reflexivity.
  - destruct (String.eqb k0 k') eqn:E0; simpl.
    + apply String.eqb_eq in E0. subst k'.
      destruct (String.eqb k k0); reflexivity.
    + rewrite IH. destruct (String.eqb k k') eqn:E.
      * apply String.eqb_eq in E. subst k'.
        rewrite String.eqb_sym in E0. rewrite E0. reflexivity.
      * reflexivity.
Qed.

Lemma kin_fields (a b : Node.t) :
  kin a = kin b ->
  Node.id a = Node.id b /\ Node.type a = Node.type b
  /\ Node.parentId a = Node.parentId b.
Proof.
  unfold kin. intro H. inversion H. auto.
Qed.

Lemma kin_updNode (r r' : ref) (f : Node.t -> Node.t) (s : Store) :
  mild f -> kin (deref (updNode r f s) r') = kin (deref s r').
Proof.
  intro Hf. unfold deref, updNode. simpl. rewrite nth_updateAt.
  destruct (r' =? r) eqn:E; simpl; [|reflexivity].
  apply Nat.eqb_eq in E. subst r'.
  destruct (r <? _); [apply Hf|reflexivity].
Qed.

Lemma rooted_frame (s s' : Store) :
  rooted s ->
  nodes s' = nodes s ->
  (forall r, kin (deref s' r) = kin (deref s r)) ->
  List.length (heap s') = List.length (heap s) ->
  rooted s'.
Proof.
  intros [Ha Hn Hp] En Ek El.
  assert (Ht : forall r, Node.type (deref s' r) = Node.type (deref s r))
    by (intro r; apply (kin_fields _ _ (Ek r))).
  constructor.
  - unfold allocated in *. rewrite En, El. exact Ha.
  - intros k r Hin. rewrite En in Hin.
    destruct (kin_fields _ _ (Ek r)) as [Ei [Et _]].
    rewrite Ei, Et. apply Hn. exact Hin.
  - intros r p Epar Htr.
    destruct (kin_fields _ _ (Ek r)) as [_ [_ Ep]]. rewrite Ep in Epar.
    destruct (Hp r p Epar Htr) as [parent [Hg Hty]].
    exists parent. unfold getNode in *. rewrite En, Ht. auto.
Qed.

Lemma rooted_updNode (r : ref) (f : Node.t -> Node.t) (s : Store) :
  mild f -> rooted s -> rooted (updNode r f s).
Proof.
  intros Hf H. apply (rooted_frame s); auto.
  - intro r'. apply kin_updNode. exact Hf.
  - simpl. apply updateAt_length.
Qed.

Lemma rooted_dead : rooted deadStore.
Proof.
  constructor.
  - constructor.
  - intros k r [].
  - intros r p H. unfold deref in H. simpl in H.
    destruct r; discriminate.
Qed.

Lemma rooted_clear (s : Store) : rooted (clear s).
Proof.
  constructor.
  - constructor.
  - intros k r [].
  - intros r p H. unfold deref in H. simpl in H.
    destruct r; discriminate.
Qed.

(** A phrase of the store can be made the parent of a node. *)
Lemma phrase_resolves (s : Store) (existing : ref) :
  rooted s -> phraseInMap s existing ->
  exists parent,
    getNode (Node.id (deref s existing)) s = Some parent
    /\ Node.type (deref s parent) = phrase.
Proof.
  intros [Ha Hn Hp] [Hin Hty].
  unfold getAllNodes, StrMap.values in Hin. apply in_map_iff in Hin.
  destruct Hin as [[k r] [E Hin]]. simpl in E. subst r.
  destruct (Hn k existing Hin) as [Ei [c [t Ek]]].
  destruct (StrMap_In_get _ _ _ Hin) as [parent Hg].
  exists parent. unfold getNode. rewrite Ei. split; [exact Hg|].
  destruct (Hn k parent (StrMap_get_In _ _ _ Hg)) as [_ [c' [t' Ek']]].
  rewrite Hty in Ek. rewrite Ek in Ek'.
  symmetry. exact (typeName_differs _ _ _ _ _ _ Ek').
Qed.

Lemma rooted_setParent (r : ref) (p : string) (s : Store) :
  rooted s ->
  (exists parent, getNode p s = Some parent
                  /\ Node.type (deref s parent) = phrase) ->
  rooted (updNode r (Node.setParentId (Some p)) s).
Proof.
  intros [Ha Hn Hp] Hres.
  assert (Hcases : forall r',
    deref (updNode r (Node.setParentId (Some p)) s) r'
    = Node.setParentId (Some p) (deref s r')
    \/ deref (updNode r (Node.setParentId (Some p)) s) r' = deref s r').
  { intro r'. unfold deref, updNode. simpl. rewrite nth_updateAt.
    destruct (r' =? r) eqn:E; simpl; [|auto].
    apply Nat.eqb_eq in E. subst r'. destruct (r <? _); auto. }
  assert (Ht : forall r',
    Node.type (deref (updNode r (Node.setParentId (Some p)) s) r')
    = Node.type (deref s r')
    /\ Node.id (deref (updNode r (Node.setParentId (Some p)) s) r')
       = Node.id (deref s r'))
    by (intro r'; destruct (Hcases r') as [-> | ->]; auto).
  constructor.
  - unfold allocated in *. simpl. rewrite updateAt_length. exact Ha.
  - intros k r' Hin. destruct (Ht r') as [-> ->]. apply Hn. exact Hin.
  - intros r' q Eq Hq.
    assert (Hold : exists parent,
              getNode q s = Some parent
              /\ Node.type (deref s parent) = phrase).
    { destruct (Hcases r') as [E|E]; rewrite E in Eq.
      - simpl in Eq. inversion Eq; subst. exact Hres.
      - exact (Hp r' q Eq Hq). }
    destruct Hold as [parent [Hg Hty]]. exists parent.
    split; [exact Hg|]. rewrite (proj1 (Ht parent)). exact Hty.
Qed.

Lemma sameShape_refl (s : Store) : sameShape s s.
Proof.
  split; auto.
Qed.

Lemma type_updNode (r r' : ref) (f : Node.t -> Node.t) (s : Store) :
  (forall n, Node.type (f n) = Node.type n) ->
  Node.type (deref (updNode r f s) r') = Node.type (deref s r').
Proof.
  intro Hf. unfold deref, updNode. simpl. rewrite nth_updateAt.
  destruct (r' =? r) eqn:E; simpl; [|reflexivity].
  apply Nat.eqb_eq in E. subst r'.
  destruct (r <? _); [apply Hf|reflexivity].
Qed.

Lemma rooted_createEdge (fromId toId : string) (isSequential : bool)
    (s : Store) :
  rooted s -> rooted (createEdge fromId toId isSequential s).
Proof.
  intro H. unfold createEdge.
  destruct (find _ (edges s)).
  - apply (rooted_frame s); auto.
  - destruct (getNode fromId s); [|exact H].
    destruct (getNode toId s); [|exact H].
    apply rooted_updNode; [intro; reflexivity|].
    apply rooted_updNode; [intro; reflexivity|].
    apply (rooted_frame s); auto.
Qed.

Lemma shape_createEdge (fromId toId : string) (isSequential : bool)
    (s : Store) :
  nodes (createEdge fromId toId isSequential s) = nodes s
  /\ forall r, Node.type (deref (createEdge fromId toId isSequential s) r)
               = Node.type (deref s r).
Proof.
  unfold createEdge.
  destruct (find _ (edges s)); [auto|].
  destruct (getNode fromId s) as [fromNode|]; [|auto].
  destruct (getNode toId s) as [toNode|]; [|auto].
  split; [reflexivity|]. intro r'.
  rewrite type_updNode by (intro; reflexivity).
  rewrite type_updNode by (intro; reflexivity). reflexivity.
Qed.

Lemma rooted_adopt (newPhrase existing : ref) (s : Store) :
  rooted s -> phraseInMap s existing ->
  rooted (adopt newPhrase existing s)
  /\ sameShape s (adopt newPhrase existing s).
Proof.
  intros H Hex. unfold adopt. split.
  - apply rooted_createEdge.
    apply rooted_updNode; [intro; reflexivity|].
    apply rooted_setParent; [exact H|].
    apply phrase_resolves; assumption.
  - destruct (shape_createEdge
                (Node.id (deref s existing)) (Node.id (deref s newPhrase))
                false
                (updNode existing
                   (fun n => Node.setChildIds
                               (Node.childIds n
                                ++ [Node.id (deref s newPhrase)]) n)
                   (updNode newPhrase
                      (Node.setParentId (Some (Node.id (deref s existing))))
                      s))) as [En Et].
    split; [rewrite En; reflexivity|].
    intro r. rewrite Et.
    rewrite type_updNode by (intro; reflexivity).
    apply type_updNode. intro; reflexivity.
Qed.

Lemma rooted_beAdopted (newPhrase existing : ref) (s : Store) :
  rooted s -> phraseInMap s existing ->
  rooted (beAdopted newPhrase existing s)
  /\ sameShape s (beAdopted newPhrase existing s).
Proof.
  intros H Hex. unfold beAdopted.
  set (s1 := updNode existing _ s).
  assert (H1 : rooted s1)
    by (apply rooted_updNode; [intro; reflexivity|exact H]).
  assert (Hres : exists parent,
            getNode (Node.id (deref s existing)) s1 = Some parent
            /\ Node.type (deref s1 parent) = phrase).
  { destruct (phrase_resolves s existing H Hex) as [parent [Hg Hty]].
    exists parent. split; [exact Hg|].
    unfold s1. rewrite type_updNode by (intro; reflexivity). exact Hty. }
  split.
  - apply rooted_createEdge. apply rooted_setParent; assumption.
  - destruct (shape_createEdge
                (Node.id (deref s existing)) (Node.id (deref s newPhrase))
                false
                (updNode newPhrase
                   (Node.setParentId (Some (Node.id (deref s existing))))
                   s1)) as [En Et].
    split; [rewrite En; reflexivity|].
    intro r. rewrite Et.
    rewrite type_updNode by (intro; reflexivity).
    unfold s1. apply type_updNode. intro; reflexivity.
Qed.

Lemma sameShape_trans (s0 s1 s2 : Store) :
  sameShape s0 s1 -> sameShape s1 s2 -> sameShape s0 s2.
Proof.
  intros [En1 Et1] [En2 Et2]. split; [congruence|].
  intro r. rewrite Et2. apply Et1.
Qed.

Lemma phraseInMap_shape (s0 st : Store) (existing : ref) :
  sameShape s0 st -> In existing (getPhraseNodes s0) ->
  phraseInMap st existing.
Proof.
  intros [En Et] Hin. unfold getPhraseNodes in Hin.
  apply filter_In in Hin. destruct Hin as [Hin Hty].
  split.
  - unfold getAllNodes in *. rewrite En. exact Hin.
  - rewrite Et. destruct (Node.type (deref s0 existing)); try discriminate.
    reflexivity.
Qed.

Lemma rooted_parenthoodStep (newPhrase : ref) (content : string)
    (existing : ref) (s : Store) :
  rooted s -> phraseInMap s existing ->
  rooted (parenthoodStep newPhrase content existing s)
  /\ sameShape s (parenthoodStep newPhrase content existing s).
Proof.
  intros H Hex. unfold parenthoodStep.
  destruct (String.eqb _ _); [split; [exact H|apply sameShape_refl]|].
  cbv zeta.
  set (existingContent := JS.toLowerCase (Node.content (deref s existing))).
  assert (H1 : rooted (adoptContained newPhrase content existing
                         existingContent s)
               /\ sameShape s (adoptContained newPhrase content existing
                                 existingContent s)).
  { unfold adoptContained.
    destruct (_ && _); [|split; [exact H|apply sameShape_refl]].
    destruct (negb _); [|split; [exact H|apply sameShape_refl]].
    destruct (getNode "" s);
      [destruct (_ <? _); [|split; [exact H|apply sameShape_refl]]|];
      apply rooted_adopt; assumption. }
  destruct H1 as [H1 Hs1].
  unfold joinContaining.
  destruct (_ && _); [|split; assumption].
  destruct (negb _); [|split; assumption].
  assert (Hex1 : phraseInMap
                   (adoptContained newPhrase content existing
                      existingContent s) existing).
  { destruct Hs1 as [En Et]. destruct Hex as [Hin Hty]. split.
    - unfold getAllNodes in *. rewrite En. exact Hin.
    - rewrite Et. exact Hty. }
  destruct (rooted_beAdopted newPhrase existing _ H1 Hex1) as [H2 Hs2].
  split; [exact H2|]. exact (sameShape_trans _ _ _ Hs1 Hs2).
Qed.

Lemma fold_left_invariant_in {A B} (P : A -> Prop) (f : A -> B -> A)
    (l : list B) (a : A) :
  (forall x b, In b l -> P x -> P (f x b)) -> P a -> P (fold_left f l a).
Proof.
  revert a. induction l as [|b l IH]; intros a Hf Ha; simpl; [exact Ha|].
  apply IH.
  - intros x b' Hin. apply Hf. right. exact Hin.
  - apply Hf; [left; reflexivity|exact Ha].
Qed.

Lemma rooted_establishParenthood (newPhrase : ref) (s : Store) :
  rooted s -> rooted (establishParenthood newPhrase s).
Proof.
  intro H. unfold establishParenthood.
  apply (fold_left_invariant_in (fun st => rooted st /\ sameShape s st)).
  - intros st existing Hin [Hr Hs].
    destruct (rooted_parenthoodStep newPhrase
                (JS.toLowerCase (Node.content (deref s newPhrase)))
                existing st Hr (phraseInMap_shape s st existing Hs Hin))
      as [Hr' Hs'].
    split; [exact Hr'|]. exact (sameShape_trans _ _ _ Hs Hs').
  - split; [exact H|apply sameShape_refl].
Qed.

Lemma rooted_insertNode (node : Node.t) (s : Store) :
  Node.parentId node = None ->
  (exists c t, Node.id node = generateId c (Node.type node) t) ->
  rooted s -> rooted (snd (insertNode node s)).
Proof.
  intros Hpar Hid [Ha Hn Hp]. unfold insertNode. cbn [snd].
  set (s' := setNodes _ _).
  assert (Hold : forall r, r < List.length (heap s) -> deref s' r = deref s r)
    by (intros r Hr; unfold deref; simpl; apply app_nth1; exact Hr).
  assert (Hnew : deref s' (List.length (heap s)) = node)
    by (unfold deref; simpl; rewrite app_nth2, Nat.sub_diag by lia;
        reflexivity).
  assert (Hin_old : forall k r, In (k, r) (nodes s) ->
                               r < List.length (heap s)).
  { intros k r Hin. unfold allocated in Ha. rewrite Forall_forall in Ha.
    exact (Ha (k, r) Hin). }
  constructor.
  - unfold allocated. simpl. rewrite length_app. simpl.
    apply StrMap_set_Forall; [simpl; lia|].
    eapply Forall_impl; [|exact Ha]. simpl. intros a Hlt. lia.
  - intros k r Hin. simpl in Hin. apply StrMap_set_In in Hin.
    destruct Hin as [E|Hin].
    + inversion E as [[Ek Er]]. rewrite Hnew.
      split; [reflexivity|exact Hid].
    + rewrite (Hold r (Hin_old k r Hin)). apply Hn. exact Hin.
  - intros r p Epar Htr.
    assert (Epar' : Node.parentId (deref s r) = Some p).
    { destruct (Nat.lt_ge_cases r (List.length (heap s))) as [Hlt|Hge].
      - rewrite <- (Hold r Hlt). exact Epar.
      - exfalso. unfold deref in Epar. simpl in Epar.
        rewrite app_nth2 in Epar by exact Hge.
        destruct (r - List.length (heap s)) as [|[|k]]; simpl in Epar;
          congruence. }
    destruct (Hp r p Epar' Htr) as [parent [Hg Hty]].
    unfold getNode in *. simpl. rewrite StrMap_get_set.
    destruct (String.eqb p (Node.id node)) eqn:E.
    + apply String.eqb_eq in E. exists (List.length (heap s)).
      split; [reflexivity|]. rewrite Hnew.
      destruct (Hn p parent (StrMap_get_In _ _ _ Hg)) as [_ [c [t Ek]]].
      destruct Hid as [c' [t' Ek']].
      rewrite Hty in Ek. rewrite E, Ek' in Ek.
      exact (typeName_differs _ _ _ _ _ _ Ek).
    + exists parent. split; [exact Hg|].
      rewrite (Hold parent (Hin_old p parent (StrMap_get_In _ _ _ Hg))).
      exact Hty.
Qed.

Section RootedOperations.

Variable tanh : Q -> Q.
Variable dateNow : nat -> N.

Lemma rooted_touch (e : ref) (s : Store) :
  rooted s -> rooted (touch dateNow e s).
Proof.
  intro H. unfold touch. cbn [now].
  apply rooted_updNode; [intro; reflexivity|].
  apply (rooted_frame
           (updNode e
              (fun n => Node.setUsageWeight (Node.usageWeight n + 1) n) s));
    auto.
  apply rooted_updNode; [intro; reflexivity|exact H].
Qed.

Lemma rooted_createNode (content : string) (type : NodeType) (s : Store) :
  rooted s -> rooted (snd (createNode tanh dateNow content type None s)).
Proof.
  intro H.
  destruct (findNodeByContent content s) as [e|] eqn:E.
  - rewrite (createNode_found tanh dateNow content type None s e E).
    apply rooted_touch. exact H.
  - rewrite (createNode_fresh tanh dateNow content type None s E).
    cbn [snd linkToParent]. apply rooted_insertNode.
    + reflexivity.
    + unfold created, freshNode. cbn [Node.id Node.type]. eauto.
    + apply (rooted_frame s); auto.
Qed.

Lemma rooted_processTokens (tokens : list string) (phraseNode : ref)
    (previous : option ref) (made : list ref) (s : Store) :
  rooted s ->
  rooted (snd (processTokens tanh dateNow tokens phraseNode previous
                             made s)).
Proof.
  revert previous made s.
  induction tokens as [|token rest IH]; intros previous made s H; simpl.
  - exact H.
  - pose proof (rooted_createNode token
                  (if isWord token then word else punctuation) s H) as H1.
    destruct (createNode _ _ _ _ _ s) as [wordNode s1]. simpl in H1.
    apply IH. destruct previous; auto using rooted_createEdge.
Qed.

Lemma rooted_processInput (input : string) (s : Store) :
  rooted s -> rooted (snd (processInput tanh dateNow input s)).
Proof.
  intro H. unfold processInput.
  destruct (negb _); [exact H|].
  pose proof (rooted_createNode (JS.trim input) phrase s H) as H1.
  destruct (createNode _ _ _ _ _ s) as [phraseNode s1]. simpl in H1.
  pose proof (rooted_processTokens (tokenize (JS.trim input)) phraseNode
                None [phraseNode] s1 H1) as H2.
  destruct (processTokens _ _ _ _ _ _ s1) as [made s2]. simpl in *.
  apply rooted_establishParenthood. exact H2.
Qed.

Lemma rooted_processTrainingPair (prompt response : string) (s : Store) :
  rooted s -> rooted (processTrainingPair tanh dateNow prompt response s).
Proof.
  intro H. unfold processTrainingPair.
  pose proof (rooted_processInput prompt s H) as H1.
  destruct (processInput _ _ prompt s) as [promptNodes s1]. simpl in H1.
  pose proof (rooted_processInput response s1 H1) as H2.
  destruct (processInput _ _ response s1) as [responseNodes s2]. simpl in H2.
  destruct (_ && _); [|exact H2].
  destruct (findPhrase s2 promptNodes); [|exact H2].
  destruct (findPhrase s2 responseNodes); [|exact H2].
  apply rooted_createEdge. exact H2.
Qed.

Lemma rooted_evolveStep (state : Field.t) (history : list Q) (s : Store)
    (node : ref) :
  rooted s -> rooted (evolveStep state history s node).
Proof.
  intro H. unfold evolveStep, updateNodeFieldValue.
  assert (H1 : rooted (updateFieldState
                         (updateField (getConfig s) state (deref s node)
                            (map (fun n => Node.fieldValue (deref s n))
                               (getNeighbors (Node.id (deref s node)) s))
                            (map (fun n => Node.curvatureSignature (deref s n))
                               (getNeighbors (Node.id (deref s node)) s))
                            history) s))
    by (apply (rooted_frame s); auto).
  destruct (getNode _ _); [|exact H1].
  apply rooted_updNode; [intro; reflexivity|exact H1].
Qed.

Lemma rooted_evolveField (input : string) (s : Store) :
  rooted s -> rooted (evolveField tanh dateNow input s).
Proof.
  intro H. unfold evolveField.
  pose proof (rooted_processInput input s H) as H1.
  destruct (processInput _ _ input s) as [made s1]. simpl in H1.
  destruct (_ =? _); [exact H1|].
  apply fold_left_invariant; [|exact H1].
  intros. apply rooted_evolveStep. assumption.
Qed.

Lemma rooted_reinforceNodes (prompt response : string) (s : Store) :
  rooted s -> rooted (reinforceNodes prompt response s).
Proof.
  intro H. unfold reinforceNodes.
  apply fold_left_invariant; [|exact H].
  intros st node Hst. unfold reinforce.
  destruct (getNode _ st); [|exact Hst].
  apply rooted_updNode; [intro; reflexivity|].
  apply rooted_updNode; [intro; reflexivity|exact Hst].
Qed.

Lemma reachable_rooted (w : LLM) :
  reachable tanh dateNow w -> rooted (store w).
Proof.
  induction 1 as [|fuel prompt w Hw IH|prompt response w Hw IH|w Hw IH].
  - exact rooted_dead.
  - unfold respond.
    pose proof (rooted_processInput prompt (store w) IH) as H1.
    destruct (processInput _ _ prompt (store w)) as [made s1]. simpl in *.
    apply rooted_evolveField. exact H1.
  - unfold learnFrom. simpl.
    apply (rooted_frame
             (reinforceNodes prompt response
                (evolveField tanh dateNow response
                   (evolveField tanh dateNow prompt
                      (processTrainingPair tanh dateNow prompt response
                         (store w)))))); auto.
    apply rooted_reinforceNodes, rooted_evolveField, rooted_evolveField,
      rooted_processTrainingPair. exact IH.
  - apply rooted_clear.
Qed.

End RootedOperations.

Lemma prefix_length (a b : string) :
  String.prefix a b = true ->
  String.length a <= String.length b
  /\ (String.length a = String.length b -> a = b).
Proof.
  revert b. induction a as [|c a IH]; intros b H; simpl in *.
  - split; [lia|]. destruct b; simpl; [reflexivity|discriminate].
  - destruct b as [|d b]; [discriminate|]. simpl in H.
    destruct (ascii_dec c d) as [->|]; [|discriminate].
    destruct (IH b H) as [Hle Heq]. simpl. split; [lia|].
    intro E. f_equal. apply Heq. lia.
Qed.

Lemma includes_length (hay needle : string) :
  JS.includes hay needle = true ->
  String.length needle <= String.length hay
  /\ (String.length needle = String.length hay -> needle = hay).
Proof.
  induction hay as [|c r IH]; cbn [JS.includes]; intro H.
  - rewrite orb_false_r in H. exact (prefix_length _ _ H).
  - apply orb_true_iff in H. destruct H as [H|H].
    + exact (prefix_length _ _ H).
    + destruct (IH H) as [Hle _]. simpl. split; lia.
Qed.

Lemma kin_createEdge (fromId toId : string) (isSequential : bool)
    (s : Store) (r : ref) :
  kin (deref (createEdge fromId toId isSequential s) r) = kin (deref s r).
Proof.
  unfold createEdge.
  destruct (find _ (edges s)); [reflexivity|].
  destruct (getNode fromId s) as [fromNode|]; [|reflexivity].
  destruct (getNode toId s) as [toNode|]; [|reflexivity].
  rewrite kin_updNode by (intro; reflexivity).
  rewrite kin_updNode by (intro; reflexivity). reflexivity.
Qed.

(** The first test of [establishParenthood] gives a phrase a parent only
    when the lower-cased content of the parent is contained in its own
    and differs from it, so that it is strictly shorter. *)
Lemma adoptContained_parent (newPhrase existing : ref) (s : Store) :
  let content := JS.toLowerCase (Node.content (deref s newPhrase)) in
  let existingContent := JS.toLowerCase (Node.content (deref s existing)) in
  let s' := adoptContained newPhrase content existing existingContent s in
  Node.parentId (deref s' newPhrase) <> Node.parentId (deref s newPhrase) ->
  Node.parentId (deref s' newPhrase) = Some (Node.id (deref s existing))
  /\ JS.includes content existingContent = true
  /\ content <> existingContent
  /\ String.length existingContent < String.length content.
Proof.
  intros content existingContent s'. subst s'. unfold adoptContained.
  destruct (JS.includes content existingContent) eqn:Einc;
    [|intro H; exfalso; apply H; reflexivity].
  destruct (String.eqb content existingContent) eqn:Eeq;
    [intro H; exfalso; apply H; reflexivity|].
  cbn [andb negb].
  assert (Hne : content <> existingContent)
    by (intro E; apply String.eqb_eq in E; congruence).
  assert (Hlen : String.length existingContent < String.length content).
  { destruct (includes_length _ _ Einc) as [Hle Heq].
    destruct (Nat.eq_dec (String.length existingContent)
                         (String.length content)) as [E|E]; [|lia].
    exfalso. apply Hne. symmetry. apply Heq. exact E. }
  assert (Hadopt :
    Node.parentId (deref (adopt newPhrase existing s) newPhrase)
    <> Node.parentId (deref s newPhrase) ->
    Node.parentId (deref (adopt newPhrase existing s) newPhrase)
    = Some (Node.id (deref s existing))).
  { unfold adopt.
    match goal with
    | |- context [deref (createEdge ?a ?b ?c ?st) newPhrase] =>
        destruct (kin_fields _ _ (kin_createEdge a b c st newPhrase))
          as [_ [_ ->]]
    end.
    match goal with
    | |- context [deref (updNode existing ?f ?st) newPhrase] =>
        destruct (kin_fields _ _
                    (kin_updNode existing newPhrase f st
                       ltac:(intro; reflexivity))) as [_ [_ ->]]
    end.
    unfold deref, updNode. simpl. rewrite nth_updateAt, Nat.eqb_refl.
    simpl. destruct (newPhrase <? _); [reflexivity|].
    intro H. exfalso. apply H. reflexivity. }
  destruct (negb (parentTruthy (deref s newPhrase)));
    [|intro H; exfalso; apply H; reflexivity].
  destruct (getNode "" s);
    [destruct (_ <? _); [|intro H; exfalso; apply H; reflexivity]|];
    intro H; auto.
Qed.

(** What holds of the parents.  In every engine reached from the dead
    state, the parent reference of every node of the store, when there is
    one, names a node of the store of type [phrase]; and the first test of
    [establishParenthood], which gives a new phrase the parent it contains,
    works on lower-cased contents: when it sets the parent, the lower-cased
    content of the parent is contained in the lower-cased content of the
    phrase, differs from it and is strictly shorter. *)
Theorem parent_is_a_phrase (tanh : Q -> Q) (dateNow : nat -> N) (w : LLM) :
  reachable tanh dateNow w ->
  (forall r p,
     In r (getAllNodes (store w)) ->
     Node.parentId (deref (store w) r) = Some p -> JS.truthy p = true ->
     exists parent,
       getNode p (store w) = Some parent
       /\ In parent (getAllNodes (store w))
       /\ Node.type (deref (store w) parent) = phrase)
  /\ (forall newPhrase existing,
        let s := store w in
        let content := JS.toLowerCase (Node.content (deref s newPhrase)) in
        let existingContent :=
          JS.toLowerCase (Node.content (deref s existing)) in
        let s' :=
          adoptContained newPhrase content existing existingContent s in
        Node.parentId (deref s' newPhrase)
        <> Node.parentId (deref s newPhrase) ->
        Node.parentId (deref s' newPhrase) = Some (Node.id (deref s existing))
        /\ JS.includes content existingContent = true
        /\ content <> existingContent
        /\ String.length existingContent < String.length content).
Proof.
  intro Hw. pose proof (reachable_rooted tanh dateNow w Hw) as [_ _ Hp].
  split.
  - intros r p _ Epar Htr. destruct (Hp r p Epar Htr) as [parent [Hg Hty]].
    exists parent. split; [exact Hg|]. split; [|exact Hty].
    unfold getNode in Hg. apply StrMap_get_In in Hg.
    unfold getAllNodes, StrMap.values.
    apply in_map_iff. exists (p, parent). auto.
  - intros newPhrase existing. apply adoptContained_parent.
Qed.

Lemma parent_is_a_phrase_witness :
  reachable squash frozenClock sayHiEngine
  /\ exists parent,
       getNode "phrase_hi_1700000000000" (store sayHiEngine) = Some parent
       /\ In parent (getAllNodes (store sayHiEngine))
       /\ Node.type (deref (store sayHiEngine) parent) = phrase.
Proof.
  assert (Hw : reachable squash frozenClock sayHiEngine)
    by (apply reach_respond, reach_respond, reach_dead).
  split; [exact Hw|].
  apply (proj1 (parent_is_a_phrase squash frozenClock sayHiEngine Hw) 1).
  - lazy. auto.
  - lazy. reflexivity.
  - reflexivity.
Defined.

(** Containment is tested on lower-cased contents: after [respond("Hi")]
    and [respond("say hi")] the parent of "say hi" is "Hi", which is a
    substring of "say hi" only when the case of the letters is ignored. *)
Lemma parent_differs_in_case :
  reachable squash frozenClock sayHiEngine
  /\ In 1 (getAllNodes (store sayHiEngine))
  /\ Node.content (deref (store sayHiEngine) 1) = "say hi"
  /\ Node.parentId (deref (store sayHiEngine) 1)
     = Some (Node.id (deref (store sayHiEngine) 0))
  /\ getNode (Node.id (deref (store sayHiEngine) 0)) (store sayHiEngine)
     = Some 0
  /\ Node.content (deref (store sayHiEngine) 0) = "Hi"
  /\ JS.includes "say hi" "Hi" = false.
Proof.
  split; [apply reach_respond, reach_respond, reach_dead|].
  split; [lazy; auto|].
  split; [lazy; reflexivity|].
  split; [lazy; reflexivity|].
  split; [lazy; reflexivity|].
  split; [lazy; reflexivity|].
  reflexivity.
Qed.

(** * Further properties *)

(** ** The spectral weights *)

Lemma ofNat_nonneg (n : nat) : (0 <= ofNat n)%Q.
Proof.
  unfold ofNat, Qle. simpl. lia.
Qed.

Lemma ofNat_le (n m : nat) : n <= m -> (ofNat n <= ofNat m)%Q.
Proof.
  intro H. unfold ofNat, Qle. simpl. lia.
Qed.

Lemma lengthWeight_bounds (content : string) :
  (calculateLengthWeight content
   == ofNat (Nat.min (String.length content) 10) / 10)%Q
  /\ (0 <= calculateLengthWeight content)%Q
  /\ (calculateLengthWeight content <= 1)%Q.
Proof.
  unfold calculateLengthWeight.
  set (n := String.length content).
  assert (Hdiv : forall k, (ofNat k / 10 == ofNat k * (1 # 10))%Q)
    by (intro k; reflexivity).
  assert (Hten : (ofNat 10 * (1 # 10) == 1)%Q) by reflexivity.
  destruct (Nat.le_gt_cases n 10) as [Hle|Hgt].
  - rewrite (Nat.min_l n 10 Hle).
    pose proof (ofNat_le n 10 Hle) as H1. pose proof (ofNat_nonneg n) as H0.
    assert (Hm : (Qmin (ofNat n / 10) 1.0 == ofNat n / 10)%Q)
      by (apply Q.min_l; rewrite Hdiv; lra).
    rewrite Hm, Hdiv. repeat split; try reflexivity; lra.
  - rewrite (Nat.min_r n 10) by lia.
    pose proof (ofNat_le 10 n ltac:(lia)) as H1.
    assert (Hm : (Qmin (ofNat n / 10) 1.0 == 1.0)%Q)
      by (apply Q.min_r; rewrite Hdiv; lra).
    rewrite Hm. repeat split; try reflexivity; lra.
Qed.

Lemma charIndexSum_bounds (content : string) (sum : Q) :
  (sum <= charIndexSum content sum)%Q
  /\ (charIndexSum content sum
      <= sum + ofNat (String.length content) * (127 # 128))%Q.
Proof.
  revert sum. induction content as [|c r IH]; intro sum; simpl.
  - split; [lra|]. change (ofNat 0) with 0%Q. lra.
  - set (t := (inject_Z (Z.of_N (N_of_ascii c) mod 128) / 128)%Q).
    assert (Ht : (0 <= t)%Q /\ (t <= 127 # 128)%Q).
    { subst t.
      pose proof (Z.mod_pos_bound (Z.of_N (N_of_ascii c)) 128 ltac:(lia))
        as Hm.
      unfold Qdiv, Qle, Qmult, Qinv, inject_Z. simpl. lia. }
    destruct (IH (sum + t)%Q) as [H1 H2].
    assert (Hs : (ofNat (S (String.length r))
                  == ofNat (String.length r) + 1)%Q).
    { unfold ofNat. rewrite Nat2Z.inj_succ. unfold Z.succ.
      rewrite inject_Z_plus. reflexivity. }
    rewrite Hs. split; lra.
Qed.

(** X1.  The length weight is a tenth of the length up to ten characters
    and 1 beyond; it lies between 0 and 1. *)
Theorem calculateLengthWeight_range (content : string) :
  (calculateLengthWeight content
   == ofNat (Nat.min (String.length content) 10) / 10)%Q
  /\ (0 <= calculateLengthWeight content)%Q
  /\ (calculateLengthWeight content <= 1)%Q.
Proof.
  exact (lengthWeight_bounds content).
Qed.

Lemma charIndexWeight_bounds (content : string) :
  calculateCharIndexWeight "" = 0%Q
  /\ (0 <= calculateCharIndexWeight content)%Q
  /\ (calculateCharIndexWeight content <= 127 # 128)%Q.
Proof.
  split; [reflexivity|]. unfold calculateCharIndexWeight.
  destruct (String.length content =? 0) eqn:E; [split; lra|].
  apply Nat.eqb_neq in E.
  assert (Hn : (0 < ofNat (String.length content))%Q)
    by (apply ofNat_pos; lia).
  destruct (charIndexSum_bounds content 0) as [H1 H2].
  split.
  - apply Qle_shift_div_l; [exact Hn|]. lra.
  - apply Qle_shift_div_r; [exact Hn|]. lra.
Qed.

(** X2.  The character-index weight is 0 for the empty string and lies
    between 0 and 127/128 for every string. *)
Theorem calculateCharIndexWeight_range (content : string) :
  calculateCharIndexWeight "" = 0%Q
  /\ (0 <= calculateCharIndexWeight content)%Q
  /\ (calculateCharIndexWeight content <= 127 # 128)%Q.
Proof.
  exact (charIndexWeight_bounds content).
Qed.

Lemma toInt32_range (z : Z) : (- 2 ^ 31 <= toInt32 z < 2 ^ 31)%Z.
Proof.
  unfold toInt32.
  pose proof (Z.mod_pos_bound (z + 2 ^ 31) (2 ^ 32) ltac:(lia)). lia.
Qed.

Lemma toInt32_congruent (z : Z) : (toInt32 z mod 2 ^ 32 = z mod 2 ^ 32)%Z.
Proof.
  unfold toInt32.
  rewrite Zminus_mod, Zmod_mod, <- Zminus_mod.
  f_equal. lia.
Qed.

Lemma toInt32_unique (x y : Z) :
  (- 2 ^ 31 <= x < 2 ^ 31)%Z -> (x mod 2 ^ 32 = y mod 2 ^ 32)%Z ->
  x = toInt32 y.
Proof.
  intros Hx E. pose proof (toInt32_range y) as Hy.
  pose proof (toInt32_congruent y) as Ey. rewrite <- E in Ey.
  assert (Hd : ((toInt32 y - x) mod 2 ^ 32 = 0)%Z).
  { rewrite Zminus_mod, Ey, Z.sub_diag. reflexivity. }
  apply Z.mod_divide in Hd; [|lia]. destruct Hd as [k Hk].
  assert (k = 0%Z) by lia. lia.
Qed.

Lemma polyHash_congruent (content : string) (h h' : Z) :
  (h mod 2 ^ 32 = h' mod 2 ^ 32)%Z ->
  (polyHash content h mod 2 ^ 32 = polyHash content h' mod 2 ^ 32)%Z.
Proof.
  revert h h'. induction content as [|c r IH]; intros h h' E; simpl.
  - exact E.
  - apply IH.
    rewrite (Z.add_mod (h * 31)), (Z.add_mod (h' * 31)) by lia.
    rewrite (Z.mul_mod h), (Z.mul_mod h') by lia.
    rewrite E. reflexivity.
Qed.

Lemma hashLoop_congruent (content : string) (h : Z) :
  (hashLoop content h mod 2 ^ 32 = polyHash content h mod 2 ^ 32)%Z.
Proof.
  revert h. induction content as [|c r IH]; intro h;
    cbn [hashLoop polyHash].
  - reflexivity.
  - rewrite IH. apply polyHash_congruent.
    rewrite toInt32_congruent.
    rewrite Z.shiftl_mul_pow2 by lia.
    rewrite Zplus_mod, Zminus_mod, toInt32_congruent.
    rewrite <- Zminus_mod, <- Zplus_mod. f_equal. lia.
Qed.

Lemma hashLoop_range (content : string) (h : Z) :
  (- 2 ^ 31 <= h < 2 ^ 31)%Z ->
  (- 2 ^ 31 <= hashLoop content h < 2 ^ 31)%Z.
Proof.
  revert h. induction content as [|c r IH]; intros h H; cbn [hashLoop].
  - exact H.
  - apply IH. apply toInt32_range.
Qed.

(** X3.  The hash of the curvature signature is the polynomial hash
    [h * 31 + code] of the content wrapped to a signed 32-bit integer: the
    signature is [tanh] of that integer over a million. *)
Theorem calculateCurvatureSignature_hash (tanh : Q -> Q) (content : string) :
  hashLoop content 0 = toInt32 (polyHash content 0)
  /\ (- 2 ^ 31 <= hashLoop content 0 < 2 ^ 31)%Z
  /\ calculateCurvatureSignature tanh content
     = tanh (inject_Z (toInt32 (polyHash content 0)) / 1000000)%Q.
Proof.
  assert (Hr : (- 2 ^ 31 <= hashLoop content 0 < 2 ^ 31)%Z)
    by (apply hashLoop_range; lia).
  assert (E : hashLoop content 0 = toInt32 (polyHash content 0))
    by (apply toInt32_unique; [exact Hr|apply hashLoop_congruent]).
  split; [exact E|]. split; [exact Hr|].
  unfold calculateCurvatureSignature. rewrite E. reflexivity.
Qed.

(** ** The operator engine *)

Lemma differences_length (values : list Q) :
  List.length (differences values) = List.length values - 1.
Proof.
  induction values as [|x [|y rest] IH]; try reflexivity.
  change (differences (x :: y :: rest))
    with ((y - x)%Q :: differences (y :: rest)).
  simpl List.length in *. lia.
Qed.

Lemma differences_entries (values : list Q) (k : nat) :
  differences values
  = map (fun i => (nth (S i - k) values 0 - nth (i - k) values 0)%Q)
        (seq k (List.length values - 1)).
Proof.
  revert k. induction values as [|x [|y rest] IH]; intro k; try reflexivity.
  change (differences (x :: y :: rest))
    with ((y - x)%Q :: differences (y :: rest)).
  change (List.length (x :: y :: rest) - 1) with (S (List.length rest)).
  cbn [seq map]. rewrite Nat.sub_diag.
  replace (S k - k) with 1 by lia. cbn [nth]. f_equal.
  rewrite (IH (S k)).
  change (List.length (y :: rest) - 1) with (List.length rest - 0).
  rewrite Nat.sub_0_r. apply map_ext_in. intros i Hi.
  apply in_seq in Hi.
  replace (S i - k) with (S (S i - S k)) by lia.
  replace (i - k) with (S (i - S k)) by lia.
  reflexivity.
Qed.

(** X4.  The discrete derivative of fewer than two samples is the list
    [[0]]; for [n >= 2] samples it has [n - 1] entries, the entry of index
    [i] being the sample of index [i + 1] minus the sample of index
    [i]. *)
Theorem discreteDerivative_entries (values : list Q) :
  discreteDerivative values
  = (if List.length values <? 2 then [0%Q]
     else map (fun i => (nth (S i) values 0 - nth i values 0)%Q)
              (seq 0 (List.length values - 1)))
  /\ List.length (discreteDerivative values)
     = Nat.max 1 (List.length values - 1).
Proof.
  unfold discreteDerivative.
  destruct (List.length values <? 2) eqn:E.
  - split; [reflexivity|]. apply Nat.ltb_lt in E. cbn [List.length]. lia.
  - apply Nat.ltb_ge in E. split.
    + rewrite (differences_entries values 0). apply map_ext.
      intro i. rewrite !Nat.sub_0_r. reflexivity.
    + rewrite differences_length. lia.
Qed.

Lemma fold_abs_nonneg (l : list Q) (a : Q) :
  (0 <= a)%Q -> (0 <= fold_left (fun sum val => sum + Qabs val) l a)%Q.
Proof.
  revert a. induction l as [|x l IH]; intros a H; simpl.
  - exact H.
  - apply IH. pose proof (Qabs_nonneg x). lra.
Qed.

Lemma fold_square_nonneg (l : list Q) (a : Q) :
  (0 <= a)%Q -> (0 <= fold_left (fun sum val => sum + val * val) l a)%Q.
Proof.
  revert a. induction l as [|x l IH]; intros a H; simpl.
  - exact H.
  - apply IH. assert (0 <= x * x)%Q by nra. lra.
Qed.

Lemma mean_nonneg (x : Q) (n : nat) :
  (0 <= x)%Q -> (0 <= x / ofNat (Nat.max n 1))%Q.
Proof.
  intro H. apply Qle_shift_div_l; [apply ofNat_pos; lia|]. lra.
Qed.

Lemma secondGradientStability_nonneg (history : list Q) :
  (0 <= secondGradientStability history)%Q.
Proof.
  unfold secondGradientStability.
  destruct (List.length history <? 3); [lra|].
  apply mean_nonneg, fold_square_nonneg. lra.
Qed.

(** X5.  The curvature of a list of samples and the second-gradient
    stability of a history are never negative. *)
Theorem curvature_nonneg (values : list Q) :
  (0 <= calculateCurvature values)%Q
  /\ (0 <= secondGradientStability values)%Q.
Proof.
  split; [|apply secondGradientStability_nonneg].
  unfold calculateCurvature.
  destruct (List.length values <? 3); [lra|].
  apply mean_nonneg, fold_abs_nonneg. lra.
Qed.







Lemma updateField_stability_unit (cfg : Config.t) (state : Field.t)
    (node : Node.t) (a b history : list Q) :
  unitInterval (Field.stability (updateField cfg state node a b history)).
Proof.
  unfold updateField, unitInterval. cbn [Field.stability].
  set (g := secondGradientStability history).
  assert (Hg : (0 <= g)%Q) by (apply secondGradientStability_nonneg).
  assert (Ha : (Qabs g == g)%Q) by (apply Qabs_pos; exact Hg).
  assert (Hp : (0 < 1 + Qabs g)%Q) by (rewrite Ha; lra).
  split.
  - apply Qlt_shift_div_l; [exact Hp|]. lra.
  - apply Qle_shift_div_r; [exact Hp|]. rewrite Ha. lra.
Qed.

(** X7.  Whatever the state, the node, the neighbours and the history,
    the stability computed by [updateField] is not negative and at most
    1; it is 1 when the history has fewer than three entries, as the
    first two entries of any history do. *)
Theorem updateField_stability_range (cfg : Config.t) (state : Field.t)
    (node : Node.t) (neighborFieldValues neighborCurvatures : list Q)
    (history : list Q) :
  let next h :=
    updateField cfg state node neighborFieldValues neighborCurvatures h in
  (0 <= Field.stability (next history))%Q
  /\ (Field.stability (next history) <= 1)%Q
  /\ (Field.stability (next (firstn 2 history)) == 1)%Q.
Proof.
  cbv zeta.
  destruct (updateField_stability_unit cfg state node neighborFieldValues
              neighborCurvatures history) as [H0 H1].
  split; [lra|]. split; [exact H1|].
  unfold updateField. cbn [Field.stability].
  unfold secondGradientStability.
  replace (List.length (firstn 2 history) <? 3) with true; [reflexivity|].
  symmetry. apply Nat.ltb_lt.
  pose proof (firstn_le_length 2 history). lia.
Qed.

(** ** The tokenizer and the tags *)

Lemma joinAll_app (a b : list string) :
  joinAll (a ++ b) = (joinAll a ++ joinAll b)%string.
Proof.
  induction a as [|x a IH]; simpl; [reflexivity|].
  rewrite IH. 
  generalize (joinAll a) (joinAll b). intros u v.
  induction x as [|c x IHx]; simpl; [reflexivity|]. rewrite IHx. reflexivity.
Qed.

Lemma string_append_assoc (a b c : string) :
  ((a ++ b) ++ c = a ++ (b ++ c))%string.
Proof.
  induction a as [|x a IH]; simpl; [reflexivity|]. rewrite IH. reflexivity.
Qed.

Lemma string_append_empty (a : string) : (a ++ "")%string = a.
Proof.
  induction a as [|x a IH]; simpl; [reflexivity|]. rewrite IH. reflexivity.
Qed.

Lemma joinAll_pushCurrent (tokens : list string) (current : string) :
  joinAll (pushCurrent tokens current)
  = (joinAll tokens ++ current)%string.
Proof.
  unfold pushCurrent. destruct current as [|c r]; simpl JS.truthy; cbv iota.
  - rewrite string_append_empty. reflexivity.
  - rewrite joinAll_app. simpl. rewrite string_append_empty. reflexivity.
Qed.

Lemma tokenizeLoop_joinAll (text : string) (tokens : list string)
    (current : string) :
  joinAll (tokenizeLoop text tokens current)
  = (joinAll tokens ++ current ++ dropSpaces text)%string.
Proof.
  revert tokens current.
  induction text as [|char rest IH]; intros tokens current;
    cbn [tokenizeLoop dropSpaces].
  - rewrite joinAll_pushCurrent, string_append_empty. reflexivity.
  - destruct (isPunctuation char) eqn:P.
    + assert (S : Ascii.eqb char " " = false).
      { destruct (Ascii.eqb char " ") eqn:S; [|reflexivity].
        apply Ascii.eqb_eq in S. subst char. discriminate P. }
      rewrite S, IH, joinAll_app, joinAll_pushCurrent.
      simpl. rewrite !string_append_assoc. reflexivity.
    + destruct (Ascii.eqb char " ").
      * rewrite IH, joinAll_pushCurrent. simpl.
        rewrite !string_append_assoc. reflexivity.
      * rewrite IH, !string_append_assoc. reflexivity.
Qed.

Lemma allChars_app (p : ascii -> bool) (a b : string) :
  allChars p (a ++ b) = allChars p a && allChars p b.
Proof.
  induction a as [|c a IH]; simpl; [reflexivity|].
  rewrite IH, andb_assoc. reflexivity.
Qed.

Lemma tokenShaped_pushCurrent (tokens : list string) (current : string) :
  Forall tokenShaped tokens ->
  allChars (fun c => negb (isPunctuation c) && negb (Ascii.eqb c " "))
    current = true ->
  Forall tokenShaped (pushCurrent tokens current).
Proof.
  intros H C. unfold pushCurrent.
  destruct current as [|c r]; simpl JS.truthy; cbv iota; [exact H|].
  apply Forall_app. split; [exact H|].
  constructor; [|constructor]. split; [discriminate|]. right. exact C.
Qed.

Lemma tokenizeLoop_shaped (text : string) (tokens : list string)
    (current : string) :
  Forall tokenShaped tokens ->
  allChars (fun c => negb (isPunctuation c) && negb (Ascii.eqb c " "))
    current = true ->
  Forall tokenShaped (tokenizeLoop text tokens current).
Proof.
  revert tokens current.
  induction text as [|char rest IH]; intros tokens current H C;
    cbn [tokenizeLoop].
  - apply tokenShaped_pushCurrent; assumption.
  - destruct (isPunctuation char) eqn:P.
    + apply IH; [|reflexivity]. apply Forall_app. split.
      * apply tokenShaped_pushCurrent; assumption.
      * constructor; [|constructor]. split; [discriminate|].
        left. exists char. split; [exact P|reflexivity].
    + destruct (Ascii.eqb char " ") eqn:S.
      * apply IH; [|reflexivity]. apply tokenShaped_pushCurrent; assumption.
      * apply IH; [exact H|]. rewrite allChars_app, C. simpl.
        rewrite P, S. reflexivity.
Qed.

(** X8.  [tokenize] loses nothing but spaces: its tokens, one after the
    other, are the text without its space characters; and every token is
    either one punctuation character or a non-empty run of characters that
    are neither punctuation nor space. *)
Theorem tokenize_round_trip (text : string) :
  joinAll (tokenize text) = dropSpaces text
  /\ Forall tokenShaped (tokenize text).
Proof.
  unfold tokenize. split.
  - rewrite tokenizeLoop_joinAll. reflexivity.
  - apply tokenizeLoop_shaped; [constructor|reflexivity].
Qed.

Lemma lowerChar_idempotent (c : ascii) :
  JS.lowerChar (JS.lowerChar c) = JS.lowerChar c.
Proof.
  destruct c as [[] [] [] [] [] [] [] []]; reflexivity.
Qed.

Lemma toLowerCase_idempotent (s : string) :
  JS.toLowerCase (JS.toLowerCase s) = JS.toLowerCase s.
Proof.
  induction s as [|c s IH]; simpl; [reflexivity|].
  rewrite lowerChar_idempotent, IH. reflexivity.
Qed.

Lemma splitFrom_no_space (inRun : bool) (s : string) :
  Forall (fun w => allChars (fun c => negb (JS.isSpace c)) w = true)
    (JS.splitFrom inRun s).
Proof.
  revert inRun. induction s as [|c s IH]; intro inRun; cbn [JS.splitFrom].
  - constructor; [reflexivity|constructor].
  - destruct (JS.isSpace c) eqn:E.
    + destruct inRun; [apply IH|]. constructor; [reflexivity|apply IH].
    + specialize (IH false). destruct (JS.splitFrom false s) as [|w ws].
      * constructor; [|constructor]. simpl. rewrite E. reflexivity.
      * inversion IH as [|? ? Hw Hws]; subst. constructor; [|exact Hws].
        simpl. rewrite E, Hw. reflexivity.
Qed.

Lemma splitFrom_lower (inRun : bool) (s : string) :
  JS.splitFrom inRun (JS.toLowerCase s)
  = map JS.toLowerCase (JS.splitFrom inRun s).
Proof.
  revert inRun. induction s as [|c s IH]; intro inRun;
    cbn [JS.splitFrom JS.toLowerCase].
  - reflexivity.
  - rewrite isSpace_lowerChar. destruct (JS.isSpace c) eqn:E.
    + destruct inRun; rewrite IH; reflexivity.
    + rewrite IH. destruct (JS.splitFrom false s); simpl.
      * reflexivity.
      * reflexivity.
Qed.

(** X9.  Every tag of a text is longer than three characters, holds no
    white space and is in lower case; the tags do not depend on the case
    of the text. *)
Theorem tag_words (text : string) :
  Forall (fun w => 3 < String.length w
                   /\ allChars (fun c => negb (JS.isSpace c)) w = true
                   /\ JS.toLowerCase w = w) (tag text)
  /\ tag (JS.toLowerCase text) = tag text.
Proof.
  unfold tag. split.
  - apply Forall_forall. intros w H. apply filter_In in H.
    destruct H as [H L]. apply Nat.ltb_lt in L. split; [exact L|]. split.
    + pose proof (splitFrom_no_space false (JS.toLowerCase text)) as F.
      rewrite Forall_forall in F. exact (F w H).
    + unfold JS.splitWhitespace in H. rewrite splitFrom_lower in H.
      apply in_map_iff in H. destruct H as [v [E _]]. subst w.
      apply toLowerCase_idempotent.
  - rewrite toLowerCase_idempotent. reflexivity.
Qed.

(** ** Edges and stabilities of the engines that can be reached *)

Lemma extends_refl (s : Store) : extends s s.
Proof.
  split; [intros id H; exact H|auto].
Qed.

Lemma extends_trans (s1 s2 s3 : Store) :
  extends s1 s2 -> extends s2 s3 -> extends s1 s3.
Proof.
  intros [K1 T1] [K2 T2]. split; [|auto].
  intros id H. apply K2, K1, H.
Qed.

Lemma extends_frame (s s' : Store) :
  nodes s' = nodes s -> edges s' = edges s ->
  fieldState s' = fieldState s -> stabilityHistory s' = stabilityHistory s ->
  extends s s'.
Proof.
  intros En Ee Ef Eh. split.
  - intros id H. unfold getNode in *. rewrite En. exact H.
  - intros [U R S F H]. constructor.
    + rewrite Ee. exact U.
    + rewrite Ee. unfold getNode in *. rewrite En. exact R.
    + rewrite Ee. exact S.
    + rewrite Ef. exact F.
    + rewrite Eh. exact H.
Qed.

Lemma extends_updNode (r : ref) (f : Node.t -> Node.t) (s : Store) :
  extends s (updNode r f s).
Proof.
  apply extends_frame; reflexivity.
Qed.

Lemma extends_fold {A} (f : Store -> A -> Store) (l : list A) (s : Store) :
  (forall x a, extends x (f x a)) -> extends s (fold_left f l s).
Proof.
  intro Hf. revert s. induction l as [|a l IH]; intro s; simpl.
  - apply extends_refl.
  - eapply extends_trans; [apply Hf|apply IH].
Qed.

Lemma extends_insert (node : Node.t) (s s' : Store) :
  nodes s' = StrMap.set (Node.id node) (List.length (heap s)) (nodes s) ->
  edges s' = edges s -> fieldState s' = fieldState s ->
  stabilityHistory s' = stabilityHistory s ->
  extends s s'.
Proof.
  intros En Ee Ef Eh.
  assert (K : keeps s s').
  { intros id H. unfold getNode in *. rewrite En, StrMap_get_set.
    destruct (String.eqb id (Node.id node)); [discriminate|exact H]. }
  split; [exact K|].
  intros [U R S F H]. constructor.
  - rewrite Ee. exact U.
  - rewrite Ee. eapply Forall_impl; [|exact R].
    intros e [H1 H2]. split; apply K; assumption.
  - rewrite Ee. exact S.
  - rewrite Ef. exact F.
  - rewrite Eh. exact H.
Qed.

Lemma ends_updateFirst (p : Edge.t -> bool) (f : Edge.t -> Edge.t)
    (l : list Edge.t) :
  (forall e, ends (f e) = ends e) ->
  map ends (updateFirst p f l) = map ends l.
Proof.
  intro Hf. induction l as [|e l IH]; simpl; [reflexivity|].
  destruct (p e); simpl; [rewrite Hf|rewrite IH]; reflexivity.
Qed.

Lemma sameEnds_ends (fromId toId : string) (e : Edge.t) :
  sameEnds fromId toId e = true <-> ends e = (fromId, toId).
Proof.
  unfold sameEnds, ends. rewrite andb_true_iff, !String.eqb_eq. split.
  - intros [-> ->]. reflexivity.
  - intro E. inversion E. split; reflexivity.
Qed.

Lemma extends_createEdge (fromId toId : string) (isSequential : bool)
    (s : Store) :
  extends s (createEdge fromId toId isSequential s).
Proof.
  unfold createEdge.
  destruct (find (sameEnds fromId toId) (edges s)) as [e0|] eqn:Efind.
  - split; [intros id H; exact H|].
    intros [U R S F H]. constructor; cbn [edges setEdges fieldState
      stabilityHistory]; try assumption.
    + rewrite ends_updateFirst; [exact U|].
      intro e. destruct (getNode fromId s), (getNode toId s); reflexivity.
    + apply Forall_updateFirst; [|exact R].
      intros e He.
      destruct (getNode fromId s), (getNode toId s); exact He.
    + apply Forall_updateFirst; [|exact S].
      intros e [H1 H2].
      destruct (getNode fromId s) as [a|]; [destruct (getNode toId s) as [b|]|];
        cbn [Edge.strength Edge.curvature]; split; try lra.
      apply Qabs_nonneg.
  - destruct (getNode fromId s) as [a|] eqn:Ea; [|apply extends_refl].
    destruct (getNode toId s) as [b|] eqn:Eb; [|apply extends_refl].
    split; [intros id H; exact H|].
    intros [U R S F H]. constructor; cbn [edges setEdges updNode setHeap
      fieldState stabilityHistory]; try assumption.
    + rewrite map_app. simpl.
      apply NoDup_app; [exact U|constructor; [intros []|constructor]|].
      intros x Hx [Hy|[]]. subst x.
      apply in_map_iff in Hx. destruct Hx as [e [He Hin]].
      apply sameEnds_ends in He. cbn [Edge.fromId Edge.toId] in He.
      pose proof (find_none _ _ Efind e Hin). congruence.
    + apply Forall_app. split; [exact R|].
      constructor; [|constructor].
      change (getNode fromId s <> None /\ getNode toId s <> None).
      rewrite Ea, Eb. split; discriminate.
    + apply Forall_app. split; [exact S|].
      constructor; [|constructor]. cbn [Edge.strength Edge.curvature].
      split; [lra|apply Qabs_nonneg].
Qed.

Lemma extends_updateFieldState (f : Field.t) (s : Store) :
  unitInterval (Field.stability f) -> extends s (updateFieldState f s).
Proof.
  intro Hf. split; [intros id H; exact H|].
  intros [U R S F H]. constructor; cbn [updateFieldState edges fieldState
    stabilityHistory setStabilityHistory setFieldState]; try assumption.
  assert (Hp : Forall unitInterval (stabilityHistory s ++ [Field.stability f]))
    by (apply Forall_app; split; [exact H|constructor; [exact Hf|constructor]]).
  destruct (20 <? _); [|exact Hp].
  unfold JS.shift. destruct (stabilityHistory s ++ [Field.stability f]);
    [constructor|]. inversion Hp; assumption.
Qed.

Lemma extends_updateNodeFieldValue (nodeId : string) (v : Q) (s : Store) :
  extends s (updateNodeFieldValue nodeId v s).
Proof.
  unfold updateNodeFieldValue.
  destruct (getNode nodeId s); [apply extends_updNode|apply extends_refl].
Qed.

Lemma extends_adopt (newPhrase existing : ref) (s : Store) :
  extends s (adopt newPhrase existing s).
Proof.
  unfold adopt.
  eapply extends_trans; [|apply extends_createEdge].
  eapply extends_trans; apply extends_updNode.
Qed.

Lemma extends_beAdopted (newPhrase existing : ref) (s : Store) :
  extends s (beAdopted newPhrase existing s).
Proof.
  unfold beAdopted.
  eapply extends_trans; [|apply extends_createEdge].
  eapply extends_trans; apply extends_updNode.
Qed.

Lemma extends_parenthoodStep (newPhrase : ref) (content : string)
    (existing : ref) (s : Store) :
  extends s (parenthoodStep newPhrase content existing s).
Proof.
  unfold parenthoodStep.
  destruct (String.eqb _ _); [apply extends_refl|]. cbv zeta.
  match goal with
  | |- extends _ (joinContaining _ _ _ _ ?m) => apply (extends_trans _ m)
  end.
  - unfold adoptContained.
    destruct (_ && _); [|apply extends_refl].
    destruct (negb _); [|apply extends_refl].
    destruct (getNode "" s);
      [destruct (_ <? _); [|apply extends_refl]|]; apply extends_adopt.
  - unfold joinContaining.
    destruct (_ && _); [|apply extends_refl].
    destruct (negb _); [|apply extends_refl].
    apply extends_beAdopted.
Qed.

Lemma extends_establishParenthood (newPhrase : ref) (s : Store) :
  extends s (establishParenthood newPhrase s).
Proof.
  unfold establishParenthood. apply extends_fold.
  intros. apply extends_parenthoodStep.
Qed.

Lemma extends_reinforce (s : Store) (node : ref) : extends s (reinforce s node).
Proof.
  unfold reinforce. destruct (getNode _ s); [|apply extends_refl].
  eapply extends_trans; apply extends_updNode.
Qed.

Lemma extends_reinforceNodes (prompt response : string) (s : Store) :
  extends s (reinforceNodes prompt response s).
Proof.
  unfold reinforceNodes. apply extends_fold. exact extends_reinforce.
Qed.

Lemma extends_evolveStep (state : Field.t) (history : list Q) (s : Store)
    (node : ref) :
  extends s (evolveStep state history s node).
Proof.
  unfold evolveStep.
  eapply extends_trans; [|apply extends_updateNodeFieldValue].
  apply extends_updateFieldState, updateField_stability_unit.
Qed.

Section ExtendingOperations.

Variable tanh : Q -> Q.
Variable dateNow : nat -> N.

Lemma extends_createNode (content : string) (type : NodeType)
    (parentId : option string) (s : Store) :
  extends s (snd (createNode tanh dateNow content type parentId s)).
Proof.
  destruct (findNodeByContent content s) as [existing|] eqn:E.
  - rewrite (createNode_found tanh dateNow _ _ _ _ _ E). cbn [snd].
    apply extends_frame; reflexivity.
  - rewrite (createNode_fresh tanh dateNow _ _ _ _ E). cbn [snd].
    match goal with
    | |- extends _ (linkToParent _ _ ?m) => apply (extends_trans _ m)
    end.
    + apply (extends_insert (created tanh dateNow content type parentId s));
        reflexivity.
    + unfold linkToParent.
      destruct parentId as [pid|]; [|apply extends_refl].
      destruct (JS.truthy pid); [|apply extends_refl].
      destruct (getNode pid _); [|apply extends_refl].
      apply extends_updNode.
Qed.

Lemma extends_processTokens (tokens : list string) (phraseNode : ref)
    (previous : option ref) (created : list ref) (s : Store) :
  extends s (snd (processTokens tanh dateNow tokens phraseNode previous
                                created s)).
Proof.
  revert previous created s.
  induction tokens as [|token rest IH]; intros previous created s;
    cbn [processTokens].
  - apply extends_refl.
  - pose proof (extends_createNode token
                  (if isWord token then word else punctuation) None s) as H1.
    destruct (createNode _ _ _ _ _ s) as [wordNode s1]. cbn [snd] in H1.
    eapply extends_trans; [exact H1|].
    eapply extends_trans; [|apply IH].
    destruct previous.
    + eapply extends_trans; apply extends_createEdge.
    + apply extends_createEdge.
Qed.

Lemma extends_processInput (input : string) (s : Store) :
  extends s (snd (processInput tanh dateNow input s)).
Proof.
  unfold processInput.
  destruct (negb _); [apply extends_refl|].
  pose proof (extends_createNode (JS.trim input) phrase None s) as H1.
  destruct (createNode _ _ _ _ _ s) as [phraseNode s1]. cbn [snd] in H1.
  pose proof (extends_processTokens (tokenize (JS.trim input)) phraseNode None
                [phraseNode] s1) as H2.
  destruct (processTokens _ _ _ _ _ _ s1) as [created s2]. cbn [snd] in *.
  eapply extends_trans; [exact H1|].
  eapply extends_trans; [exact H2|apply extends_establishParenthood].
Qed.

Lemma extends_processTrainingPair (prompt response : string) (s : Store) :
  extends s (processTrainingPair tanh dateNow prompt response s).
Proof.
  unfold processTrainingPair.
  pose proof (extends_processInput prompt s) as H1.
  destruct (processInput _ _ prompt s) as [promptNodes s1]. cbn [snd] in H1.
  pose proof (extends_processInput response s1) as H2.
  destruct (processInput _ _ response s1) as [responseNodes s2].
  cbn [snd] in H2.
  pose proof (extends_trans _ _ _ H1 H2) as H.
  destruct (_ && _); [|exact H].
  destruct (findPhrase s2 promptNodes); [|exact H].
  destruct (findPhrase s2 responseNodes); [|exact H].
  eapply extends_trans; [exact H|apply extends_createEdge].
Qed.

Lemma extends_evolveField (input : string) (s : Store) :
  extends s (evolveField tanh dateNow input s).
Proof.
  unfold evolveField.
  pose proof (extends_processInput input s) as H1.
  destruct (processInput _ _ input s) as [created s1]. cbn [snd] in H1.
  destruct (_ =? _); [exact H1|].
  eapply extends_trans; [exact H1|].
  apply extends_fold. intros. apply extends_evolveStep.
Qed.

Lemma extends_respond (fuel : nat) (prompt : string) (w : LLM) :
  extends (store w) (store (snd (respond tanh dateNow fuel prompt w))).
Proof.
  unfold respond.
  pose proof (extends_processInput prompt (store w)) as H1.
  destruct (processInput _ _ prompt (store w)) as [created s1].
  cbn [snd store] in *.
  eapply extends_trans; [exact H1|apply extends_evolveField].
Qed.

Lemma extends_learnFrom (prompt response : string) (w : LLM) :
  extends (store w) (store (learnFrom tanh dateNow prompt response w)).
Proof.
  unfold learnFrom. cbn [now store].
  eapply extends_trans; [apply extends_processTrainingPair|].
  eapply extends_trans; [apply extends_evolveField|].
  eapply extends_trans; [apply extends_evolveField|].
  eapply extends_trans; [apply extends_reinforceNodes|].
  apply extends_frame; reflexivity.
Qed.

Lemma tidy_blank (s : Store) :
  edges s = [] -> fieldState s = deadFieldState -> stabilityHistory s = [] ->
  tidy s.
Proof.
  intros Ee Ef Eh. constructor.
  - rewrite Ee. constructor.
  - rewrite Ee. constructor.
  - rewrite Ee. constructor.
  - rewrite Ef. split; simpl; lra.
  - rewrite Eh. constructor.
Qed.

Lemma reachable_tidy (w : LLM) :
  reachable tanh dateNow w -> tidy (store w).
Proof.
  induction 1 as [|fuel prompt w Hw IH|prompt response w Hw IH|w Hw IH].
  - apply tidy_blank; reflexivity.
  - apply (extends_respond fuel prompt w). exact IH.
  - apply (extends_learnFrom prompt response w). exact IH.
  - apply tidy_blank; reflexivity.
Qed.

End ExtendingOperations.

(** X10.  In every engine reached from the dead state no two edges join
    the same identifiers in the same direction, both ends of every edge
    are identifiers of stored nodes, the strength of every edge is at
    least 1 and its curvature is not negative. *)
Theorem edges_well_formed (tanh : Q -> Q) (dateNow : nat -> N) (w : LLM) :
  reachable tanh dateNow w ->
  NoDup (map ends (edges (store w)))
  /\ Forall (fun e => getNode (Edge.fromId e) (store w) <> None
                      /\ getNode (Edge.toId e) (store w) <> None)
            (edges (store w))
  /\ Forall (fun e => (1 <= Edge.strength e)%Q /\ (0 <= Edge.curvature e)%Q)
            (edges (store w)).
Proof.
  intro H. destruct (reachable_tidy tanh dateNow w H) as [U R S _ _].
  split; [exact U|]. split; [exact R|exact S].
Qed.

Lemma edges_well_formed_witness :
  reachable squash frozenClock abThenAbc
  /\ NoDup (map ends (edges (store abThenAbc)))
  /\ Forall (fun e => getNode (Edge.fromId e) (store abThenAbc) <> None
                      /\ getNode (Edge.toId e) (store abThenAbc) <> None)
            (edges (store abThenAbc))
  /\ Forall (fun e => (1 <= Edge.strength e)%Q /\ (0 <= Edge.curvature e)%Q)
            (edges (store abThenAbc)).
Proof.
  assert (Hw : reachable squash frozenClock abThenAbc)
    by (apply reach_respond, reach_respond, reach_dead).
  split; [exact Hw|].
  exact (edges_well_formed squash frozenClock abThenAbc Hw).
Defined.

(** X11.  In every engine reached from the dead state the stability of
    the field state and every entry of the stability history are positive
    and at most 1. *)
Theorem stability_in_unit_interval (tanh : Q -> Q) (dateNow : nat -> N)
    (w : LLM) :
  reachable tanh dateNow w ->
  ((0 < Field.stability (getFieldState (store w)))%Q
   /\ (Field.stability (getFieldState (store w)) <= 1)%Q)
  /\ Forall (fun x => (0 < x)%Q /\ (x <= 1)%Q)
            (getStabilityHistory (store w)).
Proof.
  intro H. destruct (reachable_tidy tanh dateNow w H) as [_ _ _ F Hh].
  split; [exact F|exact Hh].
Qed.

Lemma stability_in_unit_interval_witness :
  reachable squash frozenClock hiEngine
  /\ ((0 < Field.stability (getFieldState (store hiEngine)))%Q
      /\ (Field.stability (getFieldState (store hiEngine)) <= 1)%Q)
  /\ Forall (fun x => (0 < x)%Q /\ (x <= 1)%Q)
            (getStabilityHistory (store hiEngine)).
Proof.
  assert (Hw : reachable squash frozenClock hiEngine)
    by (apply reach_respond, reach_dead).
  split; [exact Hw|].
  exact (stability_in_unit_interval squash frozenClock hiEngine Hw).
Defined.

(** X12.  [respond] and [learnFrom] forget no identifier: an identifier
    under which [getNode] finds a node before the call is one under which
    it finds a node after the call.  (The node found may be another
    object: [createNode] overwrites the entry of an identifier that it
    generates again.) *)
Theorem identifiers_are_kept (tanh : Q -> Q) (dateNow : nat -> N) (fuel : nat)
    (prompt response id : string) (w : LLM) :
  getNode id (store w) <> None ->
  getNode id (store (snd (respond tanh dateNow fuel prompt w))) <> None
  /\ getNode id (store (learnFrom tanh dateNow prompt response w)) <> None.
Proof.
  intro H. split.
  - exact (proj1 (extends_respond tanh dateNow fuel prompt w) id H).
  - exact (proj1 (extends_learnFrom tanh dateNow prompt response w) id H).
Qed.

Lemma identifiers_are_kept_witness :
  let id := Node.id (deref (store hiEngine) 0) in
  getNode id (store hiEngine) <> None
  /\ getNode id (store (snd (respond squash frozenClock 1 "you" hiEngine)))
     <> None
  /\ getNode id (store (learnFrom squash frozenClock "you" "me" hiEngine))
     <> None.
Proof.
  intro id.
  assert (H : getNode id (store hiEngine) <> None)
    by (lazy; discriminate).
  split; [exact H|].
  exact (identifiers_are_kept squash frozenClock 1 "you" "me" id hiEngine
           H).
Defined.

(** ** The strongest link and the neighbours *)

Lemma insertBy_ext {A} (cmp cmp' : A -> A -> Q) (x : A) (l : list A) :
  (forall y, In y l -> cmp x y = cmp' x y) ->
  JS.insertBy cmp x l = JS.insertBy cmp' x l.
Proof.
  induction l as [|y l IH]; intro H; simpl; [reflexivity|].
  rewrite (H y (or_introl eq_refl)), IH; [reflexivity|].
  intros z Hz. apply H. right. exact Hz.
Qed.

Lemma sort_ext {A} (cmp cmp' : A -> A -> Q) (l : list A) :
  (forall a b, In a l -> In b l -> cmp a b = cmp' a b) ->
  JS.sort cmp l = JS.sort cmp' l.
Proof.
  induction l as [|x l IH]; intro H; simpl; [reflexivity|].
  rewrite IH by (intros a b Ha Hb; apply H; right; assumption).
  apply insertBy_ext. intros y Hy. apply H; [left; reflexivity|].
  right. exact (Permutation_in y (sort_perm cmp' l) Hy).
Qed.

Lemma sorted_head_max {A} (key : A -> Q) (x : A) (l : list A) :
  StronglySorted (fun a b => (key b <= key a)%Q) (x :: l) ->
  forall y, In y (x :: l) -> (key y <= key x)%Q.
Proof.
  intros H y [->|Hy]; [lra|].
  inversion H as [|? ? _ Hall]; subst.
  rewrite Forall_forall in Hall. exact (Hall y Hy).
Qed.

(** X13.  [getStrongestLink] returns [null] when no sequential edge leaves
    the node.  Otherwise, on a store where the targets of these edges are
    stored nodes, it returns the target of one of them whose rank
    (strength, plus 0.5 unless the target is a child of the node, plus a
    fifth of the target's stability weight) is the greatest. *)
Theorem getStrongestLink_best (fromNodeId : string) (s : Store) :
  Forall (fun e => getNode (Edge.toId e) s <> None)
         (getSequentialEdges fromNodeId s) ->
  (getSequentialEdges fromNodeId s = [] ->
   getStrongestLink fromNodeId s = None)
  /\ (getSequentialEdges fromNodeId s <> [] ->
      exists e target,
        In e (getSequentialEdges fromNodeId s)
        /\ getNode (Edge.toId e) s = Some target
        /\ getStrongestLink fromNodeId s = Some target
        /\ forall e' target',
             In e' (getSequentialEdges fromNodeId s) ->
             getNode (Edge.toId e') s = Some target' ->
             (linkRank fromNodeId s e' target'
              <= linkRank fromNodeId s e target)%Q).
Proof.
  intro R. unfold getStrongestLink. split.
  - intro E. rewrite E. reflexivity.
  - intro N.
    pose (key := fun e =>
            match getNode (Edge.toId e) s with
            | Some r => linkRank fromNodeId s e r
            | None => 0%Q
            end).
    assert (Ex : JS.sort (linkOrder fromNodeId s)
                   (getSequentialEdges fromNodeId s)
                 = JS.sort (fun a b => (key b - key a)%Q)
                     (getSequentialEdges fromNodeId s)).
    { apply sort_ext. intros a b Ha Hb.
      rewrite Forall_forall in R.
      pose proof (R a Ha) as Ra. pose proof (R b Hb) as Rb.
      unfold linkOrder, key.
      destruct (getNode (Edge.toId a) s); [|contradiction].
      destruct (getNode (Edge.toId b) s); [|contradiction].
      reflexivity. }
    rewrite Ex.
    pose proof (sort_sorted key (getSequentialEdges fromNodeId s)) as Hs.
    pose proof (sort_perm (fun a b => (key b - key a)%Q)
                  (getSequentialEdges fromNodeId s)) as Hp.
    remember (JS.sort (fun a b => (key b - key a)%Q)
                (getSequentialEdges fromNodeId s)) as sorted eqn:Esorted.
    clear Esorted Ex. destruct sorted as [|e rest].
    + apply Permutation_nil in Hp. contradiction.
    + assert (He : In e (getSequentialEdges fromNodeId s))
        by (apply (Permutation_in e Hp); left; reflexivity).
      rewrite Forall_forall in R.
      destruct (getNode (Edge.toId e) s) as [target|] eqn:Et;
        [|exact (False_ind _ (R e He Et))].
      exists e, target. split; [exact He|]. split; [exact Et|].
      split; [reflexivity|].
      intros e' target' He' Et'.
      assert (Hin : In e' (e :: rest))
        by (apply (Permutation_in e' (Permutation_sym Hp)); exact He').
      pose proof (sorted_head_max key e rest Hs e' Hin) as Hle.
      unfold key in Hle. rewrite Et, Et' in Hle. exact Hle.
Qed.

Lemma getStrongestLink_best_witness :
  Forall (fun e => getNode (Edge.toId e) linkedOnce <> None)
         (getSequentialEdges idOfA linkedOnce)
  /\ getSequentialEdges idOfA linkedOnce <> []
  /\ exists e target,
       In e (getSequentialEdges idOfA linkedOnce)
       /\ getNode (Edge.toId e) linkedOnce = Some target
       /\ getStrongestLink idOfA linkedOnce = Some target
       /\ forall e' target',
            In e' (getSequentialEdges idOfA linkedOnce) ->
            getNode (Edge.toId e') linkedOnce = Some target' ->
            (linkRank idOfA linkedOnce e' target'
             <= linkRank idOfA linkedOnce e target)%Q.
Proof.
  assert (R : Forall (fun e => getNode (Edge.toId e) linkedOnce <> None)
                (getSequentialEdges idOfA linkedOnce)).
  { lazy. constructor; [discriminate|constructor]. }
  assert (N : getSequentialEdges idOfA linkedOnce <> [])
    by (lazy; discriminate).
  split; [exact R|]. split; [exact N|].
  exact (proj2 (getStrongestLink_best idOfA linkedOnce R) N).
Defined.

Lemma setAdd_In (x y : string) (set : list string) :
  In x (setAdd y set) <-> x = y \/ In x set.
Proof.
  unfold setAdd. destruct (JS.has set y) eqn:E.
  - apply has_In in E. split; [auto|]. intros [->|H]; assumption.
  - rewrite in_app_iff. simpl. split.
    + intros [H|[H|[]]]; auto.
    + intros [H|H]; auto.
Qed.

Lemma neighborIds_In (nodeId x : string) (es : list Edge.t)
    (ids : list string) :
  In x
    (fold_left
       (fun ids e =>
          let ids1 :=
            if String.eqb (Edge.fromId e) nodeId
            then setAdd (Edge.toId e) ids else ids in
          if String.eqb (Edge.toId e) nodeId
          then setAdd (Edge.fromId e) ids1 else ids1)
       es ids)
  <-> In x ids
      \/ exists e, In e es
           /\ ((Edge.fromId e = nodeId /\ x = Edge.toId e)
               \/ (Edge.toId e = nodeId /\ x = Edge.fromId e)).
Proof.
  revert ids. induction es as [|e es IH]; intro ids; cbn [fold_left].
  - split; [auto|]. intros [H|[e [[] _]]]. exact H.
  - rewrite IH. cbv zeta. split.
    + intros [H|[e' [Hin He']]].
      * destruct (String.eqb (Edge.toId e) nodeId) eqn:Et;
          destruct (String.eqb (Edge.fromId e) nodeId) eqn:Ef;
          repeat (apply setAdd_In in H; destruct H as [H|H]);
          try (left; exact H);
          right; exists e; (split; [left; reflexivity|]);
          try apply String.eqb_eq in Et; try apply String.eqb_eq in Ef;
          auto.
      * right. exists e'. split; [right; exact Hin|exact He'].
    + intros [H|[e' [[->|Hin] He']]].
      * left.
        destruct (String.eqb (Edge.toId e) nodeId);
          destruct (String.eqb (Edge.fromId e) nodeId);
          repeat (apply setAdd_In; right); exact H.
      * left. destruct He' as [[Ef ->]|[Et ->]].
        -- apply String.eqb_eq in Ef. rewrite Ef.
           destruct (String.eqb (Edge.toId e') nodeId);
             [apply setAdd_In; right|]; apply setAdd_In; left; reflexivity.
        -- apply String.eqb_eq in Et. rewrite Et.
           apply setAdd_In. left. reflexivity.
      * right. exists e'. split; [exact Hin|exact He'].
Qed.

(** X14.  The neighbours of a node are exactly the stored nodes at the
    other end of an edge that leaves or enters the node. *)
Theorem getNeighbors_spec (nodeId : string) (s : Store) (r : ref) :
  In r (getNeighbors nodeId s)
  <-> exists e, In e (edges s)
        /\ ((Edge.fromId e = nodeId /\ getNode (Edge.toId e) s = Some r)
            \/ (Edge.toId e = nodeId /\ getNode (Edge.fromId e) s = Some r)).
Proof.
  unfold getNeighbors. cbv zeta. rewrite in_flat_map. split.
  - intros [id [Hid Hr]]. apply neighborIds_In in Hid.
    destruct Hid as [[]|[e [He Hside]]].
    apply filter_In in He. destruct He as [He _].
    exists e. split; [exact He|].
    destruct (getNode id s) as [r'|] eqn:Eg; [|destruct Hr].
    destruct Hr as [->|[]].
    destruct Hside as [[Ef ->]|[Et ->]]; [left|right]; split; assumption.
  - intros [e [He Hside]].
    assert (Hf : In e (filter
                         (fun e => String.eqb (Edge.fromId e) nodeId
                                   || String.eqb (Edge.toId e) nodeId)
                         (edges s))).
    { apply filter_In. split; [exact He|]. apply orb_true_iff.
      destruct Hside as [[E _]|[E _]]; [left|right];
        apply String.eqb_eq; exact E. }
    destruct Hside as [[Ef Eg]|[Et Eg]].
    + exists (Edge.toId e). split.
      * apply neighborIds_In. right. exists e. split; [exact Hf|].
        left. split; [exact Ef|reflexivity].
      * rewrite Eg. left. reflexivity.
    + exists (Edge.fromId e). split.
      * apply neighborIds_In. right. exists e. split; [exact Hf|].
        right. split; [exact Et|reflexivity].
      * rewrite Eg. left. reflexivity.
Qed.

(** ** The chain of parents *)

Lemma parentOf_truthy (s : Store) (current parent : ref) :
  parentOf s current = Some parent -> parentTruthy (deref s current) = true.
Proof.
  unfold parentOf, parentTruthy.
  destruct (Node.parentId (deref s current)) as [p|]; [|discriminate].
  destruct (JS.truthy p); [reflexivity|discriminate].
Qed.

Lemma parentOf_falsy (s : Store) (current : ref) :
  parentTruthy (deref s current) = false -> parentOf s current = None.
Proof.
  unfold parentOf, parentTruthy.
  destruct (Node.parentId (deref s current)) as [p|]; [|reflexivity].
  intros ->. reflexivity.
Qed.

Lemma parentChainLoop_sound (fuel : nat) (s : Store) (current : ref)
    (acc chain : list ref) :
  parentChainLoop fuel s current acc = Some chain ->
  exists rest, chain = acc ++ rest /\ ancestry s current rest.
Proof.
  revert current acc.
  induction fuel as [|fuel IH]; intros current acc H; [discriminate|].
  cbn [parentChainLoop] in H.
  destruct (parentTruthy (deref s current)) eqn:T.
  - destruct (parentOf s current) as [parent|] eqn:P.
    + destruct (IH parent (acc ++ [parent]) H) as [rest [E A]].
      exists (parent :: rest). split.
      * rewrite E, <- app_assoc. reflexivity.
      * split; assumption.
    + inversion H; subst. exists []. split; [symmetry; apply app_nil_r|].
      exact P.
  - inversion H; subst. exists []. split; [symmetry; apply app_nil_r|].
    apply parentOf_falsy. exact T.
Qed.

Lemma parentChainLoop_complete (s : Store) (rest : list ref) :
  forall (current : ref) (acc : list ref) (fuel : nat),
    ancestry s current rest -> List.length rest < fuel ->
    parentChainLoop fuel s current acc = Some (acc ++ rest).
Proof.
  induction rest as [|parent rest IH]; intros current acc fuel A L;
    (destruct fuel as [|fuel]; [simpl in L; lia|]); cbn [parentChainLoop].
  - simpl in A. rewrite A, app_nil_r.
    destruct (parentTruthy (deref s current)); reflexivity.
  - destruct A as [P A]. rewrite (parentOf_truthy s current parent P), P.
    rewrite (IH parent (acc ++ [parent]) fuel A) by (simpl in L; lia).
    rewrite <- app_assoc. reflexivity.
Qed.

(** X15.  [getParentChain] of an identifier without a node is empty.  For
    a stored node the call returns a chain exactly when the chain lists
    the ancestors of the node, the nearest first: each is the stored
    parent of the one before, and the last has no stored parent. *)
Theorem getParentChain_ancestry (nodeId : string) (s : Store)
    (chain : list ref) :
  match getNode nodeId s with
  | None => forall fuel, getParentChain fuel nodeId s = Some []
  | Some current =>
      (exists fuel, getParentChain fuel nodeId s = Some chain)
      <-> ancestry s current chain
  end.
Proof.
  unfold getParentChain.
  destruct (getNode nodeId s) as [current|]; [|reflexivity].
  split.
  - intros [fuel H].
    destruct (parentChainLoop_sound fuel s current [] chain H) as [rest [E A]].
    subst chain. exact A.
  - intro A. exists (S (List.length chain)).
    apply (parentChainLoop_complete s chain current []); [exact A|lia].
Qed.

Lemma parentChainLoop_cycle (s : Store) (a b : ref) :
  parentOf s a = Some b -> parentOf s b = Some a ->
  forall fuel acc,
    parentChainLoop fuel s a acc = None /\ parentChainLoop fuel s b acc = None.
Proof.
  intros Hab Hba. induction fuel as [|fuel IH]; intro acc.
  - split; reflexivity.
  - cbn [parentChainLoop].
    rewrite (parentOf_truthy s a b Hab), (parentOf_truthy s b a Hba), Hab, Hba.
    split; apply IH.
Qed.

(** X16.  On a store where two nodes are each the stored parent of the
    other, [getParentChain] of either does not return, and neither does
    [dominates] when asked what dominates either. *)
Theorem getParentChain_cycle (s : Store) (idA idB : string) (a b : ref) :
  getNode idA s = Some a -> getNode idB s = Some b ->
  parentOf s a = Some b -> parentOf s b = Some a ->
  forall fuel x,
    getParentChain fuel idA s = None /\ getParentChain fuel idB s = None
    /\ dominates fuel x idA s = None /\ dominates fuel x idB s = None.
Proof.
  intros Ha Hb Hab Hba fuel x.
  destruct (parentChainLoop_cycle s a b Hab Hba fuel []) as [Ca Cb].
  unfold dominates, getParentChain. rewrite Ha, Hb, Ca, Cb.
  split; [reflexivity|]. split; [reflexivity|]. split; reflexivity.
Qed.

Lemma getParentChain_cycle_witness :
  let s := store cyclicEngine in
  reachable squash frozenClock cyclicEngine
  /\ getNode (Node.id (deref s 0)) s = Some 0
  /\ getNode (Node.id (deref s 1)) s = Some 1
  /\ parentOf s 0 = Some 1 /\ parentOf s 1 = Some 0
  /\ getParentChain 1000 (Node.id (deref s 0)) s = None
  /\ getParentChain 1000 (Node.id (deref s 1)) s = None
  /\ dominates 1000 "" (Node.id (deref s 0)) s = None
  /\ dominates 1000 "" (Node.id (deref s 1)) s = None.
Proof.
  intro s.
  assert (Ha : getNode (Node.id (deref s 0)) s = Some 0)
    by (lazy; reflexivity).
  assert (Hb : getNode (Node.id (deref s 1)) s = Some 1)
    by (lazy; reflexivity).
  assert (Hab : parentOf s 0 = Some 1) by (lazy; reflexivity).
  assert (Hba : parentOf s 1 = Some 0) by (lazy; reflexivity).
  split; [apply reach_respond, reach_respond, reach_respond, reach_dead|].
  split; [exact Ha|]. split; [exact Hb|].
  split; [exact Hab|]. split; [exact Hba|].
  exact (getParentChain_cycle s _ _ 0 1 Ha Hb Hab Hba 1000 "").
Defined.

(** ** The fallback of the stability filter *)

Lemma bestSoFar_nonneg (s : Store) (best : option ref * Q) :
  bestSoFar s best -> (0 <= snd best)%Q.
Proof.
  unfold bestSoFar. destruct (fst best).
  - intros [_ H]. lra.
  - intros ->. lra.
Qed.

Lemma chosenFrom_more (s : Store) (seen seen' : list ref)
    (best : option ref * Q) :
  incl seen seen' -> chosenFrom s seen best -> chosenFrom s seen' best.
Proof.
  unfold chosenFrom. intros Hi. destruct (fst best); [|auto].
  intros [m [Hm Ha]]. exists m. split; [apply Hi; exact Hm|exact Ha].
Qed.

Lemma climb_spec (fuel : nat) (s : Store) (seen : list ref) :
  forall (current start : ref) (best best' : option ref * Q),
    climb fuel s current best = Some best' ->
    In start seen -> ancestorOrSelf s start current ->
    bestSoFar s best -> chosenFrom s seen best ->
    bestSoFar s best' /\ chosenFrom s seen best'
    /\ (snd best <= snd best')%Q
    /\ (Node.stabilityWeight (deref s current) <= snd best')%Q.
Proof.
  induction fuel as [|fuel IH]; intros current start best best' H Hin Hanc
    Hb Hc; [discriminate|].
  cbn [climb] in H. cbv zeta in H.
  pose proof (bestSoFar_nonneg s best Hb) as H0.
  set (w := Node.stabilityWeight (deref s current)) in *.
  set (best1 := if Qltb (snd best) w then (Some current, w) else best) in *.
  assert (H1 : bestSoFar s best1 /\ chosenFrom s seen best1
                 /\ (snd best <= snd best1)%Q /\ (w <= snd best1)%Q).
  { subst best1. destruct (Qltb (snd best) w) eqn:E.
    - apply Qltb_lt in E. split; [|split; [|split]].
      + split; [reflexivity|]. simpl. lra.
      + exists start. split; assumption.
      + simpl. lra.
      + simpl. lra.
    - apply Qltb_ge in E. split; [exact Hb|]. split; [exact Hc|].
      split; [lra|exact E]. }
  clearbody best1. destruct H1 as [Hb1 [Hc1 [Hle1 Hw1]]].
  destruct (parentOf s current) as [parent|] eqn:P.
  - assert (Hanc' : ancestorOrSelf s start parent).
    { clear - Hanc P. induction Hanc as [r|r p a Hp Ha IHa].
      - eapply ancestor_up; [exact P|apply ancestor_self].
      - eapply ancestor_up; [exact Hp|apply IHa; exact P]. }
    destruct (IH parent start best1 best' H Hin Hanc' Hb1 Hc1)
      as [Hb' [Hc' [Hle' _]]].
    split; [exact Hb'|]. split; [exact Hc'|]. split; lra.
  - inversion H; subst best'.
    split; [exact Hb1|]. split; [exact Hc1|]. split; assumption.
Qed.

Lemma climbAll_spec (fuel : nat) (s : Store) (seen : list ref) :
  forall (matched : list ref) (best best' : option ref * Q),
    climbAll fuel s matched best = Some best' ->
    incl matched seen -> bestSoFar s best -> chosenFrom s seen best ->
    bestSoFar s best' /\ chosenFrom s seen best'
    /\ (snd best <= snd best')%Q
    /\ Forall (fun r => (Node.stabilityWeight (deref s r) <= snd best')%Q)
              matched.
Proof.
  induction matched as [|node rest IH]; intros best best' H Hi Hb Hc;
    cbn [climbAll] in H.
  - inversion H; subst. split; [exact Hb|]. split; [exact Hc|].
    split; [lra|constructor].
  - destruct (climb fuel s node best) as [best1|] eqn:E; [|discriminate].
    assert (Hn : In node seen) by (apply Hi; left; reflexivity).
    destruct (climb_spec fuel s seen node node best best1 E Hn
                (ancestor_self s node) Hb Hc) as [Hb1 [Hc1 [Hle1 Hw1]]].
    assert (Hi' : incl rest seen)
      by (intros x Hx; apply Hi; right; exact Hx).
    destruct (IH best1 best' H Hi' Hb1 Hc1) as [Hb' [Hc' [Hle' Hall]]].
    split; [exact Hb'|]. split; [exact Hc'|]. split; [lra|].
    constructor; [lra|exact Hall].
Qed.

(** X17.  [getFallbackResponse] returns [null] for an empty list.  When it
    returns a candidate, the candidate is a matched node or an ancestor of
    one, its score is that node's stability weight, which is positive and
    at least the stability weight of every matched node, and it is marked
    stable; when it returns [null] for a list that is not empty, no matched
    node has a positive stability weight. *)
Theorem getFallbackResponse_best (fuel : nat) (s : Store)
    (matchedNodes : list ref) :
  getFallbackResponse fuel s [] = Some None
  /\ match getFallbackResponse fuel s matchedNodes with
     | Some (Some c) =>
         (exists m r,
            In m matchedNodes /\ ancestorOrSelf s m r
            /\ Candidate.nodeIds c = [Node.id (deref s r)]
            /\ Candidate.content c = Node.content (deref s r)
            /\ Candidate.score c = Node.stabilityWeight (deref s r))
         /\ (0 < Candidate.score c)%Q
         /\ Forall (fun m => (Node.stabilityWeight (deref s m)
                              <= Candidate.score c)%Q) matchedNodes
         /\ Candidate.isStable c = true
     | Some None =>
         Forall (fun m => (Node.stabilityWeight (deref s m) <= 0)%Q)
                matchedNodes
     | None => True
     end.
Proof.
  split; [reflexivity|]. unfold getFallbackResponse.
  destruct (List.length matchedNodes =? 0) eqn:E.
  - apply Nat.eqb_eq in E. destruct matchedNodes; [constructor|discriminate].
  - destruct (climbAll fuel s matchedNodes (None, 0%Q)) as [[bestNode b]|]
      eqn:C; [|exact I].
    destruct (climbAll_spec fuel s matchedNodes matchedNodes (None, 0%Q)
                (bestNode, b) C (incl_refl _) eq_refl I)
      as [Hb [Hc [Hle Hall]]].
    unfold bestSoFar, chosenFrom in Hb, Hc. cbn [fst snd] in *.
    destruct bestNode as [r|].
    + destruct Hb as [Eb Hpos]. destruct Hc as [m [Hm Ha]].
      cbn [Candidate.nodeIds Candidate.content Candidate.score
           Candidate.isStable].
      split; [exists m, r; auto|]. split; [exact Hpos|].
      split; [exact Hall|reflexivity].
    + subst b. exact Hall.
Qed.

(** ** Chains of phrases *)

Lemma buildChainLoop_spec (s : Store) (steps : nat) :
  forall (currentId : string) (visited : list string) (chain : list ref),
  exists more,
    buildChainLoop s steps currentId visited chain = chain ++ more
    /\ List.length more <= steps
    /\ Forall (fun r => Node.type (deref s r) = phrase) more
    /\ linkPath s currentId more.
Proof.
  induction steps as [|steps IH]; intros currentId visited chain;
    cbn [buildChainLoop].
  - exists []. rewrite app_nil_r. simpl. auto.
  - assert (Hstop : exists more,
              chain = chain ++ more /\ List.length more <= S steps
              /\ Forall (fun r => Node.type (deref s r) = phrase) more
              /\ linkPath s currentId more).
    { exists []. rewrite app_nil_r. simpl. split; [reflexivity|].
      split; [lia|]. split; [constructor|exact I]. }
    destruct (JS.has visited currentId); [exact Hstop|].
    destruct (getStrongestLink currentId s) as [next|] eqn:E;
      [|exact Hstop].
    destruct (NodeType_eqb (Node.type (deref s next)) phrase) eqn:T;
      [|exact Hstop].
    destruct (IH (Node.id (deref s next)) (setAdd currentId visited)
                 (chain ++ [next])) as [more [E1 [L [F P]]]].
    exists (next :: more). rewrite E1, <- app_assoc.
    split; [reflexivity|]. split; [simpl; lia|].
    split; [|split; assumption].
    constructor; [|exact F].
    destruct (Node.type (deref s next)); try discriminate. reflexivity.
Qed.

(** X18.  [buildChain] returns at most [maxLength] nodes, all of them
    phrases; the first is the strongest link of the start node and each
    further one the strongest link of the one before. *)
Theorem buildChain_path (s : Store) (startId : string) (maxLength : nat) :
  List.length (buildChain s startId maxLength) <= maxLength
  /\ Forall (fun r => Node.type (deref s r) = phrase)
            (buildChain s startId maxLength)
  /\ linkPath s startId (buildChain s startId maxLength).
Proof.
  unfold buildChain.
  destruct (buildChainLoop_spec s maxLength startId [] [])
    as [more [E [L [F P]]]].
  rewrite E. simpl. auto.
Qed.

(** ** The facade: memories, statistics and phases *)

Section Facade.

Variable tanh : Q -> Q.
Variable dateNow : nat -> N.

(** X19.  After [learnFrom] the first of the memories is the pair just
    learnt, stamped with the last reading of the clock that the call made,
    and the memories that were there follow it in their order, the oldest
    of a hundred being dropped. *)
Theorem getMemories_latest_first (prompt response : string) (w : LLM) :
  List.length (trainingLog w) <= 100 ->
  let w' := learnFrom tanh dateNow prompt response w in
  getMemories w'
  = Memory.mk prompt response (dateNow (Nat.pred (ticks (store w'))))
    :: firstn 99 (getMemories w)
  /\ 0 < ticks (store w').
Proof.
  intros H w'. subst w'. split.
  - unfold getMemories, learnFrom. cbn [now trainingLog store ticks setTicks].
    cbn [Nat.pred].
    rewrite (shift_lastN 100 _ _ H). unfold Spec.lastN.
    rewrite rev_involutive, rev_app_distr. reflexivity.
  - unfold learnFrom. cbn [now store ticks setTicks]. apply Nat.lt_0_succ.
Qed.

Lemma keeps_createNode (content : string) (type : NodeType)
    (parentId : option string) (s : Store) :
  nodes (snd (createNode tanh dateNow content type parentId s)) <> [].
Proof.
  destruct (findNodeByContent content s) as [existing|] eqn:E.
  - rewrite (createNode_found tanh dateNow _ _ _ _ _ E). cbn [snd].
    change (nodes (touch dateNow existing s)) with (nodes s).
    unfold findNodeByContent, getAllNodes, StrMap.values in E.
    destruct (nodes s); [discriminate E|discriminate].
  - rewrite (createNode_fresh tanh dateNow _ _ _ _ E). cbn [snd].
    rewrite nodes_linkToParent. unfold insertNode. cbn [snd nodes setNodes].
    destruct (nodes _) as [|[k v] m]; simpl; [discriminate|].
    destruct (String.eqb _ k); discriminate.
Qed.

Lemma nodes_kept (s s' : Store) : keeps s s' -> nodes s <> [] -> nodes s' <> [].
Proof.
  intros K H E. destruct (nodes s) as [|[k v] m] eqn:En; [congruence|].
  apply (K k).
  - unfold getNode. rewrite En. simpl. rewrite String.eqb_refl. discriminate.
  - unfold getNode. rewrite E. reflexivity.
Qed.

Lemma processInput_stores (input : string) (s : Store) :
  JS.trim input <> "" ->
  nodes (snd (processInput tanh dateNow input s)) <> [].
Proof.
  intro H. unfold processInput.
  destruct (JS.trim input) as [|c r] eqn:E; [congruence|].
  cbn [JS.truthy negb].
  pose proof (keeps_createNode (String c r) phrase None s) as H1.
  destruct (createNode _ _ _ _ _ s) as [phraseNode s1]. cbn [snd] in H1.
  pose proof (extends_processTokens tanh dateNow (tokenize (String c r))
                phraseNode None [phraseNode] s1) as H2.
  destruct (processTokens _ _ _ _ _ _ s1) as [created s2]. cbn [snd] in *.
  apply (nodes_kept s2); [apply extends_establishParenthood|].
  apply (nodes_kept s1); [apply H2|exact H1].
Qed.

Lemma getPhase_dead (w : LLM) :
  getPhase w = "A - Dead State" <-> nodes (store w) = [].
Proof.
  unfold getPhase, getStats. cbn [Stats.totalNodes Stats.phraseNodes
    Stats.totalEdges Stats.stability].
  destruct (nodes (store w)) as [|kv m]; cbn [List.length Nat.eqb].
  - split; reflexivity.
  - split; [|discriminate].
    destruct (_ <? 5); [discriminate|].
    destruct (_ <? 10); [discriminate|].
    destruct (Qltb _ _); [discriminate|].
    destruct (20 <? _); discriminate.
Qed.

(** X20.  The phase is "A - Dead State" exactly when the store has no
    node; so it is after [clearMemory], and it is not after [respond] or
    [learnFrom] on a prompt that is not blank. *)
Theorem phase_leaves_dead_state (fuel : nat) (prompt response : string)
    (w : LLM) :
  JS.trim prompt <> "" ->
  (getPhase w = "A - Dead State" <-> getAllNodes (store w) = [])
  /\ getPhase (clearMemory w) = "A - Dead State"
  /\ getPhase (snd (respond tanh dateNow fuel prompt w)) <> "A - Dead State"
  /\ getPhase (learnFrom tanh dateNow prompt response w) <> "A - Dead State".
Proof.
  intro H. split; [|split; [reflexivity|split]].
  - rewrite getPhase_dead. unfold getAllNodes, StrMap.values.
    destruct (nodes (store w)); simpl; split; congruence.
  - rewrite getPhase_dead. unfold respond.
    pose proof (processInput_stores prompt (store w) H) as H1.
    destruct (processInput _ _ prompt (store w)) as [created s1].
    cbn [snd store] in *.
    apply (nodes_kept s1); [apply extends_evolveField|exact H1].
  - rewrite getPhase_dead.
    apply (nodes_kept (processTrainingPair tanh dateNow prompt response
                         (store w))).
    + unfold learnFrom. cbn [now store].
      intros id Hid.
      apply (proj1 (extends_reinforceNodes _ _ _)).
      apply (proj1 (extends_evolveField tanh dateNow _ _)).
      apply (proj1 (extends_evolveField tanh dateNow _ _)).
      exact Hid.
    + unfold processTrainingPair.
      pose proof (processInput_stores prompt (store w) H) as H1.
      destruct (processInput _ _ prompt (store w)) as [promptNodes s1].
      cbn [snd] in H1.
      pose proof (extends_processInput tanh dateNow response s1) as H2.
      destruct (processInput _ _ response s1) as [responseNodes s2].
      cbn [snd] in H2.
      assert (H3 : nodes s2 <> [])
        by (apply (nodes_kept s1); [apply H2|exact H1]).
      destruct (_ && _); [|exact H3].
      destruct (findPhrase s2 promptNodes); [|exact H3].
      destruct (findPhrase s2 responseNodes); [|exact H3].
      apply (nodes_kept s2); [apply extends_createEdge|exact H3].
Qed.

End Facade.

Lemma getMemories_latest_first_witness :
  let w' := learnFrom squash frozenClock "you" "me" hiEngine in
  List.length (trainingLog hiEngine) <= 100
  /\ getMemories w'
     = Memory.mk "you" "me" (frozenClock (Nat.pred (ticks (store w'))))
       :: firstn 99 (getMemories hiEngine)
  /\ 0 < ticks (store w').
Proof.
  intro w'.
  assert (H : List.length (trainingLog hiEngine) <= 100)
    by (lazy; lia).
  split; [exact H|].
  exact (getMemories_latest_first squash frozenClock "you" "me" hiEngine H).
Defined.

Lemma phase_leaves_dead_state_witness :
  JS.trim " hi " <> ""
  /\ (getPhase deadLLM = "A - Dead State" <-> getAllNodes (store deadLLM) = [])
  /\ getPhase (clearMemory deadLLM) = "A - Dead State"
  /\ getPhase (snd (respond squash frozenClock 1 " hi " deadLLM))
     <> "A - Dead State"
  /\ getPhase (learnFrom squash frozenClock " hi " "you" deadLLM)
     <> "A - Dead State".
Proof.
  assert (H : JS.trim " hi " <> "") by (lazy; discriminate).
  split; [exact H|].
  exact (phase_leaves_dead_state squash frozenClock 1 " hi " "you" deadLLM H).
Defined.

Lemma filter_disjoint_length {A} (p q : A -> bool) (l : list A) :
  (forall x, p x = true -> q x = false) ->
  List.length (filter p l) + List.length (filter q l) <= List.length l.
Proof.
  intro H. induction l as [|x l IH]; simpl; [lia|].
  destruct (p x) eqn:P.
  - rewrite (H x P). simpl. lia.
  - destruct (q x); simpl; lia.
Qed.

(** X21.  In the statistics of a store the phrases and the words together
    are at most the nodes; the statistics of a cleared store are those of
    the dead state. *)
Theorem getStats_consistent (s : Store) :
  Stats.phraseNodes (getStats s) + Stats.wordNodes (getStats s)
  <= Stats.totalNodes (getStats s)
  /\ getStats (clear s) = getStats deadStore.
Proof.
  split; [|reflexivity].
  unfold getStats. cbn [Stats.phraseNodes Stats.wordNodes Stats.totalNodes].
  unfold getPhraseNodes.
  replace (List.length (nodes s)) with (List.length (getAllNodes s))
    by (unfold getAllNodes, StrMap.values; apply length_map).
  apply filter_disjoint_length.
  intros r H. destruct (Node.type (deref s r)); try discriminate.
  reflexivity.
Qed.

(** ** A first edge, and the nodes of an input *)

(** X22.  On a store whose references are allocated, [createEdge] between
    two stored nodes that no edge joins yet in that direction appends one
    edge of strength 1.0 whose curvature is the gap of the two signatures,
    records the strength 1.0 under the other identifier in the link
    strengths of both nodes, and leaves the identifiers of the store. *)
Theorem createEdge_first (s : Store) (fromId toId : string)
    (isSequential : bool) (a b : ref) :
  allocated s ->
  find (sameEnds fromId toId) (edges s) = None ->
  getNode fromId s = Some a -> getNode toId s = Some b ->
  edges (createEdge fromId toId isSequential s)
  = edges s ++ [Edge.mk fromId toId 1.0 (signatureGap s a b) isSequential]
  /\ StrMap.get toId
       (Node.linkStrengths (deref (createEdge fromId toId isSequential s) a))
     = Some 1.0%Q
  /\ StrMap.get fromId
       (Node.linkStrengths (deref (createEdge fromId toId isSequential s) b))
     = Some 1.0%Q
  /\ nodes (createEdge fromId toId isSequential s) = nodes s.
Proof.
  intros Hall Hfind Ha Hb.
  assert (La : a < List.length (heap s)).
  { apply allocated_ref; [exact Hall|].
    unfold getAllNodes, StrMap.values. apply in_map_iff.
    exists (fromId, a). split; [reflexivity|apply StrMap_get_In; exact Ha]. }
  assert (Lb : b < List.length (heap s)).
  { apply allocated_ref; [exact Hall|].
    unfold getAllNodes, StrMap.values. apply in_map_iff.
    exists (toId, b). split; [reflexivity|apply StrMap_get_In; exact Hb]. }
  unfold createEdge. rewrite Hfind, Ha, Hb. cbv zeta.
  cbn [Edge.strength].
  split; [reflexivity|]. split; [|split; [|reflexivity]].
  - destruct (Nat.eq_dec a b) as [->|Hne].
    + rewrite deref_updNode_same
        by (unfold updNode; cbn [heap setHeap setEdges];
            rewrite updateAt_length; exact Lb).
      rewrite deref_updNode_same by exact Lb.
      cbn [Node.linkStrengths Node.setLinkStrengths].
      rewrite !StrMap_get_set, String.eqb_refl.
      destruct (String.eqb toId fromId); reflexivity.
    + rewrite deref_updNode_other by exact Hne.
      rewrite deref_updNode_same by exact La.
      cbn [Node.linkStrengths Node.setLinkStrengths].
      rewrite StrMap_get_set, String.eqb_refl. reflexivity.
  - rewrite deref_updNode_same
      by (unfold updNode; cbn [heap setHeap setEdges];
          rewrite updateAt_length; exact Lb).
    cbn [Node.linkStrengths Node.setLinkStrengths].
    rewrite StrMap_get_set, String.eqb_refl. reflexivity.
Qed.

Lemma createEdge_first_witness :
  allocated twoNodes
  /\ find (sameEnds idOfA idOfB) (edges twoNodes) = None
  /\ getNode idOfA twoNodes = Some 0 /\ getNode idOfB twoNodes = Some 1
  /\ edges (createEdge idOfA idOfB true twoNodes)
     = edges twoNodes
       ++ [Edge.mk idOfA idOfB 1.0 (signatureGap twoNodes 0 1) true]
  /\ StrMap.get idOfB
       (Node.linkStrengths (deref (createEdge idOfA idOfB true twoNodes) 0))
     = Some 1.0%Q
  /\ StrMap.get idOfA
       (Node.linkStrengths (deref (createEdge idOfA idOfB true twoNodes) 1))
     = Some 1.0%Q
  /\ nodes (createEdge idOfA idOfB true twoNodes) = nodes twoNodes.
Proof.
  assert (Hall : allocated twoNodes).
  { lazy. constructor; [lia|]. constructor; [lia|constructor]. }
  assert (Hfind : find (sameEnds idOfA idOfB) (edges twoNodes) = None)
    by (lazy; reflexivity).
  assert (Ha : getNode idOfA twoNodes = Some 0) by (lazy; reflexivity).
  assert (Hb : getNode idOfB twoNodes = Some 1) by (lazy; reflexivity).
  split; [exact Hall|]. split; [exact Hfind|].
  split; [exact Ha|]. split; [exact Hb|].
  exact (createEdge_first twoNodes idOfA idOfB true 0 1 Hall Hfind Ha Hb).
Defined.

Lemma tokenize_nonempty (c : ascii) (r : string) :
  JS.isSpace c = false -> tokenize (String c r) <> [].
Proof.
  intros H E.
  pose proof (tokenizeLoop_joinAll (String c r) [] "") as J.
  fold (tokenize (String c r)) in J. rewrite E in J.
  cbn [joinAll fold_right dropSpaces String.append] in J.
  destruct (Ascii.eqb c " ") eqn:S.
  - apply Ascii.eqb_eq in S. subst c. discriminate H.
  - discriminate J.
Qed.

Section InputNodes.

Variable tanh : Q -> Q.
Variable dateNow : nat -> N.

Lemma processTokens_returns (tokens : list string) (phraseNode : ref)
    (previous : option ref) (created : list ref) (s : Store) :
  exists words,
    fst (processTokens tanh dateNow tokens phraseNode previous created s)
    = created ++ words
    /\ List.length words = List.length tokens.
Proof.
  revert previous created s.
  induction tokens as [|token rest IH]; intros previous created s;
    cbn [processTokens].
  - exists []. rewrite app_nil_r. split; reflexivity.
  - destruct (createNode _ _ _ _ _ s) as [wordNode s1].
    match goal with
    | |- context [processTokens _ _ rest phraseNode ?p ?c ?st] =>
        destruct (IH p c st) as [words [E L]]
    end.
    exists (wordNode :: words). rewrite E, <- app_assoc.
    split; [reflexivity|]. simpl. rewrite L. reflexivity.
Qed.

(** X23.  For an input that is not blank [processInput] returns the
    phrase node of the trimmed input followed by one node for each token
    of the trimmed input, of which there is at least one. *)
Theorem processInput_returns (input : string) (s : Store) :
  JS.trim input <> "" ->
  exists words,
    fst (processInput tanh dateNow input s)
    = fst (createNode tanh dateNow (JS.trim input) phrase None s) :: words
    /\ List.length words = List.length (tokenize (JS.trim input))
    /\ 1 <= List.length words.
Proof.
  intro H. unfold processInput.
  pose proof (trimEnd_clean _ (trimStart_clean input)) as Hc.
  fold (JS.trim input) in Hc.
  destruct (JS.trim input) as [|c r]; [congruence|].
  cbn [JS.truthy negb].
  destruct (createNode _ _ _ _ _ s) as [phraseNode s1].
  destruct (processTokens_returns (tokenize (String c r)) phraseNode None
              [phraseNode] s1) as [words [E L]].
  destruct (processTokens _ _ _ _ _ _ s1) as [created s2].
  cbn [fst] in *. exists words. split; [exact E|]. split; [exact L|].
  rewrite L. pose proof (tokenize_nonempty c r Hc) as N.
  destruct (tokenize (String c r)); [congruence|simpl; lia].
Qed.

End InputNodes.

Lemma processInput_returns_witness :
  JS.trim " hi you " <> ""
  /\ exists words,
       fst (processInput squash frozenClock " hi you " deadStore)
       = fst (createNode squash frozenClock (JS.trim " hi you ") phrase None
                deadStore) :: words
       /\ List.length words = List.length (tokenize (JS.trim " hi you "))
       /\ 1 <= List.length words.
Proof.
  assert (H : JS.trim " hi you " <> "") by (lazy; discriminate).
  split; [exact H|].
  exact (processInput_returns squash frozenClock " hi you " deadStore H).
Defined.

(** ** The total weight *)

(** X24.  The total spectral weight of the four weights that [createNode]
    gives to a new node lies between 0.7 and 1, whatever the content. *)
Theorem computeTotalWeight_of_new_node (content : string) :
  let total :=
    computeTotalWeight (calculateLengthWeight content)
      (calculateCharIndexWeight content) calculateInitialStabilityWeight
      calculateInitialUsageWeight in
  (7 # 10 <= total)%Q /\ (total < 1)%Q.
Proof.
  cbv zeta. unfold computeTotalWeight, calculateInitialStabilityWeight,
    calculateInitialUsageWeight.
  destruct (lengthWeight_bounds content) as [_ [L0 L1]].
  destruct (charIndexWeight_bounds content) as [_ [C0 C1]].
  split; lra.
Qed.

(** ** Where a response comes from *)

Lemma getNode_stored (id : string) (s : Store) (r : ref) :
  getNode id s = Some r -> In r (getAllNodes s).
Proof.
  intro H. unfold getAllNodes, StrMap.values. apply in_map_iff.
  exists (id, r). split; [reflexivity|apply StrMap_get_In; exact H].
Qed.

Lemma getStrongestLink_stored (id : string) (s : Store) (r : ref) :
  getStrongestLink id s = Some r -> In r (getAllNodes s).
Proof.
  unfold getStrongestLink. destruct (JS.sort _ _) as [|e rest]; [discriminate|].
  apply getNode_stored.
Qed.

Lemma linkPath_stored (s : Store) (chain : list ref) :
  forall id, linkPath s id chain ->
             Forall (fun r => In r (getAllNodes s)) chain.
Proof.
  induction chain as [|r chain IH]; intros id H; [constructor|].
  destruct H as [H1 H2]. constructor.
  - exact (getStrongestLink_stored id s r H1).
  - exact (IH _ H2).
Qed.

Lemma storedText_one (s : Store) (r : ref) :
  In r (getAllNodes s) -> storedText s (Node.content (deref s r)).
Proof.
  intro H. exists [r]. split; [discriminate|].
  split; [constructor; [exact H|constructor]|reflexivity].
Qed.

Lemma candidatesOf_stored (s : Store) (matched : ref) (c : Candidate.t) :
  In c (candidatesOf s matched) -> storedText s (Candidate.content c).
Proof.
  unfold candidatesOf. cbv zeta. rewrite in_app_iff. intros [H|H].
  - destruct (getStrongestLink _ s) as [next|] eqn:E; [|destruct H].
    destruct H as [<-|[]]. cbn [Candidate.content].
    apply storedText_one. exact (getStrongestLink_stored _ s next E).
  - match type of H with
    | In c (if ?b then _ else _) => destruct b eqn:L; [|destruct H]
    end.
    destruct H as [<-|[]]. cbn [Candidate.content].
    exists (buildChain s (Node.id (deref s matched)) 3).
    split; [|split; [|reflexivity]].
    + apply Nat.ltb_lt in L. intro E. rewrite E in L. simpl in L. lia.
    + unfold buildChain.
      destruct (buildChainLoop_spec s 3 (Node.id (deref s matched)) [] [])
        as [more [E [_ [_ P]]]].
      rewrite E. simpl. exact (linkPath_stored s more _ P).
Qed.

Lemma constructFromWords_stored (s : Store) (input out : string) :
  constructFromWords s input = Some out -> storedText s out.
Proof.
  unfold constructFromWords. cbv zeta.
  set (words := JS.splitWhitespace (JS.toLowerCase input)).
  set (refs := flat_map
                 (fun w => match findNodeByContent w s with
                           | Some r => [r]
                           | None => []
                           end) words).
  assert (E : flat_map
                (fun w => match findNodeByContent w s with
                          | Some wordNode => [Node.content (deref s wordNode)]
                          | None => []
                          end) words
              = map (fun r => Node.content (deref s r)) refs).
  { subst refs. induction words as [|w ws IH]; simpl; [reflexivity|].
    rewrite map_app, <- IH. destruct (findNodeByContent w s); reflexivity. }
  rewrite E. destruct (List.length _ =? 0) eqn:L; [discriminate|].
  intro H. inversion H; subst out. exists refs.
  split; [|split; [|reflexivity]].
  - intro N. rewrite N in L. discriminate L.
  - apply Forall_forall. intros r Hr. subst refs.
    apply in_flat_map in Hr. destruct Hr as [w [_ Hw]].
    destruct (findNodeByContent w s) as [e|] eqn:F; [|destruct Hw].
    destruct Hw as [<-|[]].
    exact (proj1 (findNodeByContent_some w s e F)).
Qed.

Lemma findMatchingPhrases_stored (input : string) (s : Store) (r : ref) :
  In r (findMatchingPhrases input s) -> In r (getAllNodes s).
Proof.
  unfold findMatchingPhrases. cbv zeta. intro H.
  apply in_map_iff in H. destruct H as [[r' q] [E H]]. simpl in E. subst r'.
  apply (Permutation_in _ (sort_perm _ _)) in H.
  rewrite collectMatches_spec in H. apply in_map_iff in H.
  destruct H as [r' [E H]]. inversion E; subst r'.
  apply filter_In in H. destruct H as [H _].
  unfold getPhraseNodes in H. apply filter_In in H. exact (proj1 H).
Qed.

Lemma ancestor_stored (s : Store) (m r : ref) :
  ancestorOrSelf s m r -> In m (getAllNodes s) -> In r (getAllNodes s).
Proof.
  induction 1 as [r|r parent a P _ IH]; intro H; [exact H|].
  apply IH. unfold parentOf in P.
  destruct (Node.parentId (deref s r)) as [p|]; [|discriminate].
  destruct (JS.truthy p); [|discriminate].
  exact (getNode_stored p s parent P).
Qed.

(** X25.  A response is the input itself or is made of what the store
    holds: the content of one stored node, or the contents of several
    joined by spaces.  On a store without nodes it is the input. *)
Theorem generateResponse_provenance (fuel : nat) (input : string)
    (s : Store) :
  match generateResponse fuel input s with
  | Some out =>
      (getAllNodes s = [] -> out = input)
      /\ (out = input \/ storedText s out)
  | None => True
  end.
Proof.
  unfold generateResponse.
  destruct (List.length (getAllNodes s) =? 0) eqn:L0.
  - split; [reflexivity|left; reflexivity].
  - assert (Hn : forall out : string, getAllNodes s = [] -> out = input).
    { intros out E. rewrite E in L0. discriminate L0. }
    cbv zeta.
    destruct (List.length (findMatchingPhrases input s) =? 0) eqn:L1.
    + destruct (constructFromWords s input) as [w|] eqn:C.
      * destruct (JS.truthy w).
        -- split; [apply Hn|right].
           exact (constructFromWords_stored s input w C).
        -- split; [apply Hn|left; reflexivity].
      * split; [apply Hn|left; reflexivity].
    + pose proof (sort_perm
                    (fun a b => (Candidate.score b - Candidate.score a)%Q)
                    (filter (isStable s)
                       (buildCandidates s (findMatchingPhrases input s))))
        as Hp.
      destruct (JS.sort _ (filter (isStable s) _)) as [|best rest].
      * destruct (getFallbackResponse fuel s (findMatchingPhrases input s))
          as [[fallback|]|] eqn:F; [| |exact I].
        -- split; [apply Hn|right].
           unfold getFallbackResponse in F. rewrite L1 in F.
           destruct (climbAll fuel s (findMatchingPhrases input s) (None, 0%Q))
             as [[[bestNode|] b]|] eqn:C; try discriminate F.
           inversion F; subst fallback. cbn [Candidate.content].
           destruct (climbAll_spec fuel s (findMatchingPhrases input s)
                       (findMatchingPhrases input s) (None, 0%Q)
                       (Some bestNode, b) C (incl_refl _) eq_refl I)
             as [_ [[m [Hm Ha]] _]].
           apply storedText_one.
           apply (ancestor_stored s m bestNode Ha).
           exact (findMatchingPhrases_stored input s m Hm).
        -- split; [apply Hn|left; reflexivity].
      * split; [apply Hn|right].
        assert (Hb : In best
                       (filter (isStable s)
                          (buildCandidates s (findMatchingPhrases input s))))
          by (apply (Permutation_in best Hp); left; reflexivity).
        apply filter_In in Hb. destruct Hb as [Hb _].
        unfold buildCandidates in Hb. apply in_flat_map in Hb.
        destruct Hb as [m [_ Hc]].
        exact (candidatesOf_stored s m best Hc).
Qed.

(** ** The edges that leave a node *)

Lemma targets_NoDup (nodeId : string) (l : list Edge.t) :
  NoDup (map ends l) ->
  NoDup (map Edge.toId
           (filter (fun e => String.eqb (Edge.fromId e) nodeId) l)).
Proof.
  induction l as [|e l IH]; intro H; simpl; [constructor|].
  inversion H as [|? ? Hnot Hrest]; subst.
  destruct (String.eqb (Edge.fromId e) nodeId) eqn:E; [|exact (IH Hrest)].
  simpl. constructor; [|exact (IH Hrest)].
  intro Hin. apply Hnot. apply in_map_iff in Hin.
  destruct Hin as [e' [Et He']]. apply filter_In in He'.
  destruct He' as [He' Ef].
  apply String.eqb_eq in E. apply String.eqb_eq in Ef.
  apply in_map_iff. exists e'. split; [|exact He'].
  unfold ends. rewrite Et, Ef, E. reflexivity.
Qed.

(** X26.  In every engine reached from the dead state the edges that
    leave a node lead to different targets, each of them a stored node;
    the sequential edges of the node are the sequential ones among
    them. *)
Theorem getEdgesFrom_targets (tanh : Q -> Q) (dateNow : nat -> N) (w : LLM)
    (nodeId : string) :
  reachable tanh dateNow w ->
  NoDup (map Edge.toId (getEdgesFrom nodeId (store w)))
  /\ Forall (fun e => Edge.fromId e = nodeId
                      /\ getNode (Edge.toId e) (store w) <> None)
            (getEdgesFrom nodeId (store w))
  /\ getSequentialEdges nodeId (store w)
     = filter Edge.isSequential (getEdgesFrom nodeId (store w)).
Proof.
  intro H. destruct (reachable_tidy tanh dateNow w H) as [U R _ _ _].
  unfold getEdgesFrom, getSequentialEdges.
  split; [exact (targets_NoDup nodeId _ U)|]. split.
  - apply Forall_forall. intros e He. apply filter_In in He.
    destruct He as [He Ef]. apply String.eqb_eq in Ef.
    rewrite Forall_forall in R. split; [exact Ef|exact (proj2 (R e He))].
  - clear U R. induction (edges (store w)) as [|e l IH]; simpl;
      [reflexivity|].
    destruct (String.eqb (Edge.fromId e) nodeId); simpl;
      [destruct (Edge.isSequential e); rewrite IH; reflexivity|exact IH].
Qed.

Lemma getEdgesFrom_targets_witness :
  let nodeId := Node.id (deref (store abThenAbc) 0) in
  reachable squash frozenClock abThenAbc
  /\ NoDup (map Edge.toId (getEdgesFrom nodeId (store abThenAbc)))
  /\ Forall (fun e => Edge.fromId e = nodeId
                      /\ getNode (Edge.toId e) (store abThenAbc) <> None)
            (getEdgesFrom nodeId (store abThenAbc))
  /\ getSequentialEdges nodeId (store abThenAbc)
     = filter Edge.isSequential (getEdgesFrom nodeId (store abThenAbc)).
Proof.
  intro nodeId.
  assert (Hw : reachable squash frozenClock abThenAbc)
    by (apply reach_respond, reach_respond, reach_dead).
  split; [exact Hw|].
  exact (getEdgesFrom_targets squash frozenClock abThenAbc nodeId Hw).
Defined.
